(** * Split DeepFM (torch): DeepFMBase and DeepFMFuse

    A shallow embedding of [secretflow/ml/nn/applications/sl_deepfm_torch.py].

    Tensors are n-dimensional arrays stored as a shape and a row-major
    data list.  float32 elements are modelled as exact rationals ([Qc]):
    every theorem below is about the arithmetic of the program with
    rounding left out.  Integer (Long) tensors carry [Z] elements.
    Python exceptions are an explicit error result. *)

From Stdlib Require Import List ZArith QArith Qcanon Lia Bool Arith Permutation.
From Stdlib Require String.
Import ListNotations.

Open Scope nat_scope.

(* ------------------------------------------------------------------ *)
(** ** Python results and exceptions *)

Inductive PyError : Type :=
| IndexError
| AssertionError
| RuntimeError
| TypeError
| AttributeError.

Inductive result (A : Type) : Type :=
| Ok (a : A)
| Raise (e : PyError).

Arguments Ok {A} a.
Arguments Raise {A} e.

Definition bind {A B} (r : result A) (k : A -> result B) : result B :=
  match r with
  | Ok a => k a
  | Raise e => Raise e
  end.

Notation "x <- c ;; k" := (bind c (fun x => k))
  (at level 61, c at next level, right associativity).

Definition raises {A} (r : result A) : Prop := exists e, r = Raise e.

Fixpoint mapM {A B} (f : A -> result B) (l : list A) : result (list B) :=
  match l with
  | [] => Ok []
  | a :: l' => b <- f a ;; bs <- mapM f l' ;; Ok (b :: bs)
  end.

(** [l[i]] for a non-negative index. *)
Definition getitem {A} (l : list A) (i : nat) : result A :=
  match nth_error l i with
  | Some a => Ok a
  | None => Raise IndexError
  end.

(** [l[i]] for a Python int: negative indices count from the end. *)
Definition getitem_int {A} (l : list A) (i : Z) : result A :=
  let n := Z.of_nat (length l) in
  if (0 <=? i)%Z then getitem l (Z.to_nat i)
  else if (0 <=? i + n)%Z then getitem l (Z.to_nat (i + n))
  else Raise IndexError.

(** [l[start::step]] for [step >= 1]: [skip] counts the elements still to
    be passed over before the next one is taken. *)
Fixpoint take_every {A} (step skip : nat) (l : list A) : list A :=
  match l with
  | [] => []
  | a :: l' =>
      match skip with
      | 0 => a :: take_every step (step - 1) l'
      | S k => take_every step k l'
      end
  end.

Definition slice_from_step {A} (l : list A) (start step : nat) : list A :=
  take_every step start l.

Definition py_assert (b : bool) : result unit :=
  if b then Ok tt else Raise AssertionError.

(* ------------------------------------------------------------------ *)
(** ** Tensors *)

Record ndarray (A : Type) : Type := mkArray {
  shape : list nat;
  data : list A
}.

Arguments mkArray {A} shape data.
Arguments shape {A} _.
Arguments data {A} _.

(** float32 tensors and int64 tensors. *)
Definition tensor : Type := ndarray Qc.
Definition long_tensor : Type := ndarray Z.

Definition numel (s : list nat) : nat := fold_right Nat.mul 1 s.

Definition wf {A} (t : ndarray A) : Prop := length (data t) = numel (shape t).

Definition dim {A} (t : ndarray A) : nat := length (shape t).

Fixpoint shape_eqb (a b : list nat) : bool :=
  match a, b with
  | [], [] => true
  | x :: a', y :: b' => (x =? y) && shape_eqb a' b'
  | _, _ => false
  end.

Definition Qc_eqb (a b : Qc) : bool := Qeq_bool (this a) (this b).

Fixpoint data_eqb (a b : list Qc) : bool :=
  match a, b with
  | [], [] => true
  | x :: a', y :: b' => Qc_eqb x y && data_eqb a' b'
  | _, _ => false
  end.

Definition tensor_eqb (a b : tensor) : bool :=
  shape_eqb (shape a) (shape b) && data_eqb (data a) (data b).

Definition Z2Qc (z : Z) : Qc := Q2Qc (inject_Z z).

Definition half : Qc := Q2Qc (1 # 2).

(** [torch.tensor(0)]: a 0-dimensional int64 tensor. *)
Definition torch_tensor (v : Z) : long_tensor := mkArray [] [v].

(** [torch.tensor(0, dtype=torch.float32)]: a 0-dimensional float tensor. *)
Definition torch_tensor_float32 (v : Z) : tensor := mkArray [] [Z2Qc v].

(** [torch.equal(a, b)]: same size and same elements; the int64 operand is
    promoted to the float operand's type before the comparison. *)
Definition torch_equal (a : tensor) (b : long_tensor) : bool :=
  shape_eqb (shape a) (shape b) && data_eqb (data a) (map Z2Qc (data b)).

(** [count] consecutive pieces of [size] elements each. *)
Fixpoint chunks {A} (size count : nat) (l : list A) : list (list A) :=
  match count with
  | 0 => []
  | S c => firstn size l :: chunks size c (skipn size l)
  end.

(** For each of the [outer] leading positions, the next block of every
    part in turn; a part is the size of its block and its remaining data. *)
Fixpoint interleave {A} (outer : nat) (parts : list (nat * list A)) : list A :=
  match outer with
  | 0 => []
  | S o =>
      flat_map (fun p => firstn (fst p) (snd p)) parts
      ++ interleave o (map (fun p => (fst p, skipn (fst p) (snd p))) parts)
  end.

(** A shape with dimension [d] left out: what [torch.cat] compares. *)
Definition drop_dim (d : nat) (s : list nat) : list nat :=
  firstn d s ++ skipn (S d) s.

(** The legacy exception of [torch.cat]: 1-D empty tensors are passed over. *)
Definition cat_skipped {A} (t : ndarray A) : bool :=
  shape_eqb (shape t) [0].

(** [torch.cat(ts, dim=d)]. *)
Definition torch_cat {A} (ts : list (ndarray A)) (d : nat) : result (ndarray A) :=
  match ts with
  | [] => Raise RuntimeError
  | _ =>
      match filter (fun t => negb (cat_skipped t)) ts with
      | [] => Ok (mkArray [0] [])
      | t0 :: rest =>
          let s0 := shape t0 in
          if existsb (fun t => dim t =? 0) (t0 :: rest) then Raise RuntimeError
          else if negb (d <? length s0) then Raise IndexError
          else if forallb (fun t => (dim t =? length s0)
                                    && shape_eqb (drop_dim d (shape t)) (drop_dim d s0)) rest
          then
            Ok (mkArray
                  (firstn d s0
                   ++ [fold_right Nat.add 0 (map (fun t => nth d (shape t) 0) (t0 :: rest))]
                   ++ skipn (S d) s0)
                  (interleave (numel (firstn d s0))
                     (map (fun t => (numel (skipn d (shape t)), data t)) (t0 :: rest))))
          else Raise RuntimeError
      end
  end.

(** [torch.unsqueeze(t, dim=d)]. *)
Definition torch_unsqueeze {A} (t : ndarray A) (d : nat) : result (ndarray A) :=
  if d <=? dim t
  then Ok (mkArray (firstn d (shape t) ++ [1] ++ skipn d (shape t)) (data t))
  else Raise IndexError.

(** [torch.stack(ts, dim=d)]: every tensor has the same size; a new
    dimension of length [len(ts)] is inserted at [d]. *)
Definition torch_stack {A} (ts : list (ndarray A)) (d : nat) : result (ndarray A) :=
  match ts with
  | [] => Raise RuntimeError
  | t0 :: rest =>
      let s0 := shape t0 in
      if negb (forallb (fun t => shape_eqb (shape t) s0) rest) then Raise RuntimeError
      else if negb (d <=? length s0) then Raise IndexError
      else
        Ok (mkArray
              (firstn d s0 ++ [length ts] ++ skipn d s0)
              (interleave (numel (firstn d s0))
                 (map (fun t => (numel (skipn d s0), data t)) ts)))
  end.

Open Scope Qc_scope.

Definition vadd (u v : list Qc) : list Qc :=
  map (fun p => fst p + snd p) (combine u v).

(** Elementwise sum of a list of vectors of length [width]. *)
Definition vsum (width : nat) (vs : list (list Qc)) : list Qc :=
  fold_right vadd (repeat 0 width) vs.

Definition total (v : list Qc) : Qc := fold_right Qcplus 0 v.

(** [torch.sum(t, dim=d, keepdim=k)]. *)
Definition torch_sum (t : tensor) (d : nat) (keepdim : bool) : result tensor :=
  let s := shape t in
  if (d <? length s)%nat then
    let outer := numel (firstn d s) in
    let mid := nth d s 0%nat in
    let inner := numel (skipn (S d) s) in
    Ok (mkArray
          (firstn d s ++ (if keepdim then [1%nat] else []) ++ skipn (S d) s)
          (flat_map (fun blk => vsum inner (chunks inner mid blk))
             (chunks (mid * inner) outer (data t))))
  else if (length s =? 0)%nat && (d =? 0)%nat then Ok t
  else Raise IndexError.

Definition tmap (f : Qc -> Qc) (t : tensor) : tensor :=
  mkArray (shape t) (map f (data t)).

(** [torch.pow(t, n)] for a non-negative integer exponent. *)
Definition torch_pow (t : tensor) (n : nat) : tensor :=
  tmap (fun v => v ^ n) t.

(** [c * t] for a Python float [c]. *)
Definition scalar_mul (c : Qc) (t : tensor) : tensor :=
  tmap (fun v => c * v) t.

(** Broadcasting: shapes are aligned at their last dimension; two sizes are
    compatible when they are equal or one of them is 1. *)
Fixpoint broadcast_rev (a b : list nat) : result (list nat) :=
  match a, b with
  | [], _ => Ok b
  | _, [] => Ok a
  | x :: a', y :: b' =>
      r <- broadcast_rev a' b' ;;
      if (x =? y)%nat then Ok (x :: r)
      else if (x =? 1)%nat then Ok (y :: r)
      else if (y =? 1)%nat then Ok (x :: r)
      else Raise RuntimeError
  end.

Definition broadcast_shapes (a b : list nat) : result (list nat) :=
  r <- broadcast_rev (rev a) (rev b) ;; Ok (rev r).

(** Data of a tensor of shape [from] expanded to shape [to], the two shapes
    having the same rank. *)
Fixpoint expand_data {A} (from to : list nat) (d : list A) : list A :=
  match from, to with
  | f :: from', n :: to' =>
      if (f =? n)%nat
      then concat (map (expand_data from' to') (chunks (numel from') f d))
      else concat (repeat (expand_data from' to' d) n)
  | _, _ => d
  end.

Definition expand {A} (t : ndarray A) (to : list nat) : list A :=
  expand_data (repeat 1%nat (length to - length (shape t)) ++ shape t) to (data t).

Definition broadcast_op (f : Qc -> Qc -> Qc) (a b : tensor) : result tensor :=
  s <- broadcast_shapes (shape a) (shape b) ;;
  Ok (mkArray s (map (fun p => f (fst p) (snd p)) (combine (expand a s) (expand b s)))).

Definition torch_add : tensor -> tensor -> result tensor := broadcast_op Qcplus.
Definition torch_sub : tensor -> tensor -> result tensor := broadcast_op Qcminus.

(** [torch.flatten(t, 1)]. *)
Definition torch_flatten1 {A} (t : ndarray A) : result (ndarray A) :=
  match shape t with
  | [] | [_] => Raise IndexError
  | b :: rest => Ok (mkArray [b; numel rest] (data t))
  end.

(* ------------------------------------------------------------------ *)
(** ** torch.nn layers *)

(** [nn.Linear(in_features, out_features)]: [weight] has shape
    [(out_features, in_features)], [bias] has shape [(out_features)]. *)
Record Linear : Type := mkLinear {
  in_features : nat;
  out_features : nat;
  weight : tensor;
  bias : tensor
}.

(** [nn.Embedding(num_embeddings, embedding_dim)]: [emb_weight] has shape
    [(num_embeddings, embedding_dim)]. *)
Record Embedding : Type := mkEmbedding {
  num_embeddings : nat;
  embedding_dim : nat;
  emb_weight : tensor
}.

Inductive Module : Type :=
| ModLinear (l : Linear)
| ModReLU.

(** [nn.Sequential]: the layers applied in order. *)
Definition Sequential : Type := list Module.

Definition dot (u v : list Qc) : Qc :=
  total (map (fun p => fst p * snd p) (combine u v)).

(** [y = x W^T + b] on the last dimension of [x]. *)
Definition Linear_forward (l : Linear) (x : tensor) : result tensor :=
  match rev (shape x) with
  | [] => Raise RuntimeError
  | last :: lead =>
      if (last =? in_features l)%nat then
        let rows := chunks (in_features l) (numel (rev lead)) (data x) in
        let w := chunks (in_features l) (out_features l) (data (weight l)) in
        Ok (mkArray
              (rev lead ++ [out_features l])
              (flat_map
                 (fun row => map (fun wb => dot row (fst wb) + snd wb)
                               (combine w (data (bias l))))
                 rows))
      else Raise RuntimeError
  end.

Definition relu (v : Qc) : Qc :=
  match v ?= 0 with
  | Gt => v
  | _ => 0
  end.

Definition Module_forward (m : Module) (x : tensor) : result tensor :=
  match m with
  | ModLinear l => Linear_forward l x
  | ModReLU => Ok (tmap relu x)
  end.

Fixpoint Sequential_forward (ms : Sequential) (x : tensor) : result tensor :=
  match ms with
  | [] => Ok x
  | m :: ms' => y <- Module_forward m x ;; Sequential_forward ms' y
  end.

(** Row [i] of an embedding table. *)
Definition embedding_row (e : Embedding) (i : Z) : result (list Qc) :=
  if ((0 <=? i) && (i <? Z.of_nat (num_embeddings e)))%Z
  then Ok (firstn (embedding_dim e)
             (skipn (Z.to_nat i * embedding_dim e) (data (emb_weight e))))
  else Raise IndexError.

(** Lookup of every index of [idx]: the result has the shape of [idx]
    followed by the embedding dimension. *)
Definition Embedding_forward (e : Embedding) (idx : long_tensor) : result tensor :=
  rows <- mapM (embedding_row e) (data idx) ;;
  Ok (mkArray (shape idx ++ [embedding_dim e]) (concat rows)).

(* ------------------------------------------------------------------ *)
(** ** DeepFMFuse *)

Record DeepFMFuse : Type := mkDeepFMFuse {
  fuse_dnn_units_size : list Z;
  _dnn : Sequential;
  sigmoid : Qc -> Qc
}.

(** Lines 199-206: the stack of sum-of-embeddings vectors, or one party's
    vector when the other of the first two parties sent the sentinel. *)
Definition fuse_sum_embs (x : list tensor) : result tensor :=
  x2 <- getitem x 2 ;;
  if torch_equal x2 (torch_tensor 0) then
    x6 <- getitem x 6 ;;
    torch_unsqueeze x6 1
  else
    x6 <- getitem x 6 ;;
    if torch_equal x6 (torch_tensor 0) then
      x2 <- getitem x 2 ;;
      torch_unsqueeze x2 1
    else torch_stack (slice_from_step x 2 4) 1.

(** Lines 208-214. *)
Definition fuse_square_and_sum_emb (x : list tensor) : result tensor :=
  x3 <- getitem x 3 ;;
  if torch_equal x3 (torch_tensor 0) then getitem x 7
  else
    x7 <- getitem x 7 ;;
    if torch_equal x7 (torch_tensor 0) then getitem x 3
    else
      square_and_sum_embs <- torch_stack (slice_from_step x 3 4) 1 ;;
      torch_sum square_and_sum_embs 1 false.

(** Lines 199-216, first summand of [sub]: the reconstructed second-order
    term [0.5 * (sum_and_square_emb - square_and_sum_emb)]. *)
Definition fuse_second_order (x : list tensor) : result tensor :=
  sum_embs <- fuse_sum_embs x ;;
  s <- torch_sum sum_embs 1 false ;;
  let sum_and_square_emb := torch_pow s 2 in
  square_and_sum_emb <- fuse_square_and_sum_emb x ;;
  diff <- torch_sub sum_and_square_emb square_and_sum_emb ;;
  Ok (scalar_mul half diff).

(** Lines 196-197. *)
Definition fuse_fm_1st_part (x : list tensor) : result tensor :=
  fm_1st_part <- torch_stack (slice_from_step x 1 4) 1 ;;
  torch_sum fm_1st_part 1 false.

(** The value of [outputs] at line 218, before the sigmoid. *)
Definition DeepFMFuse_outputs (self : DeepFMFuse) (x : list tensor) : result tensor :=
  dnn_outputs <- torch_cat (slice_from_step x 0 4) 1 ;;
  fm_1st_part <- fuse_fm_1st_part x ;;
  second <- fuse_second_order x ;;
  sub <- torch_add second fm_1st_part ;;
  fm_2nd_part <- torch_sum sub 1 true ;;
  d <- Sequential_forward (_dnn self) dnn_outputs ;;
  torch_add fm_2nd_part d.

Definition DeepFMFuse_forward (self : DeepFMFuse) (x : list tensor) : result tensor :=
  outputs <- DeepFMFuse_outputs self x ;;
  Ok (tmap (sigmoid self) outputs).

(* ------------------------------------------------------------------ *)
(** ** DeepFMBase *)

(** An element of the input list: an index tensor (categorical slot) or a
    float tensor (continuous slot). *)
Inductive torch_value : Type :=
| LongT (t : long_tensor)
| FloatT (t : tensor).

(** The argument of [forward]: a list of tensors, or one tensor. *)
Inductive forward_arg : Type :=
| ArgTensor (v : torch_value)
| ArgList (l : list torch_value).

(** The argument [input_dims]: a list of ints, or one int. *)
Inductive dims_arg : Type :=
| DimsInt (n : Z)
| DimsList (l : list Z).

(** Line 45: [input_dims = [input_dims] if not isinstance(input_dims, List)
    else input_dims]. *)
Definition dims_list (input_dims : dims_arg) : list Z :=
  match input_dims with
  | DimsList l => l
  | DimsInt n => [n]
  end.

(** Lines 48-50: [[] if continuous_feas_index is None else
    continuous_feas_index]. *)
Definition index_list (continuous_feas_index : option (list Z)) : list Z :=
  match continuous_feas_index with
  | None => []
  | Some l => l
  end.

Record DeepFMBase : Type := mkDeepFMBase {
  _input_size : nat;
  _dnn_units_size : list Z;
  _continuous_feas_index : list Z;
  _has_cat_feas : bool;
  _has_cont_feas : bool;
  _cat_feas_nums : Z;
  _cont_feas_nums : nat;
  (* dicts keyed by slot index, in insertion order; absent unless
     [_has_cat_feas] *)
  _fm_1st_order_sparse_emb_layers : option (list (nat * Embedding));
  _fm_2nd_order_sparse_emb_layers : option (list (nat * Embedding));
  (* absent unless [_has_cont_feas] *)
  _fm_1st_order_dense_emb_layers : option Linear;
  _dense_layer : option Sequential;
  _dnn_layer : Sequential
}.

Definition getattr {A} (o : option A) : result A :=
  match o with
  | Some a => Ok a
  | None => Raise AttributeError
  end.

(** An embedding layer called on an element of [x]: the indices must be
    an integer tensor. *)
Definition Embedding_call (e : Embedding) (v : torch_value) : result tensor :=
  match v with
  | LongT idx => Embedding_forward e idx
  | FloatT _ => Raise RuntimeError
  end.

Definition to_float (v : torch_value) : tensor :=
  match v with
  | LongT t => mkArray (shape t) (map Z2Qc (data t))
  | FloatT t => t
  end.

(** The tensors of [vs] when every one of them is an integer tensor. *)
Fixpoint long_tensors (vs : list torch_value) : option (list long_tensor) :=
  match vs with
  | [] => Some []
  | LongT t :: vs' => option_map (cons t) (long_tensors vs')
  | FloatT _ :: _ => None
  end.

(** [torch.cat] on elements of [x]: the result is a float tensor as soon
    as one operand is. *)
Definition torch_cat_values (vs : list torch_value) (d : nat) : result torch_value :=
  match long_tensors vs with
  | Some ts => t <- torch_cat ts d ;; Ok (LongT t)
  | None => t <- torch_cat (map to_float vs) d ;; Ok (FloatT t)
  end.

(** A float layer called on the concatenated continuous features: an
    integer tensor is rejected. *)
Definition Linear_call (l : Linear) (v : torch_value) : result tensor :=
  match v with
  | FloatT t => Linear_forward l t
  | LongT _ => Raise RuntimeError
  end.

Definition Sequential_call (ms : Sequential) (v : torch_value) : result tensor :=
  match v with
  | FloatT t => Sequential_forward ms t
  | LongT _ => Raise RuntimeError
  end.

(** Lines 105-110: the embeddings of every categorical slot, looked up in
    the order of the dict. *)
Definition lookup_all (layers : list (nat * Embedding)) (x : list torch_value)
  : result (list tensor) :=
  mapM (fun kv => xi <- getitem x (fst kv) ;; Embedding_call (snd kv) xi) layers.

(** Lines 131-137: from the per-slot embeddings to [sum_emb],
    [square_and_sum_emb] and the flattened input of the DNN. *)
Definition second_order_stats (fm_2nd_order_res : list tensor)
  : result (tensor * tensor * tensor) :=
  fm_2nd_stack_1d <- torch_stack fm_2nd_order_res 1 ;;
  sum_emb <- torch_sum fm_2nd_stack_1d 1 false ;;
  square_and_sum_emb <- torch_sum (torch_pow fm_2nd_stack_1d 2) 1 false ;;
  dnn_input <- torch_flatten1 fm_2nd_stack_1d ;;
  Ok (sum_emb, square_and_sum_emb, dnn_input).

(** [self._dnn_layer(dnn_input)], where [dnn_input] may still be [None]. *)
Definition dnn_layer_call (ms : Sequential) (dnn_input : option tensor)
  : result (option tensor) :=
  match dnn_input with
  | Some t => r <- Sequential_forward ms t ;; Ok (Some r)
  | None =>
      match ms with
      | [] => Ok None
      | _ => Raise TypeError
      end
  end.

(** Line 100: [x = [x] if not isinstance(x, List) else x]. *)
Definition arg_list (x : forward_arg) : list torch_value :=
  match x with
  | ArgList l => l
  | ArgTensor v => [v]
  end.

(** Lines 103-111: the first-order term of the categorical slots. *)
Definition fm_1st_sparse (self : DeepFMBase) (x : list torch_value)
  : result (option tensor) :=
  if _has_cat_feas self then
    layers <- getattr (_fm_1st_order_sparse_emb_layers self) ;;
    fm_1st_sparse_res <- lookup_all layers x ;;
    fm_1st_sparse_res <- torch_cat fm_1st_sparse_res 1 ;;
    fm_1st_sparse_res <- torch_sum fm_1st_sparse_res 1 true ;;
    Ok (Some fm_1st_sparse_res)
  else Ok None.

(** Lines 112-119: the first-order term of the continuous slots, added to
    the one above; [dense_cat] is kept for line 139. *)
Definition fm_1st_dense (self : DeepFMBase) (x : list torch_value)
    (fm_1st_part : option tensor)
  : result (option torch_value * option tensor) :=
  if _has_cont_feas self then
    dense_feas <- mapM (getitem_int x) (_continuous_feas_index self) ;;
    dense_cat <- torch_cat_values dense_feas 1 ;;
    layer <- getattr (_fm_1st_order_dense_emb_layers self) ;;
    fm_1st_dense_res <- Linear_call layer dense_cat ;;
    match fm_1st_part with
    | Some p => r <- torch_add p fm_1st_dense_res ;; Ok (Some dense_cat, Some r)
    | None => Ok (Some dense_cat, Some fm_1st_dense_res)
    end
  else Ok (None, fm_1st_part).

(** Lines 123-137: [sum_emb], [square_and_sum_emb] and [dnn_input] of the
    categorical slots. *)
Definition fm_2nd_sparse (self : DeepFMBase) (x : list torch_value)
  : result (option tensor * option tensor * option tensor) :=
  if _has_cat_feas self then
    layers <- getattr (_fm_2nd_order_sparse_emb_layers self) ;;
    fm_2nd_order_res <- lookup_all layers x ;;
    r <- second_order_stats fm_2nd_order_res ;;
    Ok (Some (fst (fst r)), Some (snd (fst r)), Some (snd r))
  else Ok (None, None, None).

(** Lines 138-143: the continuous branch added to the input of the DNN. *)
Definition dnn_input_dense (self : DeepFMBase) (dense_cat : option torch_value)
    (dnn_input : option tensor) : result (option tensor) :=
  if _has_cont_feas self then
    layer <- getattr (_dense_layer self) ;;
    dense_cat <- getattr dense_cat ;;
    dense_out <- Sequential_call layer dense_cat ;;
    match dnn_input with
    | Some i => r <- torch_add i dense_out ;; Ok (Some r)
    | None => Ok (Some dense_out)
    end
  else Ok dnn_input.

Definition DeepFMBase_forward (self : DeepFMBase) (x : forward_arg)
  : result (list (option tensor)) :=
  let x := arg_list x in
  _ <- py_assert (length x =? _input_size self)%nat ;;
  (* do fm 1st *)
  fm_1st_part <- fm_1st_sparse self x ;;
  dense <- fm_1st_dense self x fm_1st_part ;;
  let dense_cat := fst dense in
  let fm_1st_part := snd dense in
  (* do fm 2nd *)
  stats <- fm_2nd_sparse self x ;;
  let sum_emb := fst (fst stats) in
  let square_and_sum_emb := snd (fst stats) in
  let dnn_input := snd stats in
  dnn_input <- dnn_input_dense self dense_cat dnn_input ;;
  dnn_output <- dnn_layer_call (_dnn_layer self) dnn_input ;;
  if _has_cat_feas self then
    Ok [dnn_output; fm_1st_part; sum_emb; square_and_sum_emb]
  else
    Ok [dnn_output; fm_1st_part;
        Some (torch_tensor_float32 0); Some (torch_tensor_float32 0)].

Definition DeepFMBase_output_num (self : DeepFMBase) : Z := 4.

(* ------------------------------------------------------------------ *)
(** ** Construction

    Layers are created with random weights.  The random source of the host
    framework is a state [rng] threaded through the constructors;
    [sample g n] draws [n] values.  The distributions are not modelled. *)

(** [layer.weight.data.copy_(w)]. *)
Definition copy_weight (e : Embedding) (w : tensor) : Embedding :=
  mkEmbedding (num_embeddings e) (embedding_dim e) w.

Definition enumerate {A} (l : list A) : list (nat * A) :=
  combine (seq 0 (length l)) l.

(** [index not in l] for a Python list of ints. *)
Definition not_in (index : nat) (l : list Z) : bool :=
  negb (existsb (Z.eqb (Z.of_nat index)) l).

(** Lines 80-82. *)
Fixpoint continuous_dim_of (input_dims : list Z) (cont : list Z) (acc : Z)
  : result Z :=
  match cont with
  | [] => Ok acc
  | index :: cont' =>
      d <- getitem_int input_dims index ;;
      continuous_dim_of input_dims cont' (acc + d)%Z
  end.

Section Construction.

Variable rng : Type.
Variable sample : rng -> nat -> list Qc * rng.

(** [nn.Sigmoid()] on one element; its values are not rational in
    general, so the function is left open. *)
Variable nn_Sigmoid : Qc -> Qc.

Definition Gen (A : Type) : Type := rng -> result (A * rng).

Definition gret {A} (a : A) : Gen A := fun g => Ok (a, g).

Definition gbind {A B} (c : Gen A) (k : A -> Gen B) : Gen B :=
  fun g =>
    match c g with
    | Ok (a, g') => k a g'
    | Raise e => Raise e
    end.

Definition gfail {A} (e : PyError) : Gen A := fun _ => Raise e.

Definition glift {A} (r : result A) : Gen A :=
  fun g => match r with Ok a => Ok (a, g) | Raise e => Raise e end.

Notation "x <~ c ;; k" := (gbind c (fun x => k))
  (at level 61, c at next level, right associativity).

(** A fresh tensor of the given sizes; a negative size is refused. *)
Definition fresh_tensor (sizes : list Z) : Gen tensor :=
  if existsb (fun n => n <? 0)%Z sizes then gfail RuntimeError
  else
    let s := map Z.to_nat sizes in
    fun g => let (d, g') := sample g (numel s) in Ok (mkArray s d, g').

(** [nn.Linear(i, o)]. *)
Definition nn_Linear (i o : Z) : Gen Linear :=
  w <~ fresh_tensor [o; i] ;;
  b <~ fresh_tensor [o] ;;
  gret (mkLinear (Z.to_nat i) (Z.to_nat o) w b).

(** [nn.Embedding(n, d)]. *)
Definition nn_Embedding (n d : Z) : Gen Embedding :=
  w <~ fresh_tensor [n; d] ;;
  gret (mkEmbedding (Z.to_nat n) (Z.to_nat d) w).

(** Lines 65-78: the two dicts of embedding layers. *)
Fixpoint build_sparse_layers (items : list (nat * Z)) (cont : list Z) (D : Z)
  : Gen (list (nat * Embedding) * list (nat * Embedding)) :=
  match items with
  | [] => gret ([], [])
  | (index, input_dim) :: items' =>
      if not_in index cont then
        e1 <~ nn_Embedding input_dim 1 ;;
        e2 <~ nn_Embedding input_dim D ;;
        w1 <~ fresh_tensor [input_dim; 1%Z] ;;
        w2 <~ fresh_tensor [input_dim; D] ;;
        rest <~ build_sparse_layers items' cont D ;;
        gret ((index, copy_weight e1 w1) :: fst rest,
              (index, copy_weight e2 w2) :: snd rest)
      else build_sparse_layers items' cont D
  end.

(** Lines 92-96 (and 185-190): [Linear], [ReLU] pairs. *)
Fixpoint build_dnn (dnn_input_shape : Z) (units_size : list Z)
  : Gen (list Module * Z) :=
  match units_size with
  | [] => gret ([], dnn_input_shape)
  | units :: rest =>
      l <~ nn_Linear dnn_input_shape units ;;
      r <~ build_dnn units rest ;;
      gret (ModLinear l :: ModReLU :: fst r, snd r)
  end.

Definition DeepFMBase_init (input_dims : dims_arg) (dnn_units_size : list Z)
    (continuous_feas_index : option (list Z)) (fm_embedding_dim : Z)
  : Gen DeepFMBase :=
  let input_dims := dims_list input_dims in
  let input_size := length input_dims in
  let cont := index_list continuous_feas_index in
  let has_cat_feas := negb (length cont =? input_size)%nat in
  let has_cont_feas := negb (length cont =? 0)%nat in
  let cat_feas_nums := (Z.of_nat input_size - Z.of_nat (length cont))%Z in
  let cont_feas_nums := length cont in
  let second_part_dim :=
    if has_cat_feas then (cat_feas_nums * fm_embedding_dim)%Z
    else fm_embedding_dim in
  sparse <~ (if has_cat_feas then
               r <~ build_sparse_layers (enumerate input_dims) cont fm_embedding_dim ;;
               gret (Some (fst r), Some (snd r))
             else gret (None, None)) ;;
  dense <~ (if has_cont_feas then
              continuous_dim <~ glift (continuous_dim_of input_dims cont 0%Z) ;;
              l1 <~ nn_Linear continuous_dim 1 ;;
              l2 <~ nn_Linear continuous_dim second_part_dim ;;
              gret (Some l1, Some [ModLinear l2; ModReLU])
            else gret (None, None)) ;;
  dnn_layer <~ build_dnn second_part_dim dnn_units_size ;;
  gret (mkDeepFMBase input_size dnn_units_size cont has_cat_feas has_cont_feas
          cat_feas_nums cont_feas_nums (fst sparse) (snd sparse)
          (fst dense) (snd dense) (removelast (fst dnn_layer))).

Definition DeepFMFuse_init (input_dims : list Z) (dnn_units_size : list Z)
  : Gen DeepFMFuse :=
  let start := fold_right Z.add 0%Z input_dims in
  dnn_layer <~ build_dnn start dnn_units_size ;;
  last <~ nn_Linear (snd dnn_layer) 1 ;;
  gret (mkDeepFMFuse dnn_units_size (fst dnn_layer ++ [ModLinear last]) nn_Sigmoid).

End Construction.

(* ------------------------------------------------------------------ *)
(** ** Vocabulary of the statements *)

(** A real (batch, D)-shaped tensor: [B] rows of [D] entries. *)
Definition matrix (B D : nat) (t : tensor) : Prop :=
  shape t = [B; D] /\ length (data t) = (B * D)%nat.

(** The elementwise sum of tensors of shape [s]: the party-wise sum of a
    statistic. *)
Definition tensor_sum (s : list nat) (ts : list tensor) : tensor :=
  mkArray s (vsum (numel s) (map data ts)).

(** Elementwise combination of two tensors of the same shape. *)
Definition zip_with (f : Qc -> Qc -> Qc) (a b : tensor) : tensor :=
  mkArray (shape a) (map (fun p => f (fst p) (snd p)) (combine (data a) (data b))).

(** The rows of a (batch, D)-shaped tensor. *)
Definition rows (B D : nat) (t : tensor) : list (list Qc) :=
  chunks D B (data t).

(** The four tensors a party sends to the fusion module. *)
Record party_tuple : Type := mkParty {
  dnn_out : tensor;
  first_order : tensor;
  sum_emb : tensor;
  square_and_sum_emb : tensor
}.

(** The flat input list of [DeepFMFuse.forward]. *)
Definition flat (ps : list party_tuple) : list tensor :=
  flat_map (fun p => [dnn_out p; first_order p; sum_emb p; square_and_sum_emb p]) ps.

(** A party whose statistics are real vectors: per example, a first-order
    scalar and two vectors of width [D]. *)
Definition real_party (B D : nat) (p : party_tuple) : Prop :=
  matrix B 1 (first_order p)
  /\ matrix B D (sum_emb p)
  /\ matrix B D (square_and_sum_emb p).

(** [0.5 * (S^2 - Q)], entry by entry. *)
Definition second_order_of (s q : tensor) : tensor :=
  scalar_mul half (zip_with Qcminus (torch_pow s 2) q).

(** The data of [second_order_of s q] from the data of [s] and [q]. *)
Definition second_order_data (s q : list Qc) : list Qc :=
  map (fun v => half * v)
    (map (fun p => fst p - snd p) (combine (map (fun v => v ^ 2) s) q)).

(** The sum over the embedding dimension, one scalar per example. *)
Definition row_totals (B D : nat) (t : tensor) : tensor :=
  mkArray [B; 1%nat] (map total (rows B D t)).

(** The pre-sigmoid output in closed form, for parties with real
    statistics: the fusion network on the concatenated DNN branches, plus
    the second-order term summed over the embedding dimension, plus [k]
    times the party-wise sum of the first-order terms. *)
Definition outputs_formula (k : Qc) (self : DeepFMFuse) (B D : nat)
    (ps : list party_tuple) : result tensor :=
  let s := tensor_sum [B; D] (map sum_emb ps) in
  let q := tensor_sum [B; D] (map square_and_sum_emb ps) in
  let f := tensor_sum [B; 1%nat] (map first_order ps) in
  dnn_outputs <- torch_cat (map dnn_out ps) 1 ;;
  d <- Sequential_forward (_dnn self) dnn_outputs ;;
  torch_add (zip_with Qcplus (row_totals B D (second_order_of s q)) (scalar_mul k f)) d.

(** The interaction of every pair of distinct embedding vectors of one
    example: the sum of [<e_i, e_j>] over [i < j]. *)
Fixpoint pairwise (es : list (list Qc)) : Qc :=
  match es with
  | [] => 0
  | e :: es' => total (map (dot e) es') + pairwise es'
  end.

(** Row [b] of every tensor of a list. *)
Definition example_rows (B D : nat) (es : list tensor) (b : nat) : list (list Qc) :=
  map (fun e => nth b (rows B D e) []) es.

(** The pairwise interaction of every example of the batch. *)
Definition pairwise_interactions (B D : nat) (es : list tensor) : tensor :=
  mkArray [B; 1%nat] (map (fun b => pairwise (example_rows B D es b)) (seq 0 B)).

(** The size of dimension 1. *)
Definition width {A} (t : ndarray A) : nat := nth 1 (shape t) 0%nat.

(** The width a stack of layers produces from an input of width [d], when
    every [nn.Linear] of the stack receives the width it expects. *)
Fixpoint dnn_chain (d : nat) (ms : Sequential) : option nat :=
  match ms with
  | [] => Some d
  | ModLinear l :: ms' =>
      if (d =? in_features l)%nat then dnn_chain (out_features l) ms' else None
  | ModReLU :: ms' => dnn_chain d ms'
  end.

(** A configuration the constructor is meant for: at least one slot, every
    cardinality or width positive, the continuous indices distinct slot
    positions. *)
Definition valid_config (input_dims cont : list Z) : Prop :=
  (0 < length input_dims)%nat
  /\ Forall (fun d => 0 < d)%Z input_dims
  /\ NoDup cont
  /\ Forall (fun i => 0 <= i < Z.of_nat (length input_dims))%Z cont.

(** What the constructor makes of an item of [enumerate(input_dims)]: an
    embedding layer of that cardinality and of dimension [dim], stored
    under the index of the slot. *)
Definition layer_of (dim : Z) (it : nat * Z) (kv : nat * Embedding) : Prop :=
  fst kv = fst it
  /\ num_embeddings (snd kv) = Z.to_nat (snd it)
  /\ embedding_dim (snd kv) = Z.to_nat dim
  /\ (0 <= dim)%Z.

(** Lines 57-61. *)
Definition second_part_dim_of (input_dims cont : list Z) (D : Z) : Z :=
  if negb (length cont =? length input_dims)%nat
  then ((Z.of_nat (length input_dims) - Z.of_nat (length cont)) * D)%Z
  else D.

(** The categorical slots, as [enumerate(input_dims)] lists them. *)
Definition categorical_items (input_dims cont : list Z) : list (nat * Z) :=
  filter (fun it => not_in (fst it) cont) (enumerate input_dims).

(** What a successful constructor call leaves in the module. *)
Definition built_for (input_dims cont : list Z) (D : Z) (self : DeepFMBase) : Prop :=
  _input_size self = length input_dims
  /\ _continuous_feas_index self = cont
  /\ _has_cat_feas self = negb (length cont =? length input_dims)%nat
  /\ _has_cont_feas self = negb (length cont =? 0)%nat
  /\ (_has_cat_feas self = true ->
      exists l1 l2,
        _fm_1st_order_sparse_emb_layers self = Some l1
        /\ _fm_2nd_order_sparse_emb_layers self = Some l2
        /\ Forall2 (layer_of 1) (categorical_items input_dims cont) l1
        /\ Forall2 (layer_of D) (categorical_items input_dims cont) l2)
  /\ (_has_cont_feas self = true ->
      exists c la lb,
        continuous_dim_of input_dims cont 0 = Ok c
        /\ _fm_1st_order_dense_emb_layers self = Some la
        /\ in_features la = Z.to_nat c /\ out_features la = 1%nat
        /\ _dense_layer self = Some [ModLinear lb; ModReLU]
        /\ in_features lb = Z.to_nat c
        /\ out_features lb = Z.to_nat (second_part_dim_of input_dims cont D))
  /\ (exists d', dnn_chain (Z.to_nat (second_part_dim_of input_dims cont D))
                   (_dnn_layer self) = Some d').

Definition is_continuous (cont : list Z) (i : nat) : bool :=
  existsb (Z.eqb (Z.of_nat i)) cont.

(** The input of slot [i] for a batch of [B] examples: [B] values of width
    [d] for a continuous slot, [B] indices below the cardinality [d] for a
    categorical one. *)
Definition valid_slot (cont : list Z) (B : nat) (i : nat) (d : Z)
    (v : torch_value) : Prop :=
  if is_continuous cont i
  then exists t, v = FloatT t /\ shape t = [B; Z.to_nat d]
  else exists t, v = LongT t /\ shape t = [B]
                 /\ Forall (fun k => 0 <= k < d)%Z (data t).

Definition valid_input (input_dims cont : list Z) (B : nat)
    (x : list torch_value) : Prop :=
  Forall2 (fun it v => valid_slot cont B (fst it) (snd it) v)
    (enumerate input_dims) x.

(* ------------------------------------------------------------------ *)
(** ** Concrete modules and inputs used in the examples *)

(** Evaluation of a result against an expected tensor. *)
Definition yields (r : result tensor) (t : tensor) : bool :=
  match r with
  | Ok t' => tensor_eqb t' t
  | Raise _ => false
  end.


(** The module a constructor call returned, [d] if it raised. *)
Definition built {A G} (r : result (A * G)) (d : A) : A :=
  match r with
  | Ok (a, _) => a
  | Raise _ => d
  end.

Module Examples.

(** A float tensor with integer entries. *)
Definition T (s : list nat) (d : list Z) : tensor := mkArray s (map Z2Qc d).

(** A random source that only ever draws zeros. *)
Definition zero_sample (g : unit) (n : nat) : list Qc * unit := (repeat 0 n, g).

(** A rational squashing function standing where [nn.Sigmoid] stands;
    no statement below depends on its values. *)
Definition squash (v : Qc) : Qc :=
  match v ?= 0 with
  | Lt => half / (1 - v)
  | _ => 1 - half / (1 + v)
  end.

(** A random source that draws 0, 1, 2, ... in turn. *)
Definition counter_sample (g : nat) (n : nat) : list Qc * nat :=
  (map (fun k => Z2Qc (Z.of_nat k)) (seq g n), (g + n)%nat).

Definition no_module : DeepFMBase :=
  mkDeepFMBase 0 [] [] false false 0 0 None None None None [].

(** Party 1 of the end-to-end scenario: three categorical slots of
    cardinality 5, embedding dimension 4, one DNN layer of size 8. *)
Definition cat_party : DeepFMBase :=
  built (DeepFMBase_init nat counter_sample (DimsList [5; 5; 5]%Z) [8%Z] None 4 0%nat)
        no_module.

(** Party 2: two continuous slots of width 1, one DNN layer of size 8. *)
Definition cont_party : DeepFMBase :=
  built (DeepFMBase_init nat counter_sample (DimsList [1; 1]%Z) [8%Z]
           (Some [0; 1]%Z) 4 0%nat)
        no_module.

(** A party with one categorical and one continuous slot. *)
Definition mixed_party : DeepFMBase :=
  built (DeepFMBase_init nat counter_sample (DimsList [5; 1]%Z) [8%Z]
           (Some [1]%Z) 4 0%nat)
        no_module.

(** A batch of two examples for each of them. *)
Definition cat_input : forward_arg :=
  ArgList [LongT (mkArray [2%nat] [0; 4]%Z); LongT (mkArray [2%nat] [1; 1]%Z);
           LongT (mkArray [2%nat] [3; 2]%Z)].

Definition cont_input : forward_arg :=
  ArgList [FloatT (T [2; 1]%nat [1; 2]%Z); FloatT (T [2; 1]%nat [3; 4]%Z)].

Definition mixed_input : forward_arg :=
  ArgList [LongT (mkArray [2%nat] [0; 4]%Z); FloatT (T [2; 1]%nat [3; 4]%Z)].

(** Element [k] of the tuple a forward call returned. *)
Definition element (r : result (list (option tensor))) (k : nat) : tensor :=
  match r with
  | Ok l =>
      match nth k l None with
      | Some t => t
      | None => mkArray [] []
      end
  | Raise _ => mkArray [] []
  end.

Definition cat_tuple : party_tuple :=
  let r := DeepFMBase_forward cat_party cat_input in
  mkParty (element r 0) (element r 1) (element r 2) (element r 3).

Definition cont_tuple : party_tuple :=
  let r := DeepFMBase_forward cont_party cont_input in
  mkParty (element r 0) (element r 1) (element r 2) (element r 3).

(** [nn.Linear(n, 1)] with all weights 1 and bias 0: the sum of a row. *)
Definition row_sum_layer (n : nat) : Linear :=
  mkLinear n 1 (T [1%nat; n] (repeat 1%Z n)) (T [1%nat] [0%Z]).

(** A fusion module whose network is that single layer. *)
Definition fuse (n : nat) : DeepFMFuse :=
  mkDeepFMFuse [] [ModLinear (row_sum_layer n)] squash.

(** Two parties, batch size 1, embedding dimension 2, both with real
    statistics: DNN outputs [1] and [2], first-order sums [10] and [20],
    [sum_emb] [1,2] and [3,4], [square_and_sum_emb] [1,4] and [9,16]. *)
Definition party_a : party_tuple :=
  mkParty (T [1; 1]%nat [1]%Z) (T [1; 1]%nat [10]%Z)
          (T [1; 2]%nat [1; 2]%Z) (T [1; 2]%nat [1; 4]%Z).

Definition party_b : party_tuple :=
  mkParty (T [1; 1]%nat [2]%Z) (T [1; 1]%nat [20]%Z)
          (T [1; 2]%nat [3; 4]%Z) (T [1; 2]%nat [9; 16]%Z).

(** A party without categorical features: its statistics are the
    sentinel. *)
Definition party_c : party_tuple :=
  mkParty (T [1; 1]%nat [3]%Z) (T [1; 1]%nat [30]%Z)
          (torch_tensor_float32 0) (torch_tensor_float32 0).

Definition two_real : list tensor := flat [party_a; party_b].

(** The same two parties followed by a ninth tensor. *)
Definition nine : list tensor := two_real ++ [T [1; 1]%nat [5]%Z].

(** Three parties; the first has no categorical features. *)
Definition three_first_absent : list tensor := flat [party_c; party_a; party_b].

(** Three parties; the last has no categorical features. *)
Definition three_last_absent : list tensor := flat [party_a; party_b; party_c].

End Examples.

(* ------------------------------------------------------------------ *)
(** ** get_config *)

(** A value of a configuration dict: a list of ints, or anything else the
    base class stores. *)
Inductive config_value (V : Type) : Type :=
| ConfigInts (l : list Z)
| ConfigOther (v : V).

Arguments ConfigInts {V} l.
Arguments ConfigOther {V} v.

(** A Python dict with string keys, in insertion order. *)
Definition dict (V : Type) : Type := list (String.string * V).

Fixpoint dict_get {V} (d : dict V) (k : String.string) : option V :=
  match d with
  | [] => None
  | (k', v) :: d' => if String.eqb k k' then Some v else dict_get d' k
  end.

Definition dict_keys {V} (d : dict V) : list String.string := map fst d.

Definition dict_has {V} (d : dict V) (k : String.string) : bool :=
  match dict_get d k with
  | Some _ => true
  | None => false
  end.

(** [{**a, **b}]: the entries of [a] in their order, each with the value
    [b] gives its key if it gives one, then the entries of [b] whose key is
    new. *)
Definition dict_merge {V} (a b : dict V) : dict V :=
  map (fun kv => match dict_get b (fst kv) with
                 | Some v => (fst kv, v)
                 | None => kv
                 end) a
  ++ filter (fun kv => negb (dict_has a (fst kv))) b.

Module ConfigKey.
Import String.

(** The key of line 160. *)
Definition dnn_units_size : string := "dnn_units_size"%string.

End ConfigKey.

(** Lines 158-163; [base_config] is what [BaseModule.get_config] returns. *)
Definition DeepFMBase_get_config {V} (base_config : dict (config_value V))
    (self : DeepFMBase) : dict (config_value V) :=
  let config := [(ConfigKey.dnn_units_size, ConfigInts (_dnn_units_size self))] in
  dict_merge base_config config.

(* ------------------------------------------------------------------ *)
(** ** More vocabulary *)

(** Lines 216-218 in closed form, from a second-order term: the fusion
    network on the concatenated DNN branches, plus the second-order term
    summed over the embedding dimension, plus [k] times the party-wise sum
    of the first-order terms. *)
Definition outputs_from (second : tensor) (k : Qc) (self : DeepFMFuse)
    (B D : nat) (ps : list party_tuple) : result tensor :=
  let f := tensor_sum [B; 1%nat] (map first_order ps) in
  dnn_outputs <- torch_cat (map dnn_out ps) 1 ;;
  d <- Sequential_forward (_dnn self) dnn_outputs ;;
  torch_add (zip_with Qcplus (row_totals B D second) (scalar_mul k f)) d.

(** The shapes of a party's tuple, its DNN branch being [w] wide; the
    statistics are (B, D)-shaped or the sentinel. *)
Definition tuple_shapes (B D w : nat) (real : bool) (p : party_tuple) : Prop :=
  shape (dnn_out p) = [B; w]
  /\ shape (first_order p) = [B; 1%nat]
  /\ (if real
      then shape (sum_emb p) = [B; D] /\ shape (square_and_sum_emb p) = [B; D]
      else sum_emb p = torch_tensor_float32 0
           /\ square_and_sum_emb p = torch_tensor_float32 0).

(** Which parties have categorical features ([true]) and which send the
    sentinel ([false]), in party order: the combinations lines 199-214 get
    through. *)
Definition accepted (reals : list bool) : bool :=
  match reals with
  | true :: true :: rest => forallb (fun r => r) rest
  | true :: false :: _ => true
  | false :: true :: _ => true
  | _ => false
  end.

(* ------------------------------------------------------------------ *)
(** ** More concrete inputs *)

Module TwoParties.

(** The embeddings of one example (D = 2): two slots at the first party,
    one at the second. *)
Definition embeddings_1 : list tensor :=
  [Examples.T [1; 2]%nat [1; 2]%Z; Examples.T [1; 2]%nat [3; 4]%Z].

Definition embeddings_2 : list tensor := [Examples.T [1; 2]%nat [5; 6]%Z].

(** What lines 131-137 return, the sentinel standing for an exception. *)
Definition stats (es : list tensor) : tensor * tensor * tensor :=
  match second_order_stats es with
  | Ok r => r
  | Raise _ => (torch_tensor_float32 0, torch_tensor_float32 0, torch_tensor_float32 0)
  end.

Definition tuple_of (es : list tensor) : party_tuple :=
  mkParty (Examples.T [1; 1]%nat [0]%Z) (Examples.T [1; 1]%nat [0]%Z)
          (fst (fst (stats es))) (snd (fst (stats es))).

(** The fusion module constructed for two DNN branches of width 8, with
    one hidden layer of 4 units. *)
Definition fusion : DeepFMFuse :=
  built (DeepFMFuse_init nat Examples.counter_sample Examples.squash
           [8; 8]%Z [4%Z] 0%nat)
        (Examples.fuse 0).

End TwoParties.

(* ------------------------------------------------------------------ *)
(** ** More vocabulary for the constructor *)

(** A table of [dim] columns made for an item of [enumerate(input_dims)]:
    as many rows as the cardinality, and weights of that shape. *)
Definition table_of (dim : Z) (items : list (nat * Z)) (kv : nat * Embedding) : Prop :=
  exists d, In (fst kv, d) items
            /\ (0 <= d)%Z
            /\ num_embeddings (snd kv) = Z.to_nat d
            /\ embedding_dim (snd kv) = Z.to_nat dim
            /\ shape (emb_weight (snd kv)) = [Z.to_nat d; Z.to_nat dim].

(** The keys of the dicts of lines 63-66: the slot positions that do not
    occur in [continuous_feas_index], in increasing order. *)
Definition table_keys (input_dims cont : list Z) : list nat :=
  filter (fun i => not_in i cont) (seq 0 (length input_dims)).

(* ------------------------------------------------------------------ *)
(** ** Results *)

Lemma raises_Raise {A} (e : PyError) : raises (@Raise A e).
Proof. exists e. reflexivity. Qed.

Lemma raises_bind {A B} (c : result A) (k : A -> result B) :
  raises c -> raises (bind c k).
Proof. intros [e ->]. exists e. reflexivity. Qed.

Lemma raises_bind_all {A B} (c : result A) (k : A -> result B) :
  (forall a, raises (k a)) -> raises (bind c k).
Proof.
  intros H. destruct c as [a | e]; simpl.
  - apply H.
  - apply raises_Raise.
Qed.

Lemma getitem_short {A} (l : list A) (i : nat) :
  (length l <= i)%nat -> getitem l i = Raise IndexError.
Proof.
  intros H. unfold getitem.
  apply nth_error_None in H. rewrite H. reflexivity.
Qed.

Lemma getitem_nth_error {A} (l : list A) (i : nat) (a : A) :
  nth_error l i = Some a -> getitem l i = Ok a.
Proof. intros H. unfold getitem. rewrite H. reflexivity. Qed.

(* ------------------------------------------------------------------ *)
(** ** Equality tests *)

Lemma shape_eqb_eq (a b : list nat) : shape_eqb a b = true <-> a = b.
Proof.
  revert b. induction a as [| x a IH]; intros [| y b]; simpl; split;
    try discriminate; try reflexivity.
  - intros H. apply andb_true_iff in H. destruct H as [Hx Hr].
    apply Nat.eqb_eq in Hx. apply IH in Hr. congruence.
  - intros H. injection H as -> ->.
    rewrite Nat.eqb_refl. simpl. apply IH. reflexivity.
Qed.

Lemma shape_eqb_refl (a : list nat) : shape_eqb a a = true.
Proof. apply shape_eqb_eq. reflexivity. Qed.

Lemma Qc_eqb_eq (a b : Qc) : Qc_eqb a b = true <-> a = b.
Proof.
  unfold Qc_eqb. split.
  - intros H. apply Qc_is_canon. apply Qeq_bool_iff. exact H.
  - intros ->. apply Qeq_bool_iff. reflexivity.
Qed.

Lemma data_eqb_eq (a b : list Qc) : data_eqb a b = true <-> a = b.
Proof.
  revert b. induction a as [| x a IH]; intros [| y b]; simpl; split;
    try discriminate; try reflexivity.
  - intros H. apply andb_true_iff in H. destruct H as [Hx Hr].
    apply Qc_eqb_eq in Hx. apply IH in Hr. congruence.
  - intros H. injection H as -> ->.
    apply andb_true_iff. split; [apply Qc_eqb_eq | apply IH]; reflexivity.
Qed.

Lemma tensor_eqb_eq (a b : tensor) : tensor_eqb a b = true <-> a = b.
Proof.
  unfold tensor_eqb. destruct a as [sa da], b as [sb db]. simpl. split.
  - intros H. apply andb_true_iff in H. destruct H as [Hs Hd].
    apply shape_eqb_eq in Hs. apply data_eqb_eq in Hd. congruence.
  - intros H. injection H as -> ->.
    apply andb_true_iff. split; [apply shape_eqb_eq | apply data_eqb_eq]; reflexivity.
Qed.

(** The test [torch.equal(t, torch.tensor(0))] holds of exactly one
    tensor: the 0-dimensional zero. *)
Lemma torch_equal_zero_iff (t : tensor) :
  torch_equal t (torch_tensor 0) = true <-> t = torch_tensor_float32 0.
Proof.
  unfold torch_equal, torch_tensor, torch_tensor_float32.
  destruct t as [s d]. simpl. split.
  - intros H. apply andb_true_iff in H. destruct H as [Hs Hd].
    apply shape_eqb_eq in Hs. apply data_eqb_eq in Hd. congruence.
  - intros H. injection H as -> ->. reflexivity.
Qed.

Lemma torch_equal_zero_ranked (t : tensor) :
  shape t <> [] -> torch_equal t (torch_tensor 0) = false.
Proof.
  intros H. destruct (torch_equal t (torch_tensor 0)) eqn:E; [| reflexivity].
  apply torch_equal_zero_iff in E. subst t. contradiction H. reflexivity.
Qed.

Lemma torch_equal_sentinel :
  torch_equal (torch_tensor_float32 0) (torch_tensor 0) = true.
Proof. apply torch_equal_zero_iff. reflexivity. Qed.

Lemma yields_eq (r : result tensor) (t : tensor) : yields r t = true -> r = Ok t.
Proof.
  destruct r as [t' | e]; simpl; [| discriminate].
  intros H. apply tensor_eqb_eq in H. congruence.
Qed.

Ltac evaluate := apply yields_eq; vm_compute; reflexivity.

(* ------------------------------------------------------------------ *)
(** ** Blocks of a data list *)

Section Chunks.

Context {A : Type}.

Lemma chunks_app (n k : nat) (r l : list A) :
  length r = n -> chunks n (S k) (r ++ l) = r :: chunks n k l.
Proof.
  intros H. simpl. subst n.
  rewrite firstn_app, Nat.sub_diag, firstn_all. simpl. rewrite app_nil_r.
  rewrite skipn_app, Nat.sub_diag, skipn_all. reflexivity.
Qed.

Lemma chunks_concat (n : nat) (rows : list (list A)) :
  Forall (fun r => length r = n) rows ->
  chunks n (length rows) (concat rows) = rows.
Proof.
  induction 1 as [| r rows Hr _ IH]; [reflexivity |].
  cbn [length concat]. rewrite chunks_app by exact Hr. rewrite IH. reflexivity.
Qed.

Lemma length_concat_uniform (n : nat) (rows : list (list A)) :
  Forall (fun r => length r = n) rows ->
  length (concat rows) = (length rows * n)%nat.
Proof.
  induction 1 as [| r rows Hr _ IH]; [reflexivity |].
  simpl. rewrite length_app, IH, Hr. reflexivity.
Qed.

Lemma concat_chunks (n k : nat) (l : list A) :
  length l = (k * n)%nat -> concat (chunks n k l) = l.
Proof.
  revert l. induction k as [| k IH]; intros l H; simpl in *.
  - destruct l; [reflexivity | discriminate].
  - rewrite IH.
    + apply firstn_skipn.
    + rewrite length_skipn. lia.
Qed.

Lemma chunks_Forall (n k : nat) (l : list A) :
  length l = (k * n)%nat -> Forall (fun r => length r = n) (chunks n k l).
Proof.
  revert l. induction k as [| k IH]; intros l H; simpl in *; constructor.
  - rewrite length_firstn. lia.
  - apply IH. rewrite length_skipn. lia.
Qed.

Lemma interleave_S (o : nat) (parts : list (nat * list A)) :
  interleave (S o) parts
  = flat_map (fun p => firstn (fst p) (snd p)) parts
    ++ interleave o (map (fun p => (fst p, skipn (fst p) (snd p))) parts).
Proof. reflexivity. Qed.

End Chunks.

Lemma interleave_map {A B} (f : A -> B) (o : nat) (parts : list (nat * list A)) :
  map f (interleave o parts)
  = interleave o (map (fun p => (fst p, map f (snd p))) parts).
Proof.
  revert parts. induction o as [| o IH]; intros parts; simpl; [reflexivity |].
  rewrite map_app, IH. f_equal.
  - rewrite !flat_map_concat_map, concat_map, !map_map.
    f_equal. apply map_ext. intros p. simpl. symmetry. apply firstn_map.
  - f_equal. rewrite !map_map. apply map_ext. intros p. simpl.
    rewrite skipn_map. reflexivity.
Qed.

(* ------------------------------------------------------------------ *)
(** ** Sums of vectors *)

Lemma vadd_length (n : nat) (u v : list Qc) :
  length u = n -> length v = n -> length (vadd u v) = n.
Proof.
  intros Hu Hv. unfold vadd. rewrite length_map, length_combine. lia.
Qed.

Lemma vadd_zero (u : list Qc) : vadd u (repeat 0 (length u)) = u.
Proof.
  unfold vadd. induction u as [| a u IH]; simpl; [reflexivity |].
  rewrite IH. f_equal. ring.
Qed.

Lemma combine_app_eq {A B} (u1 u2 : list A) (v1 v2 : list B) :
  length u1 = length v1 ->
  combine (u1 ++ u2) (v1 ++ v2) = combine u1 v1 ++ combine u2 v2.
Proof.
  revert v1. induction u1 as [| a u1 IH]; intros [| b v1] H; simpl in *;
    try discriminate; [reflexivity |].
  rewrite IH by lia. reflexivity.
Qed.

Lemma vadd_app (u1 u2 v1 v2 : list Qc) :
  length u1 = length v1 ->
  vadd (u1 ++ u2) (v1 ++ v2) = vadd u1 v1 ++ vadd u2 v2.
Proof.
  intros H. unfold vadd. rewrite combine_app_eq by exact H. apply map_app.
Qed.

Lemma vsum_length (n : nat) (vs : list (list Qc)) :
  Forall (fun v => length v = n) vs -> length (vsum n vs) = n.
Proof.
  unfold vsum. induction 1 as [| v vs Hv _ IH]; simpl.
  - apply repeat_length.
  - apply vadd_length; assumption.
Qed.

Lemma vsum_single (n : nat) (v : list Qc) : length v = n -> vsum n [v] = v.
Proof. intros <-. unfold vsum. simpl. apply vadd_zero. Qed.

(** The sum of vectors of length [n + m] is the sum of their first [n]
    entries followed by the sum of their last [m]. *)
Lemma vsum_split (n m : nat) (ds : list (list Qc)) :
  Forall (fun d => length d = (n + m)%nat) ds ->
  vsum (n + m) ds = vsum n (map (firstn n) ds) ++ vsum m (map (skipn n) ds).
Proof.
  unfold vsum. induction 1 as [| d ds Hd Hds IH]; simpl.
  - apply repeat_app.
  - rewrite IH. rewrite <- (firstn_skipn n d) at 1.
    apply vadd_app.
    rewrite length_firstn.
    fold (vsum n (map (firstn n) ds)). rewrite vsum_length.
    + rewrite Hd. lia.
    + apply Forall_map. eapply Forall_impl; [| exact Hds].
      intros a Ha. cbv beta in Ha. rewrite length_firstn. lia.
Qed.

(** Summing the [mid] blocks of width 1 of a block: its total. *)
Lemma vsum_unit_chunks (blk : list Qc) :
  vsum 1 (chunks 1 (length blk) blk) = [total blk].
Proof.
  induction blk as [| a blk IH]; [reflexivity |].
  cbn [length]. change (a :: blk) with ([a] ++ blk).
  rewrite chunks_app by reflexivity.
  change (vadd [a] (vsum 1 (chunks 1 (length blk) blk)) = [total ([a] ++ blk)]).
  rewrite IH. reflexivity.
Qed.

(* ------------------------------------------------------------------ *)
(** ** Stacking and summing along dimension 1 *)

Lemma vsum_nil_width (ds : list (list Qc)) :
  Forall (fun d => length d = 0%nat) ds -> vsum 0 ds = [].
Proof.
  intros H. apply length_zero_iff_nil. apply vsum_length. exact H.
Qed.

(** Summing, block by block, the data of a stack of [length ds] tensors of
    [B] rows of width [D] gives the elementwise sum of the tensors. *)
Lemma sum_interleave (D B : nat) :
  forall ds : list (list Qc),
    Forall (fun d => length d = (B * D)%nat) ds ->
    flat_map (fun blk => vsum D (chunks D (length ds) blk))
      (chunks (length ds * D) B (interleave B (map (fun d => (D, d)) ds)))
    = vsum (B * D) ds.
Proof.
  induction B as [| B IH]; intros ds H.
  - simpl. symmetry. apply vsum_nil_width. exact H.
  - rewrite interleave_S.
    assert (Hfirst : Forall (fun r : list Qc => length r = D) (map (firstn D) ds)).
    { apply Forall_map. eapply Forall_impl; [| exact H].
      intros d Hd. cbv beta in Hd. rewrite length_firstn. simpl in Hd. lia. }
    assert (Hskip : Forall (fun d : list Qc => length d = (B * D)%nat) (map (skipn D) ds)).
    { apply Forall_map. eapply Forall_impl; [| exact H].
      intros d Hd. cbv beta in Hd. rewrite length_skipn. simpl in Hd. lia. }
    replace (flat_map (fun p : nat * list Qc => firstn (fst p) (snd p))
               (map (fun d => (D, d)) ds))
      with (concat (map (firstn D) ds))
      by (rewrite flat_map_concat_map, map_map; reflexivity).
    replace (map (fun p : nat * list Qc => (fst p, skipn (fst p) (snd p)))
               (map (fun d => (D, d)) ds))
      with (map (fun d => (D, d)) (map (skipn D) ds))
      by (rewrite !map_map; reflexivity).
    rewrite chunks_app.
    + cbn [flat_map].
      rewrite <- (length_map (firstn D) ds) at 1.
      rewrite chunks_concat by exact Hfirst.
      rewrite <- (length_map (skipn D) ds).
      rewrite IH by exact Hskip.
      change (S B * D)%nat with (D + B * D)%nat.
      symmetry. apply vsum_split.
      eapply Forall_impl; [| exact H]. intros d Hd. exact Hd.
    + rewrite (length_concat_uniform D) by exact Hfirst.
      rewrite length_map. reflexivity.
Qed.

Lemma forallb_shape (ts : list tensor) (s : list nat) :
  Forall (fun t => shape t = s) ts ->
  forallb (fun t => shape_eqb (shape t) s) ts = true.
Proof.
  induction 1 as [| t ts Ht _ IH]; simpl; [reflexivity |].
  rewrite Ht, shape_eqb_refl, IH. reflexivity.
Qed.

Lemma matrix_shapes (B D : nat) (ts : list tensor) :
  Forall (matrix B D) ts -> Forall (fun t => shape t = [B; D]) ts.
Proof. intros H. eapply Forall_impl; [| exact H]. intros t [Hs _]. exact Hs. Qed.

Lemma matrix_lengths (B D : nat) (ts : list tensor) :
  Forall (matrix B D) ts ->
  Forall (fun d => length d = (B * D)%nat) (map data ts).
Proof.
  intros H. apply Forall_map. eapply Forall_impl; [| exact H].
  intros t [_ Hl]. exact Hl.
Qed.

(** [torch.stack] of (B, D)-shaped tensors along dimension 1. *)
Lemma torch_stack_matrices (B D : nat) (t0 : tensor) (rest : list tensor) :
  Forall (fun t => shape t = [B; D]) (t0 :: rest) ->
  torch_stack (t0 :: rest) 1
  = Ok (mkArray [B; S (length rest); D]
          (interleave B (map (fun t => (D, data t)) (t0 :: rest)))).
Proof.
  intros H. unfold torch_stack.
  inversion H as [| ? ? H0 Hrest]; subst.
  rewrite H0. rewrite (forallb_shape rest [B; D] Hrest).
  cbn [negb length Nat.leb firstn skipn numel fold_right app].
  rewrite !Nat.mul_1_r. reflexivity.
Qed.

(** [torch.sum(t, dim=1)] of a (B, N, D)-shaped tensor. *)
Lemma torch_sum_rank3 (B N D : nat) (d : list Qc) :
  torch_sum (mkArray [B; N; D] d) 1 false
  = Ok (mkArray [B; D]
          (flat_map (fun blk => vsum D (chunks D N blk)) (chunks (N * D) B d))).
Proof.
  unfold torch_sum.
  cbn [shape data length Nat.ltb Nat.leb firstn skipn numel fold_right app nth].
  rewrite !Nat.mul_1_r. reflexivity.
Qed.

(** Lines 206-207 and 213-214: stacking (B, D)-shaped statistics and
    summing over the new dimension is their elementwise sum. *)
Lemma sum_of_stack (B D : nat) (t0 : tensor) (rest : list tensor) :
  Forall (matrix B D) (t0 :: rest) ->
  (st <- torch_stack (t0 :: rest) 1 ;; torch_sum st 1 false)
  = Ok (tensor_sum [B; D] (t0 :: rest)).
Proof.
  intros H.
  rewrite (torch_stack_matrices B D) by (apply matrix_shapes; exact H).
  cbn [bind]. rewrite torch_sum_rank3. unfold tensor_sum.
  cbn [numel fold_right]. rewrite Nat.mul_1_r.
  pose proof (sum_interleave D B (map data (t0 :: rest)) (matrix_lengths B D _ H)) as E.
  rewrite map_map, length_map in E. cbn [length] in E.
  apply (f_equal (fun d => Ok (mkArray [B; D] d))). exact E.
Qed.

(* ------------------------------------------------------------------ *)
(** ** Broadcasting *)

Lemma broadcast_rev_same (a : list nat) : broadcast_rev a a = Ok a.
Proof.
  induction a as [| x a IH]; simpl; [reflexivity |].
  rewrite IH. simpl. rewrite Nat.eqb_refl. reflexivity.
Qed.

Lemma broadcast_shapes_same (s : list nat) : broadcast_shapes s s = Ok s.
Proof.
  unfold broadcast_shapes. rewrite broadcast_rev_same. simpl.
  rewrite rev_involutive. reflexivity.
Qed.

Lemma expand_data_same {A} (s : list nat) :
  forall d : list A, length d = numel s -> expand_data s s d = d.
Proof.
  induction s as [| f s IH]; intros d H; simpl; [reflexivity |].
  rewrite Nat.eqb_refl.
  simpl in H.
  assert (Hc : Forall (fun r : list A => length r = numel s) (chunks (numel s) f d))
    by (apply chunks_Forall; exact H).
  replace (map (expand_data s s) (chunks (numel s) f d)) with (chunks (numel s) f d).
  - apply concat_chunks. exact H.
  - induction Hc as [| r rs Hr _ IHr]; [reflexivity |].
    simpl. rewrite IH by exact Hr. rewrite <- IHr. reflexivity.
Qed.

Lemma expand_same {A} (t : ndarray A) :
  wf t -> expand t (shape t) = data t.
Proof.
  intros H. unfold expand. rewrite Nat.sub_diag. simpl.
  apply expand_data_same. exact H.
Qed.

Lemma matrix_wf (B D : nat) (t : tensor) : matrix B D t -> wf t.
Proof.
  intros [Hs Hl]. unfold wf. rewrite Hs, Hl. simpl. lia.
Qed.

(** An arithmetic operation on two (B, D)-shaped tensors works entry by
    entry. *)
Lemma broadcast_op_matrices (f : Qc -> Qc -> Qc) (B D : nat) (a b : tensor) :
  matrix B D a -> matrix B D b ->
  broadcast_op f a b = Ok (zip_with f a b).
Proof.
  intros Ha Hb. unfold broadcast_op, zip_with.
  destruct Ha as [Sa La]. destruct Hb as [Sb Lb].
  rewrite Sb, <- Sa. rewrite broadcast_shapes_same. simpl.
  rewrite expand_same by (apply (matrix_wf B D); split; assumption).
  rewrite Sa, <- Sb.
  rewrite expand_same by (apply (matrix_wf B D); split; assumption).
  reflexivity.
Qed.

Lemma chunks_unit {A} (l : list A) :
  chunks 1 (length l) l = map (fun v => [v]) l.
Proof.
  induction l as [| a l IH]; [reflexivity |].
  simpl. rewrite IH. reflexivity.
Qed.

Lemma expand_data_entry {A} (D : nat) (v : A) :
  expand_data [1%nat] [D] [v] = repeat v D.
Proof.
  simpl. destruct D as [| [| D]]; simpl; try reflexivity.
  f_equal. f_equal. induction D as [| D IH]; simpl; [reflexivity |].
  rewrite IH. reflexivity.
Qed.

(** A (B, 1)-shaped tensor expanded to (B, D): every entry [D] times. *)
Lemma expand_column {A} (B D : nat) (t : ndarray A) :
  shape t = [B; 1%nat] -> length (data t) = B ->
  expand t [B; D] = flat_map (fun v => repeat v D) (data t).
Proof.
  intros Hs Hl. unfold expand. rewrite Hs.
  cbn [length Nat.sub repeat app]. cbn [expand_data].
  rewrite Nat.eqb_refl. cbn [numel fold_right]. rewrite Nat.mul_1_r.
  rewrite <- Hl, chunks_unit, map_map, flat_map_concat_map.
  f_equal. apply map_ext. intros v. apply (expand_data_entry D v).
Qed.

Lemma broadcast_shapes_column (B D : nat) :
  broadcast_shapes [B; D] [B; 1%nat] = Ok [B; D].
Proof.
  unfold broadcast_shapes. simpl. rewrite Nat.eqb_refl. simpl.
  destruct (D =? 1)%nat eqn:E; reflexivity.
Qed.

(** Lines 216: a (B, 1)-shaped tensor added to a (B, D)-shaped one is
    added to each of its [D] columns. *)
Lemma broadcast_op_column (f : Qc -> Qc -> Qc) (B D : nat) (a b : tensor) :
  matrix B D a -> matrix B 1 b ->
  broadcast_op f a b
  = Ok (mkArray [B; D]
          (map (fun p => f (fst p) (snd p))
             (combine (data a) (flat_map (fun v => repeat v D) (data b))))).
Proof.
  intros Ha Hb. unfold broadcast_op.
  pose proof (matrix_wf _ _ _ Ha) as Wa.
  destruct Ha as [Sa La]. destruct Hb as [Sb Lb].
  rewrite Sa, Sb, broadcast_shapes_column. simpl bind.
  replace (expand a [B; D]) with (data a)
    by (rewrite <- Sa; symmetry; apply expand_same; exact Wa).
  rewrite (expand_column B D b Sb) by lia.
  reflexivity.
Qed.

(** [torch.sum(t, dim=1, keepdim=True)] of a (B, D)-shaped tensor: the
    total of each row. *)
Lemma torch_sum_matrix_keepdim (B D : nat) (d : list Qc) :
  length d = (B * D)%nat ->
  torch_sum (mkArray [B; D] d) 1 true
  = Ok (mkArray [B; 1%nat] (map total (chunks D B d))).
Proof.
  intros H. unfold torch_sum.
  cbn [shape data length Nat.ltb Nat.leb firstn skipn numel fold_right app nth].
  rewrite !Nat.mul_1_r. f_equal. f_equal.
  pose proof (chunks_Forall D B d H) as Hc.
  induction Hc as [| r rs Hr _ IH]; [reflexivity |].
  simpl. rewrite IH. rewrite <- Hr. rewrite vsum_unit_chunks. reflexivity.
Qed.

(* ------------------------------------------------------------------ *)
(** ** De-interleaving the flat input *)

Lemma slice_flat_0 (ps : list party_tuple) :
  slice_from_step (flat ps) 0 4 = map dnn_out ps.
Proof.
  unfold slice_from_step. induction ps as [| p ps IH]; [reflexivity |].
  simpl. f_equal. exact IH.
Qed.

Lemma slice_flat_1 (ps : list party_tuple) :
  slice_from_step (flat ps) 1 4 = map first_order ps.
Proof.
  unfold slice_from_step. induction ps as [| p ps IH]; [reflexivity |].
  simpl. f_equal. exact IH.
Qed.

Lemma slice_flat_2 (ps : list party_tuple) :
  slice_from_step (flat ps) 2 4 = map sum_emb ps.
Proof.
  unfold slice_from_step. induction ps as [| p ps IH]; [reflexivity |].
  simpl. f_equal. exact IH.
Qed.

Lemma slice_flat_3 (ps : list party_tuple) :
  slice_from_step (flat ps) 3 4 = map square_and_sum_emb ps.
Proof.
  unfold slice_from_step. induction ps as [| p ps IH]; [reflexivity |].
  simpl. f_equal. exact IH.
Qed.

(* ------------------------------------------------------------------ *)
(** ** The second-order term of parties with real statistics *)

Lemma fuse_sum_embs_both_real (x : list tensor) (s0 s1 : tensor) :
  nth_error x 2 = Some s0 -> nth_error x 6 = Some s1 ->
  shape s0 <> [] -> shape s1 <> [] ->
  fuse_sum_embs x = torch_stack (slice_from_step x 2 4) 1.
Proof.
  intros H2 H6 N0 N1. unfold fuse_sum_embs.
  rewrite (getitem_nth_error _ _ _ H2), (getitem_nth_error _ _ _ H6). simpl.
  rewrite (torch_equal_zero_ranked _ N0), (torch_equal_zero_ranked _ N1).
  reflexivity.
Qed.

Lemma fuse_square_and_sum_emb_both_real (x : list tensor) (q0 q1 : tensor) :
  nth_error x 3 = Some q0 -> nth_error x 7 = Some q1 ->
  shape q0 <> [] -> shape q1 <> [] ->
  fuse_square_and_sum_emb x
  = (st <- torch_stack (slice_from_step x 3 4) 1 ;; torch_sum st 1 false).
Proof.
  intros H3 H7 N0 N1. unfold fuse_square_and_sum_emb.
  rewrite (getitem_nth_error _ _ _ H3), (getitem_nth_error _ _ _ H7). simpl.
  rewrite (torch_equal_zero_ranked _ N0), (torch_equal_zero_ranked _ N1).
  reflexivity.
Qed.


Lemma matrix_nonscalar (B D : nat) (t : tensor) : matrix B D t -> shape t <> [].
Proof. intros [H _]. rewrite H. discriminate. Qed.

Lemma matrix_tensor_sum (B D : nat) (ts : list tensor) :
  Forall (matrix B D) ts -> matrix B D (tensor_sum [B; D] ts).
Proof.
  intros H. split; [reflexivity |]. unfold tensor_sum. cbn [data].
  rewrite vsum_length.
  - simpl. lia.
  - replace (numel [B; D]) with (B * D)%nat by (simpl; lia).
    apply matrix_lengths. exact H.
Qed.

Lemma matrix_torch_pow (B D n : nat) (t : tensor) :
  matrix B D t -> matrix B D (torch_pow t n).
Proof.
  intros [Hs Hl]. split; [exact Hs |]. simpl. rewrite length_map. exact Hl.
Qed.

Lemma matrix_zip_with (f : Qc -> Qc -> Qc) (B D : nat) (a b : tensor) :
  matrix B D a -> matrix B D b -> matrix B D (zip_with f a b).
Proof.
  intros [Sa La] [Sb Lb]. split; [exact Sa |].
  unfold zip_with. cbn [data]. rewrite length_map, length_combine. lia.
Qed.

Lemma matrix_scalar_mul (c : Qc) (B D : nat) (t : tensor) :
  matrix B D t -> matrix B D (scalar_mul c t).
Proof.
  intros [Hs Hl]. split; [exact Hs |]. simpl. rewrite length_map. exact Hl.
Qed.

Lemma real_party_sum_emb (B D : nat) (ps : list party_tuple) :
  Forall (real_party B D) ps -> Forall (matrix B D) (map sum_emb ps).
Proof.
  intros H. apply Forall_map. eapply Forall_impl; [| exact H].
  intros p [_ [Hp _]]. exact Hp.
Qed.

Lemma real_party_square_and_sum_emb (B D : nat) (ps : list party_tuple) :
  Forall (real_party B D) ps -> Forall (matrix B D) (map square_and_sum_emb ps).
Proof.
  intros H. apply Forall_map. eapply Forall_impl; [| exact H].
  intros p [_ [_ Hp]]. exact Hp.
Qed.

Lemma real_party_first_order (B D : nat) (ps : list party_tuple) :
  Forall (real_party B D) ps -> Forall (matrix B 1) (map first_order ps).
Proof.
  intros H. apply Forall_map. eapply Forall_impl; [| exact H].
  intros p [Hp _]. exact Hp.
Qed.

Lemma sum_of_stack_steps (B D : nat) (t0 : tensor) (rest : list tensor) :
  Forall (matrix B D) (t0 :: rest) ->
  exists st, torch_stack (t0 :: rest) 1 = Ok st
             /\ torch_sum st 1 false = Ok (tensor_sum [B; D] (t0 :: rest)).
Proof.
  intros H. pose proof (sum_of_stack B D t0 rest H) as E.
  destruct (torch_stack (t0 :: rest) 1) as [st | e]; [| discriminate E].
  exists st. split; [reflexivity | exact E].
Qed.

(** Lines 199-216 when every party sent real statistics: the second-order
    term is [0.5 * (S^2 - Q)] for the party-wise sums [S] and [Q]. *)
Lemma fuse_second_order_all_real (B D : nat) (p0 p1 : party_tuple)
    (rest : list party_tuple) :
  Forall (real_party B D) (p0 :: p1 :: rest) ->
  fuse_second_order (flat (p0 :: p1 :: rest))
  = Ok (second_order_of
          (tensor_sum [B; D] (map sum_emb (p0 :: p1 :: rest)))
          (tensor_sum [B; D] (map square_and_sum_emb (p0 :: p1 :: rest)))).
Proof.
  intros H.
  pose proof (real_party_sum_emb B D _ H) as Hs.
  pose proof (real_party_square_and_sum_emb B D _ H) as Hq.
  unfold fuse_second_order.
  rewrite (fuse_sum_embs_both_real _ (sum_emb p0) (sum_emb p1));
    try reflexivity.
  2: { inversion Hs; subst. eapply matrix_nonscalar; eassumption. }
  2: { inversion Hs as [| ? ? _ Hs']; subst. inversion Hs'; subst.
       eapply matrix_nonscalar; eassumption. }
  rewrite (fuse_square_and_sum_emb_both_real _ (square_and_sum_emb p0)
             (square_and_sum_emb p1)); try reflexivity.
  2: { inversion Hq; subst. eapply matrix_nonscalar; eassumption. }
  2: { inversion Hq as [| ? ? _ Hq']; subst. inversion Hq'; subst.
       eapply matrix_nonscalar; eassumption. }
  rewrite slice_flat_2, slice_flat_3.
  cbn [map] in Hs, Hq |- *.
  destruct (sum_of_stack_steps B D _ _ Hs) as [st [E1 E2]].
  rewrite E1. cbn [bind]. rewrite E2. cbn [bind].
  rewrite (sum_of_stack B D _ _ Hq). cbn [bind].
  rewrite (broadcast_op_matrices Qcminus B D).
  - reflexivity.
  - apply matrix_torch_pow. apply matrix_tensor_sum. exact Hs.
  - apply matrix_tensor_sum. exact Hq.
Qed.

(* ------------------------------------------------------------------ *)
(** ** Sentinel substitution *)

Lemma tensor_eta {A} (t : ndarray A) : t = mkArray (shape t) (data t).
Proof. destruct t. reflexivity. Qed.

Lemma torch_unsqueeze_matrix {A} (B D : nat) (t : ndarray A) :
  shape t = [B; D] ->
  torch_unsqueeze t 1 = Ok (mkArray [B; 1%nat; D] (data t)).
Proof. intros H. unfold torch_unsqueeze, dim. rewrite H. reflexivity. Qed.

Lemma flat_map_single_chunk (D : nat) (rs : list (list Qc)) :
  Forall (fun r => length r = D) rs ->
  flat_map (fun blk => vsum D (chunks D 1 blk)) rs = concat rs.
Proof.
  induction 1 as [| r rs Hr _ IH]; [reflexivity |].
  cbn [flat_map concat]. rewrite IH. f_equal.
  cbn [chunks]. rewrite <- Hr, firstn_all. apply vsum_single. reflexivity.
Qed.

(** Summing over a dimension of length 1 gives the tensor back. *)
Lemma torch_sum_unsqueezed (B D : nat) (t : tensor) :
  matrix B D t ->
  torch_sum (mkArray [B; 1%nat; D] (data t)) 1 false = Ok t.
Proof.
  intros [Hs Hl]. rewrite torch_sum_rank3. rewrite Nat.mul_1_l.
  rewrite flat_map_single_chunk by (apply chunks_Forall; exact Hl).
  rewrite concat_chunks by exact Hl.
  rewrite <- Hs, <- tensor_eta. reflexivity.
Qed.

(** Lines 199-216 when the second party sent the sentinel: whatever
    follows the first two tuples is not looked at. *)
Lemma fuse_second_order_second_absent (B D : nat) (dA fA sA qA dB fB : tensor)
    (others : list tensor) :
  matrix B D sA -> matrix B D qA ->
  fuse_second_order
    (dA :: fA :: sA :: qA
     :: dB :: fB :: torch_tensor_float32 0 :: torch_tensor_float32 0 :: others)
  = Ok (second_order_of sA qA).
Proof.
  intros Hs Hq. unfold fuse_second_order, fuse_sum_embs, fuse_square_and_sum_emb.
  cbn [getitem nth_error bind].
  rewrite (torch_equal_zero_ranked sA) by (eapply matrix_nonscalar; eassumption).
  rewrite (torch_equal_zero_ranked qA) by (eapply matrix_nonscalar; eassumption).
  rewrite torch_equal_sentinel.
  rewrite (torch_unsqueeze_matrix B D sA) by apply Hs. cbn [bind].
  rewrite (torch_sum_unsqueezed B D sA Hs). cbn [bind].
  rewrite (broadcast_op_matrices Qcminus B D).
  - reflexivity.
  - apply matrix_torch_pow. exact Hs.
  - exact Hq.
Qed.

(** Lines 199-216 when the first party sent the sentinel. *)
Lemma fuse_second_order_first_absent (B D : nat) (dA fA sA qA dB fB : tensor)
    (others : list tensor) :
  matrix B D sA -> matrix B D qA ->
  fuse_second_order
    (dB :: fB :: torch_tensor_float32 0 :: torch_tensor_float32 0
     :: dA :: fA :: sA :: qA :: others)
  = Ok (second_order_of sA qA).
Proof.
  intros Hs Hq. unfold fuse_second_order, fuse_sum_embs, fuse_square_and_sum_emb.
  cbn [getitem nth_error bind].
  rewrite torch_equal_sentinel.
  rewrite (torch_unsqueeze_matrix B D sA) by apply Hs. cbn [bind].
  rewrite (torch_sum_unsqueezed B D sA Hs). cbn [bind].
  rewrite (broadcast_op_matrices Qcminus B D).
  - reflexivity.
  - apply matrix_torch_pow. exact Hs.
  - exact Hq.
Qed.

Lemma tensor_sum_single (B D : nat) (t : tensor) :
  matrix B D t -> tensor_sum [B; D] [t] = t.
Proof.
  intros [Hs Hl]. unfold tensor_sum. cbn [map].
  rewrite vsum_single by (rewrite Hl; simpl; lia).
  rewrite <- Hs. symmetry. apply tensor_eta.
Qed.

(* ------------------------------------------------------------------ *)
(** ** The first-order term under broadcasting *)

Lemma Z2Qc_succ (n : nat) : Z2Qc (Z.of_nat (S n)) = 1 + Z2Qc (Z.of_nat n).
Proof.
  unfold Z2Qc. apply Qc_is_canon.
  unfold Qcplus, Q2Qc. cbn [this]. rewrite !Qred_correct.
  rewrite Nat2Z.inj_succ. unfold Z.succ. rewrite inject_Z_plus. ring.
Qed.

(** Adding [f] to each of the entries of a row adds it as many times as
    the row has entries. *)
Lemma total_vadd_repeat (row : list Qc) (f : Qc) :
  total (vadd row (repeat f (length row)))
  = total row + Z2Qc (Z.of_nat (length row)) * f.
Proof.
  induction row as [| a row IH].
  - change (Z2Qc (Z.of_nat (length (@nil Qc)))) with (Q2Qc 0).
    unfold total, vadd. simpl. ring.
  - cbn [length]. rewrite Z2Qc_succ.
    unfold total, vadd in *. simpl. rewrite IH. ring.
Qed.

Lemma row_totals_broadcast (D : nat) :
  forall (B : nat) (sd fd : list Qc),
    length sd = (B * D)%nat -> length fd = B ->
    map total (chunks D B (vadd sd (flat_map (fun v => repeat v D) fd)))
    = vadd (map total (chunks D B sd)) (map (Qcmult (Z2Qc (Z.of_nat D))) fd).
Proof.
  induction B as [| B IH]; intros sd fd Hs Hf.
  - reflexivity.
  - destruct fd as [| f fd]; [discriminate |].
    cbn [flat_map].
    rewrite <- (firstn_skipn D sd) at 1.
    assert (Hfirst : length (firstn D sd) = D)
      by (rewrite length_firstn; simpl in Hs; lia).
    rewrite vadd_app by (rewrite repeat_length; exact Hfirst).
    rewrite chunks_app by (apply vadd_length; [exact Hfirst | apply repeat_length]).
    cbn [chunks map]. unfold vadd at 3. cbn [combine map fst snd].
    fold (vadd (map total (chunks D B (skipn D sd)))
               (map (Qcmult (Z2Qc (Z.of_nat D))) fd)).
    rewrite <- IH.
    + f_equal. pose proof (total_vadd_repeat (firstn D sd) f) as E.
      rewrite Hfirst in E. exact E.
    + rewrite length_skipn. simpl in Hs. lia.
    + simpl in Hf. lia.
Qed.

(** Lines 216-217 for a (B, D)-shaped second-order term and a
    (B, 1)-shaped first-order term: the row totals of the former plus [D]
    times the latter. *)
Lemma fm_2nd_part_formula (B D : nat) (second f : tensor) :
  matrix B D second -> matrix B 1 f ->
  (sub <- torch_add second f ;; torch_sum sub 1 true)
  = Ok (zip_with Qcplus (row_totals B D second)
          (scalar_mul (Z2Qc (Z.of_nat D)) f)).
Proof.
  intros Hs Hf. unfold torch_add.
  rewrite (broadcast_op_column Qcplus B D second f Hs Hf). cbn [bind].
  destruct Hs as [Ss Ls]. destruct Hf as [Sf Lf]. rewrite Nat.mul_1_r in Lf.
  rewrite torch_sum_matrix_keepdim.
  - unfold zip_with, row_totals, rows, scalar_mul, tmap. cbn [shape data].
    apply (f_equal (fun d => Ok (mkArray [B; 1%nat] d))).
    apply (row_totals_broadcast D B (data second) (data f) Ls Lf).
  - rewrite length_map, length_combine, Ls.
    rewrite flat_map_concat_map.
    rewrite (length_concat_uniform D).
    + rewrite length_map, Lf. lia.
    + apply Forall_map. apply Forall_forall. intros v _. apply repeat_length.
Qed.

(* ------------------------------------------------------------------ *)
(** ** The factorization-machine identity on one example *)

Lemma half_twice : half + half = 1.
Proof. apply Qc_is_canon. reflexivity. Qed.

Lemma second_order_entry_step (a s q : Qc) :
  half * ((a + s) ^ 2 - (a ^ 2 + q)) = a * s + half * (s ^ 2 - q).
Proof.
  transitivity ((half + half) * (a * s) + half * (s ^ 2 - q)).
  - simpl. generalize half. intros h. ring.
  - rewrite half_twice. ring.
Qed.

Lemma second_order_data_zero (n : nat) :
  total (second_order_data (repeat 0 n) (repeat 0 n)) = 0.
Proof.
  unfold second_order_data, total. induction n as [| n IH]; [reflexivity |].
  simpl in *. rewrite IH. generalize half. intros h. ring.
Qed.

Lemma second_order_data_length (s q : list Qc) :
  length s = length q -> length (second_order_data s q) = length s.
Proof.
  intros H. unfold second_order_data.
  rewrite !length_map, length_combine, length_map. lia.
Qed.

Lemma second_order_data_app (s1 s2 q1 q2 : list Qc) :
  length s1 = length q1 ->
  second_order_data (s1 ++ s2) (q1 ++ q2)
  = second_order_data s1 q1 ++ second_order_data s2 q2.
Proof.
  intros H. unfold second_order_data.
  rewrite map_app, combine_app_eq by (rewrite length_map; exact H).
  rewrite !map_app. reflexivity.
Qed.

Lemma dot_zero (r : list Qc) : dot r (repeat 0 (length r)) = 0.
Proof.
  unfold dot, total. induction r as [| a r IH]; [reflexivity |].
  simpl in *. rewrite IH. ring.
Qed.

Lemma dot_vadd (r u v : list Qc) :
  length u = length r -> length v = length r ->
  dot r (vadd u v) = dot r u + dot r v.
Proof.
  revert u v. unfold dot, total, vadd.
  induction r as [| a r IH]; intros [| x u] [| y v] Hu Hv; simpl in *;
    try discriminate.
  - ring.
  - rewrite IH by lia. ring.
Qed.

(** [<r, e_1 + ... + e_n> = <r, e_1> + ... + <r, e_n>]. *)
Lemma dot_vsum (r : list Qc) (es : list (list Qc)) :
  Forall (fun e => length e = length r) es ->
  dot r (vsum (length r) es) = total (map (dot r) es).
Proof.
  induction 1 as [| e es He Hes IH].
  - apply dot_zero.
  - change (vsum (length r) (e :: es)) with (vadd e (vsum (length r) es)).
    rewrite dot_vadd.
    + rewrite IH. reflexivity.
    + exact He.
    + apply vsum_length. exact Hes.
Qed.

Lemma second_order_data_step (r s q : list Qc) :
  length s = length r -> length q = length r ->
  total (second_order_data (vadd r s) (vadd (map (fun v => v ^ 2) r) q))
  = dot r s + total (second_order_data s q).
Proof.
  revert s q. unfold second_order_data, dot, total, vadd.
  induction r as [| a r IH]; intros [| x s] [| y q] Hs Hq; simpl in *;
    try discriminate.
  - ring.
  - rewrite IH by lia.
    pose proof (second_order_entry_step a x y) as E. simpl in E.
    rewrite E. ring.
Qed.

(** Per example: 0.5 times the sum over the embedding dimension of
    (sum of the embeddings, squared, minus the sum of the squared
    embeddings) is the sum of [<e_i, e_j>] over the pairs [i < j]. *)
Lemma pairwise_identity (D : nat) (es : list (list Qc)) :
  Forall (fun e => length e = D) es ->
  total (second_order_data (vsum D es) (vsum D (map (map (fun v => v ^ 2)) es)))
  = pairwise es.
Proof.
  induction 1 as [| e es He Hes IH].
  - apply second_order_data_zero.
  - cbn [map pairwise].
    change (vsum D (e :: es)) with (vadd e (vsum D es)).
    change (vsum D (map (fun v => v ^ 2) e :: map (map (fun v => v ^ 2)) es))
      with (vadd (map (fun v => v ^ 2) e) (vsum D (map (map (fun v => v ^ 2)) es))).
    rewrite second_order_data_step.
    + rewrite IH. f_equal. subst D. apply dot_vsum. exact Hes.
    + rewrite He. apply vsum_length. exact Hes.
    + rewrite He. apply vsum_length. apply Forall_map.
      eapply Forall_impl; [| exact Hes].
      intros a Ha. cbv beta in Ha. rewrite length_map. exact Ha.
Qed.

(* ------------------------------------------------------------------ *)
(** ** The identity on a batch *)

Lemma Forall_length_map_sq (n : nat) (ds : list (list Qc)) :
  Forall (fun d => length d = n) ds ->
  Forall (fun d => length d = n) (map (map (fun v => v ^ 2)) ds).
Proof.
  intros H. apply Forall_map. eapply Forall_impl; [| exact H].
  intros a Ha. cbv beta in Ha. rewrite length_map. exact Ha.
Qed.

Lemma row_totals_pairwise (D : nat) :
  forall (B : nat) (ds : list (list Qc)),
    Forall (fun d => length d = (B * D)%nat) ds ->
    map total
      (chunks D B
         (second_order_data (vsum (B * D) ds)
            (vsum (B * D) (map (map (fun v => v ^ 2)) ds))))
    = map (fun b => pairwise (map (fun d => nth b (chunks D B d) []) ds)) (seq 0 B).
Proof.
  induction B as [| B IH]; intros ds H; [reflexivity |].
  change (S B * D)%nat with (D + B * D)%nat in *.
  assert (Hfirst : Forall (fun r : list Qc => length r = D) (map (firstn D) ds)).
  { apply Forall_map. eapply Forall_impl; [| exact H].
    intros d Hd. cbv beta in Hd. rewrite length_firstn. lia. }
  assert (Hskip : Forall (fun d : list Qc => length d = (B * D)%nat) (map (skipn D) ds)).
  { apply Forall_map. eapply Forall_impl; [| exact H].
    intros d Hd. cbv beta in Hd. rewrite length_skipn. lia. }
  rewrite (vsum_split D (B * D) ds) by exact H.
  rewrite (vsum_split D (B * D) (map (map (fun v => v ^ 2)) ds))
    by (apply Forall_length_map_sq; exact H).
  replace (map (firstn D) (map (map (fun v => v ^ 2)) ds))
    with (map (map (fun v => v ^ 2)) (map (firstn D) ds))
    by (rewrite !map_map; apply map_ext; intros d; symmetry; apply firstn_map).
  replace (map (skipn D) (map (map (fun v => v ^ 2)) ds))
    with (map (map (fun v => v ^ 2)) (map (skipn D) ds))
    by (rewrite !map_map; apply map_ext; intros d; symmetry; apply skipn_map).
  assert (L1 : length (vsum D (map (firstn D) ds)) = D)
    by (apply vsum_length; exact Hfirst).
  assert (L2 : length (vsum D (map (map (fun v => v ^ 2)) (map (firstn D) ds))) = D)
    by (apply vsum_length; apply Forall_length_map_sq; exact Hfirst).
  rewrite second_order_data_app by (rewrite L1, L2; reflexivity).
  rewrite chunks_app by (rewrite second_order_data_length; rewrite L1; [| rewrite L2]; reflexivity).
  cbn [map seq].
  rewrite (pairwise_identity D) by exact Hfirst.
  rewrite (IH (map (skipn D) ds) Hskip).
  rewrite <- seq_shift, !map_map.
  f_equal. apply map_ext. intros b. rewrite map_map. reflexivity.
Qed.

Lemma torch_pow_stack (B N D : nat) (es : list tensor) :
  torch_pow (mkArray [B; N; D] (interleave B (map (fun t => (D, data t)) es))) 2
  = mkArray [B; N; D]
      (interleave B (map (fun t => (D, data t)) (map (fun e => torch_pow e 2) es))).
Proof.
  unfold torch_pow, tmap. cbn [shape data].
  rewrite interleave_map, !map_map. reflexivity.
Qed.

Lemma matrix_map_torch_pow (B D n : nat) (es : list tensor) :
  Forall (matrix B D) es -> Forall (matrix B D) (map (fun e => torch_pow e n) es).
Proof.
  intros H. apply Forall_map. eapply Forall_impl; [| exact H].
  intros e He. apply matrix_torch_pow. exact He.
Qed.

(** Lines 131-137 on (B, D)-shaped embeddings. *)
Lemma second_order_stats_matrices (B D : nat) (e0 : tensor) (rest : list tensor) :
  Forall (matrix B D) (e0 :: rest) ->
  second_order_stats (e0 :: rest)
  = Ok (tensor_sum [B; D] (e0 :: rest),
        tensor_sum [B; D] (map (fun e => torch_pow e 2) (e0 :: rest)),
        mkArray [B; (S (length rest) * D)%nat]
          (interleave B (map (fun t => (D, data t)) (e0 :: rest)))).
Proof.
  intros H. unfold second_order_stats.
  pose proof (sum_of_stack B D e0 rest H) as E1.
  pose proof (matrix_map_torch_pow B D 2 _ H) as H2. cbn [map] in H2.
  pose proof (sum_of_stack B D _ _ H2) as E2.
  rewrite (torch_stack_matrices B D) in E1 by (apply matrix_shapes; exact H).
  rewrite (torch_stack_matrices B D) in E2 by (apply matrix_shapes; exact H2).
  rewrite (torch_stack_matrices B D) by (apply matrix_shapes; exact H).
  cbn [bind] in E1, E2 |- *.
  rewrite E1. cbn [bind].
  rewrite torch_pow_stack. rewrite length_map in E2. cbn [map] in E2 |- *.
  rewrite E2. cbn [bind].
  unfold torch_flatten1. cbn [shape data bind numel fold_right].
  rewrite Nat.mul_1_r. reflexivity.
Qed.

(* ------------------------------------------------------------------ *)
(** ** Shapes of the results of the tensor operations *)

Lemma mapM_success {A B} (f : A -> result B) (P : A -> B -> Prop) (l : list A) :
  Forall (fun a => exists b, f a = Ok b /\ P a b) l ->
  exists bs, mapM f l = Ok bs /\ Forall2 P l bs.
Proof.
  induction 1 as [| a l [b [Hb Pb]] _ [bs [Hbs Pbs]]].
  - exists []. split; [reflexivity | constructor].
  - exists (b :: bs). simpl. rewrite Hb. simpl. rewrite Hbs. simpl.
    split; [reflexivity | constructor; assumption].
Qed.

Lemma filter_all {A} (f : A -> bool) (l : list A) :
  Forall (fun a => f a = true) l -> filter f l = l.
Proof.
  induction 1 as [| a l Ha _ IH]; simpl; [reflexivity |].
  rewrite Ha, IH. reflexivity.
Qed.

(** [torch.cat] of tensors of shapes (B, w_1), ..., (B, w_n) along
    dimension 1 has shape (B, w_1 + ... + w_n). *)
Lemma torch_cat_columns {A} (B : nat) (t0 : ndarray A) (rest : list (ndarray A)) :
  Forall (fun t => shape t = [B; width t]) (t0 :: rest) ->
  exists t, torch_cat (t0 :: rest) 1 = Ok t
            /\ shape t = [B; fold_right Nat.add 0%nat (map width (t0 :: rest))].
Proof.
  intros H. unfold torch_cat.
  rewrite filter_all.
  2: { eapply Forall_impl; [| exact H]. intros t Ht. unfold cat_skipped.
       rewrite Ht. simpl. destruct (B =? 0)%nat; reflexivity. }
  assert (H0 : existsb (fun t : ndarray A => (dim t =? 0)%nat) (t0 :: rest) = false).
  { clear - H. induction H as [| t l Ht _ IH]; [reflexivity |].
    simpl. unfold dim at 1. rewrite Ht. simpl. exact IH. }
  rewrite H0.
  inversion H as [| ? ? Ht0 Hrest]; subst.
  remember (width t0) as w0 eqn:Ew.
  assert (H1 : forallb (fun t : ndarray A =>
                          (dim t =? length (shape t0))%nat
                          && shape_eqb (drop_dim 1 (shape t)) (drop_dim 1 (shape t0)))
                 rest = true).
  { rewrite Ht0. clear - Hrest. induction Hrest as [| t l Ht _ IH]; [reflexivity |].
    simpl. unfold dim at 1. rewrite Ht. simpl.
    rewrite Nat.eqb_refl. simpl. exact IH. }
  rewrite H1. rewrite Ht0. cbn [length Nat.ltb Nat.leb negb].
  eexists. split; [reflexivity |].
  cbn [shape firstn skipn app map fold_right]. unfold width at 1.
  rewrite Ht0. reflexivity.
Qed.

Lemma torch_sum_shape2 (B N : nat) (t : tensor) (keepdim : bool) :
  shape t = [B; N] ->
  exists r, torch_sum t 1 keepdim = Ok r
            /\ shape r = if keepdim then [B; 1%nat] else [B].
Proof.
  intros H. unfold torch_sum. rewrite H. cbn [length Nat.ltb Nat.leb].
  eexists. split; [reflexivity |]. destruct keepdim; reflexivity.
Qed.

Lemma torch_sum_shape3 (B N D : nat) (t : tensor) :
  shape t = [B; N; D] ->
  exists r, torch_sum t 1 false = Ok r /\ shape r = [B; D].
Proof.
  intros H. unfold torch_sum. rewrite H. cbn [length Nat.ltb Nat.leb].
  eexists. split; reflexivity.
Qed.

Lemma Linear_forward_shape (l : Linear) (B : nat) (t : tensor) :
  shape t = [B; in_features l] ->
  exists r, Linear_forward l t = Ok r /\ shape r = [B; out_features l].
Proof.
  intros H. unfold Linear_forward. rewrite H. cbn [rev app].
  rewrite Nat.eqb_refl. eexists. split; reflexivity.
Qed.

Lemma torch_add_shape (s : list nat) (a b : tensor) :
  shape a = s -> shape b = s ->
  exists r, torch_add a b = Ok r /\ shape r = s.
Proof.
  intros Ha Hb. unfold torch_add, broadcast_op.
  rewrite Ha, Hb, broadcast_shapes_same. simpl.
  eexists. split; reflexivity.
Qed.

Lemma torch_stack_shape {A} (B D : nat) (t0 : ndarray A) (rest : list (ndarray A)) :
  Forall (fun t => shape t = [B; D]) (t0 :: rest) ->
  exists r, torch_stack (t0 :: rest) 1 = Ok r
            /\ shape r = [B; S (length rest); D].
Proof.
  intros H. unfold torch_stack.
  inversion H as [| ? ? H0 Hrest]; subst.
  assert (Hf : forallb (fun t : ndarray A => shape_eqb (shape t) (shape t0)) rest = true).
  { rewrite H0. clear - Hrest. induction Hrest as [| t l Ht _ IH]; [reflexivity |].
    simpl. rewrite Ht, shape_eqb_refl, IH. reflexivity. }
  rewrite Hf. rewrite H0. cbn [negb length Nat.leb].
  eexists. split; reflexivity.
Qed.

Lemma torch_flatten1_shape {A} (B N D : nat) (t : ndarray A) :
  shape t = [B; N; D] ->
  exists r, torch_flatten1 t = Ok r /\ shape r = [B; (N * D)%nat].
Proof.
  intros H. unfold torch_flatten1. rewrite H.
  eexists. split; [reflexivity |]. cbn [shape numel fold_right].
  rewrite Nat.mul_1_r. reflexivity.
Qed.

(** A stack of layers whose widths fit runs, and produces the width
    [dnn_chain] computes. *)
Lemma Sequential_forward_shape (B : nat) (ms : Sequential) :
  forall (d d' : nat) (t : tensor),
    dnn_chain d ms = Some d' -> shape t = [B; d] ->
    exists r, Sequential_forward ms t = Ok r /\ shape r = [B; d'].
Proof.
  induction ms as [| m ms IH]; intros d d' t Hc Ht; simpl in *.
  - injection Hc as <-. exists t. split; [reflexivity | exact Ht].
  - destruct m as [l |]; simpl.
    + destruct (d =? in_features l)%nat eqn:E; [| discriminate].
      apply Nat.eqb_eq in E. subst d.
      destruct (Linear_forward_shape l B t Ht) as [r [Hr Sr]].
      rewrite Hr. simpl. apply (IH _ _ r Hc Sr).
    + apply (IH d d' (tmap relu t) Hc). exact Ht.
Qed.

Lemma Embedding_forward_shape (e : Embedding) (idx : long_tensor) :
  Forall (fun k => 0 <= k < Z.of_nat (num_embeddings e))%Z (data idx) ->
  exists r, Embedding_forward e idx = Ok r
            /\ shape r = shape idx ++ [embedding_dim e].
Proof.
  intros H. unfold Embedding_forward.
  destruct (mapM_success (embedding_row e) (fun _ _ => True) (data idx)) as [rows [Hr _]].
  - eapply Forall_impl; [| exact H]. intros k Hk. cbv beta in Hk.
    unfold embedding_row.
    replace ((0 <=? k) && (k <? Z.of_nat (num_embeddings e)))%Z with true.
    + eexists. split; [reflexivity | exact I].
    + symmetry. apply andb_true_iff. split; [apply Z.leb_le | apply Z.ltb_lt]; lia.
  - rewrite Hr. simpl. eexists. split; reflexivity.
Qed.

(* ------------------------------------------------------------------ *)
(** ** What the constructors build *)

Section ConstructionFacts.

Variable rng : Type.
Variable sample : rng -> nat -> list Qc * rng.

Lemma gbind_Ok {A B} (c : Gen rng A) (k : A -> Gen rng B) (g : rng) (r : B * rng) :
  gbind rng c k g = Ok r ->
  exists a g1, c g = Ok (a, g1) /\ k a g1 = Ok r.
Proof.
  unfold gbind. destruct (c g) as [[a g1] | e]; [| discriminate].
  intros H. exists a, g1. split; [reflexivity | exact H].
Qed.

Lemma fresh_tensor_Ok (sizes : list Z) (g g' : rng) (t : tensor) :
  fresh_tensor rng sample sizes g = Ok (t, g') ->
  Forall (fun n => 0 <= n)%Z sizes /\ shape t = map Z.to_nat sizes.
Proof.
  unfold fresh_tensor.
  destruct (existsb (fun n => n <? 0)%Z sizes) eqn:E; [discriminate |].
  destruct (sample g (numel (map Z.to_nat sizes))) as [d g1].
  intros H. injection H as <- _. split; [| reflexivity].
  apply Forall_forall. intros n Hn.
  destruct (Z.ltb_spec n 0) as [Hlt | Hge]; [| exact Hge].
  assert (Ht : existsb (fun n => n <? 0)%Z sizes = true).
  { apply existsb_exists. exists n. split; [exact Hn | apply Z.ltb_lt; exact Hlt]. }
  congruence.
Qed.

Lemma nn_Linear_Ok (i o : Z) (g g' : rng) (l : Linear) :
  nn_Linear rng sample i o g = Ok (l, g') ->
  (0 <= i)%Z /\ (0 <= o)%Z
  /\ in_features l = Z.to_nat i /\ out_features l = Z.to_nat o.
Proof.
  unfold nn_Linear. intros H.
  apply gbind_Ok in H. destruct H as [w [g1 [Hw H]]].
  apply gbind_Ok in H. destruct H as [b [g2 [Hb H]]].
  unfold gret in H. injection H as <- _.
  apply fresh_tensor_Ok in Hw. destruct Hw as [Hw _].
  inversion Hw as [| ? ? Ho Hw']; subst. inversion Hw' as [| ? ? Hi _]; subst.
  repeat split; assumption.
Qed.

Lemma nn_Embedding_Ok (n d : Z) (g g' : rng) (e : Embedding) :
  nn_Embedding rng sample n d g = Ok (e, g') ->
  (0 <= n)%Z /\ (0 <= d)%Z
  /\ num_embeddings e = Z.to_nat n /\ embedding_dim e = Z.to_nat d.
Proof.
  unfold nn_Embedding. intros H.
  apply gbind_Ok in H. destruct H as [w [g1 [Hw H]]].
  unfold gret in H. injection H as <- _.
  apply fresh_tensor_Ok in Hw. destruct Hw as [Hw _].
  inversion Hw as [| ? ? Hn Hw']; subst. inversion Hw' as [| ? ? Hd _]; subst.
  repeat split; assumption.
Qed.

(** Lines 65-78 create one first-order and one second-order layer for each
    slot that is not listed as continuous, in the order of the slots. *)
Lemma build_sparse_layers_Ok (cont : list Z) (D : Z) :
  forall (items : list (nat * Z)) (g g' : rng)
         (l1 l2 : list (nat * Embedding)),
    build_sparse_layers rng sample items cont D g = Ok ((l1, l2), g') ->
    Forall2 (layer_of 1) (filter (fun it => not_in (fst it) cont) items) l1
    /\ Forall2 (layer_of D) (filter (fun it => not_in (fst it) cont) items) l2.
Proof.
  induction items as [| [index input_dim] items IH]; intros g g' l1 l2 H.
  - simpl in H. unfold gret in H. injection H as <- <- _.
    split; constructor.
  - simpl in H. cbn [filter fst].
    destruct (not_in index cont) eqn:E.
    + apply gbind_Ok in H. destruct H as [e1 [g1 [He1 H]]].
      apply gbind_Ok in H. destruct H as [e2 [g2 [He2 H]]].
      apply gbind_Ok in H. destruct H as [w1 [g3 [_ H]]].
      apply gbind_Ok in H. destruct H as [w2 [g4 [_ H]]].
      apply gbind_Ok in H. destruct H as [[r1 r2] [g5 [Hr H]]].
      unfold gret in H. cbn [fst snd] in H. injection H as <- <- _.
      apply IH in Hr. destruct Hr as [Hr1 Hr2].
      apply nn_Embedding_Ok in He1. destruct He1 as [_ [? [? ?]]].
      apply nn_Embedding_Ok in He2. destruct He2 as [_ [? [? ?]]].
      split; constructor; try assumption; repeat split; assumption.
    + apply IH in H. exact H.
Qed.

(** Lines 92-97: the layers kept in [_dnn_layer] fit one another, from the
    width given to the width of the last layer. *)
Lemma build_dnn_chain :
  forall (units_size : list Z) (d d' : Z) (g g' : rng) (layers : list Module),
    build_dnn rng sample d units_size g = Ok ((layers, d'), g') ->
    dnn_chain (Z.to_nat d) (removelast layers) = Some (Z.to_nat d').
Proof.
  induction units_size as [| units rest IH]; intros d d' g g' layers H.
  - simpl in H. unfold gret in H. injection H as <- <- _. reflexivity.
  - simpl in H.
    apply gbind_Ok in H. destruct H as [l [g1 [Hl H]]].
    apply gbind_Ok in H. destruct H as [[ms dm] [g2 [Hr H]]].
    unfold gret in H. cbn [fst snd] in H. injection H as <- <- _.
    apply nn_Linear_Ok in Hl. destruct Hl as [_ [_ [Hin Hout]]].
    apply IH in Hr.
    change (removelast (ModLinear l :: ModReLU :: ms))
      with (ModLinear l :: removelast (ModReLU :: ms)).
    cbn [dnn_chain]. rewrite Hin, Nat.eqb_refl, Hout.
    destruct ms as [| m ms]; exact Hr.
Qed.

Lemma DeepFMBase_init_built (input_dims : dims_arg) (dnn_units_size : list Z)
    (continuous_feas_index : option (list Z)) (D : Z)
    (g g' : rng) (self : DeepFMBase) :
  DeepFMBase_init rng sample input_dims dnn_units_size continuous_feas_index D g
  = Ok (self, g') ->
  built_for (dims_list input_dims) (index_list continuous_feas_index) D self.
Proof.
  unfold DeepFMBase_init.
  generalize (dims_list input_dims) (index_list continuous_feas_index).
  clear input_dims continuous_feas_index. intros input_dims cont H.
  apply gbind_Ok in H. destruct H as [sparse [g1 [Hsp H]]].
  apply gbind_Ok in H. destruct H as [dense [g2 [Hde H]]].
  apply gbind_Ok in H. destruct H as [[layers d'] [g3 [Hdnn H]]].
  unfold gret in H. injection H as <- _.
  unfold built_for.
  cbn [_input_size _continuous_feas_index _has_cat_feas _has_cont_feas
       _fm_1st_order_sparse_emb_layers _fm_2nd_order_sparse_emb_layers
       _fm_1st_order_dense_emb_layers _dense_layer _dnn_layer fst snd].
  fold (second_part_dim_of input_dims cont D) in Hde, Hdnn.
  repeat (split; [reflexivity |]).
  split; [| split].
  - intros Hcat. rewrite Hcat in Hsp.
    apply gbind_Ok in Hsp. destruct Hsp as [[l1 l2] [g4 [Hb Hsp]]].
    unfold gret in Hsp. cbn [fst snd] in Hsp. injection Hsp as <- _.
    apply build_sparse_layers_Ok in Hb. destruct Hb as [H1 H2].
    exists l1, l2. cbn [fst snd]. repeat split; assumption.
  - intros Hcont. rewrite Hcont in Hde.
    apply gbind_Ok in Hde. destruct Hde as [c [g4 [Hc Hde]]].
    apply gbind_Ok in Hde. destruct Hde as [la [g5 [Hla Hde]]].
    apply gbind_Ok in Hde. destruct Hde as [lb [g6 [Hlb Hde]]].
    unfold gret in Hde. injection Hde as <- _.
    unfold glift in Hc.
    destruct (continuous_dim_of input_dims cont 0) as [c' |] eqn:Ec; [| discriminate].
    injection Hc as -> _.
    apply nn_Linear_Ok in Hla. destruct Hla as [_ [_ [Ha1 Ha2]]].
    apply nn_Linear_Ok in Hlb. destruct Hlb as [_ [_ [Hb1 Hb2]]].
    exists c, la, lb. cbn [fst snd]. repeat split; assumption.
  - apply build_dnn_chain in Hdnn. eexists. exact Hdnn.
Qed.

End ConstructionFacts.

(* ------------------------------------------------------------------ *)
(** ** Short inputs of the fusion module *)

Lemma fuse_square_and_sum_emb_short (x : list tensor) :
  (length x < 8)%nat -> raises (fuse_square_and_sum_emb x).
Proof.
  intros H. unfold fuse_square_and_sum_emb.
  assert (H7 : getitem x 7 = Raise IndexError) by (apply getitem_short; lia).
  rewrite H7. apply raises_bind_all. intros x3.
  destruct (torch_equal x3 (torch_tensor 0)); apply raises_Raise.
Qed.

Lemma fuse_sum_embs_short (x : list tensor) :
  (length x < 7)%nat -> fuse_sum_embs x = Raise IndexError.
Proof.
  intros H. unfold fuse_sum_embs.
  assert (H6 : getitem x 6 = Raise IndexError) by (apply getitem_short; lia).
  rewrite H6. unfold getitem.
  destruct (nth_error x 2) as [x2 |]; simpl; [| reflexivity].
  destruct (torch_equal x2 (torch_tensor 0)); reflexivity.
Qed.

Lemma fuse_second_order_short (x : list tensor) :
  (length x < 8)%nat -> raises (fuse_second_order x).
Proof.
  intros H. unfold fuse_second_order.
  apply raises_bind_all. intros sum_embs.
  apply raises_bind_all. intros s.
  apply raises_bind. apply fuse_square_and_sum_emb_short. exact H.
Qed.

Lemma DeepFMFuse_outputs_raises (self : DeepFMFuse) (x : list tensor) :
  raises (fuse_second_order x) -> raises (DeepFMFuse_outputs self x).
Proof.
  intros H. unfold DeepFMFuse_outputs.
  apply raises_bind_all. intros dnn_outputs.
  apply raises_bind_all. intros fm_1st_part.
  apply raises_bind. exact H.
Qed.

Lemma DeepFMFuse_forward_short (self : DeepFMFuse) (x : list tensor) :
  (length x < 8)%nat -> raises (DeepFMFuse_forward self x).
Proof.
  intros H. unfold DeepFMFuse_forward.
  apply raises_bind. apply DeepFMFuse_outputs_raises.
  apply fuse_second_order_short. exact H.
Qed.

(** C9. A fusion input of exactly four tensors (one party's tuple) never
    yields a prediction: the forward pass raises.  When the two steps
    before sentinel detection succeed (the DNN outputs are concatenated
    and the first-order terms stacked and summed), the exception is the
    out-of-range access to [x[6]]. *)
Theorem fuse_single_party_fails (self : DeepFMFuse) (x : list tensor) :
  length x = 4%nat ->
  raises (DeepFMFuse_forward self x)
  /\ fuse_sum_embs x = Raise IndexError
  /\ (forall d f,
        torch_cat (slice_from_step x 0 4) 1 = Ok d ->
        fuse_fm_1st_part x = Ok f ->
        DeepFMFuse_forward self x = Raise IndexError).
Proof.
  intros H.
  assert (Hs : fuse_sum_embs x = Raise IndexError)
    by (apply fuse_sum_embs_short; lia).
  split; [apply DeepFMFuse_forward_short; lia |].
  split; [exact Hs |].
  intros d f Hd Hf.
  unfold DeepFMFuse_forward, DeepFMFuse_outputs, fuse_second_order.
  rewrite Hd, Hf, Hs. reflexivity.
Qed.

Lemma fuse_single_party_fails_witness :
  raises (DeepFMFuse_forward (Examples.fuse 1) (firstn 4 Examples.two_real))
  /\ DeepFMFuse_forward (Examples.fuse 1) (firstn 4 Examples.two_real)
     = Raise IndexError.
Proof.
  destruct (fuse_single_party_fails (Examples.fuse 1) (firstn 4 Examples.two_real)
              eq_refl) as [H1 [_ H3]].
  split; [exact H1 |].
  eapply H3; vm_compute; reflexivity.
Defined.

(** C6, as the code has it.  [DeepFMBase.forward] raises [AssertionError],
    and returns nothing, whenever the length of the input list differs from
    the configured slot count.  [DeepFMFuse.forward] checks neither that the
    length of its input is a multiple of 4 nor a party count; it raises
    whenever its input has fewer than 8 tensors. *)
Theorem forward_length_checks
    (base : DeepFMBase) (bx : forward_arg) (fuse : DeepFMFuse) (fx : list tensor) :
  (length (arg_list bx) <> _input_size base ->
   DeepFMBase_forward base bx = Raise AssertionError)
  /\ ((length fx < 8)%nat -> raises (DeepFMFuse_forward fuse fx)).
Proof.
  split.
  - intros H. unfold DeepFMBase_forward.
    apply Nat.eqb_neq in H. rewrite H. reflexivity.
  - apply DeepFMFuse_forward_short.
Qed.

(** C6 fails as stated: a fusion input of nine tensors, which is not a
    multiple of 4, is accepted and yields a prediction. *)
Lemma fuse_accepts_nine_tensors :
  length Examples.nine = 9%nat
  /\ (9 mod 4 <> 0)%nat
  /\ DeepFMFuse_forward (Examples.fuse 3) Examples.nine
     = Ok (mkArray [1; 1]%nat [Q2Qc (159 # 160)]).
Proof.
  split; [reflexivity |]. split; [discriminate |]. evaluate.
Qed.

Lemma forward_length_checks_witness :
  DeepFMBase_forward Examples.cat_party (ArgList []) = Raise AssertionError
  /\ raises (DeepFMFuse_forward (Examples.fuse 1) (firstn 7 Examples.two_real)).
Proof.
  destruct (forward_length_checks Examples.cat_party (ArgList [])
              (Examples.fuse 1) (firstn 7 Examples.two_real)) as [H1 H2].
  split.
  - apply H1. vm_compute. discriminate.
  - apply H2. vm_compute. lia.
Defined.

(* ------------------------------------------------------------------ *)
(** ** Construction of DeepFMBase *)

Lemma getitem_int_out_of_range {A} (l : list A) (i : Z) :
  (i < - Z.of_nat (length l) \/ Z.of_nat (length l) <= i)%Z ->
  getitem_int l i = Raise IndexError.
Proof.
  intros H. unfold getitem_int.
  destruct (0 <=? i)%Z eqn:E0.
  - apply Z.leb_le in E0. apply getitem_short. lia.
  - apply Z.leb_gt in E0.
    destruct (0 <=? i + Z.of_nat (length l))%Z eqn:E1; [| reflexivity].
    apply Z.leb_le in E1. lia.
Qed.

Lemma getitem_int_error {A} (l : list A) (i : Z) (e : PyError) :
  getitem_int l i = Raise e -> e = IndexError.
Proof.
  unfold getitem_int, getitem.
  destruct (0 <=? i)%Z.
  - destruct (nth_error l (Z.to_nat i)); congruence.
  - destruct (0 <=? i + Z.of_nat (length l))%Z; [| congruence].
    destruct (nth_error l (Z.to_nat (i + Z.of_nat (length l)))); congruence.
Qed.

Lemma continuous_dim_of_out_of_range (input_dims cont : list Z) (i : Z) :
  In i cont ->
  (i < - Z.of_nat (length input_dims) \/ Z.of_nat (length input_dims) <= i)%Z ->
  forall acc, continuous_dim_of input_dims cont acc = Raise IndexError.
Proof.
  intros Hin Hout. induction cont as [| j cont IH]; [contradiction |].
  intros acc. simpl.
  destruct (getitem_int input_dims j) as [d | e] eqn:E; simpl.
  - destruct Hin as [-> | Hin].
    + rewrite getitem_int_out_of_range in E by exact Hout. discriminate.
    + apply IH. exact Hin.
  - apply getitem_int_error in E. subst e. reflexivity.
Qed.

(** C7, as the code has it.  Construction raises when the continuous-index
    list holds an index [i] that Python cannot resolve in [input_dims],
    that is [i >= n] or [i < -n] for [n] slots. *)
Theorem construction_rejects_unresolvable_index
    (rng : Type) (sample : rng -> nat -> list Qc * rng)
    (input_dims : dims_arg) (dnn_units_size cont : list Z)
    (fm_embedding_dim : Z) (g : rng) (i : Z) :
  In i cont ->
  (i < - Z.of_nat (length (dims_list input_dims))
   \/ Z.of_nat (length (dims_list input_dims)) <= i)%Z ->
  raises (DeepFMBase_init rng sample input_dims dnn_units_size (Some cont)
            fm_embedding_dim g).
Proof.
  intros Hin Hout.
  unfold DeepFMBase_init. cbn [index_list]. unfold gbind at 1.
  match goal with
  | |- raises (match ?c with _ => _ end) => destruct c as [[sparse g1] | e]
  end; [| apply raises_Raise].
  assert (Hne : (length cont =? 0)%nat = false).
  { destruct cont; [contradiction | reflexivity]. }
  rewrite Hne. simpl negb. cbv iota.
  unfold gbind, glift.
  rewrite (continuous_dim_of_out_of_range _ _ _ Hin Hout).
  apply raises_Raise.
Qed.

Lemma construction_rejects_unresolvable_index_witness :
  raises (DeepFMBase_init unit Examples.zero_sample (DimsList [3; 4]%Z) [8%Z]
            (Some [5%Z]) 4 tt).
Proof.
  apply (construction_rejects_unresolvable_index unit Examples.zero_sample
           (DimsList [3; 4]%Z) [8%Z] [5%Z] 4 tt 5%Z).
  - simpl. left. reflexivity.
  - simpl. lia.
Defined.

(** C7 fails as stated: a party with zero slots is constructed without an
    error, and so is a party whose continuous-index list holds [-1]. *)
Lemma construction_accepts_empty_party :
  (exists m, DeepFMBase_init unit Examples.zero_sample (DimsList []) [8%Z] None 4 tt
             = Ok (m, tt)
             /\ _input_size m = 0%nat)
  /\ (exists m, DeepFMBase_init unit Examples.zero_sample (DimsList [3; 4]%Z) [8%Z]
                  (Some [(-1)%Z]) 4 tt
                = Ok (m, tt)).
Proof.
  split.
  - eexists. split; [vm_compute; reflexivity | reflexivity].
  - eexists. vm_compute. reflexivity.
Qed.

(* ------------------------------------------------------------------ *)
(** ** Valid inputs of DeepFMBase *)

Lemma In_combine_seq {A} (l : list A) :
  forall (s i : nat) (d : A),
    In (i, d) (combine (seq s (length l)) l) ->
    (s <= i)%nat /\ nth_error l (i - s) = Some d.
Proof.
  induction l as [| a l IH]; intros s i d H; simpl in H; [contradiction |].
  destruct H as [H | H].
  - injection H as <- <-. rewrite Nat.sub_diag. split; [lia | reflexivity].
  - apply IH in H. destruct H as [Hs Hn]. split; [lia |].
    replace (i - s)%nat with (S (i - S s)) by lia. exact Hn.
Qed.

Lemma In_enumerate {A} (l : list A) (i : nat) (d : A) :
  In (i, d) (enumerate l) -> nth_error l i = Some d.
Proof.
  intros H. apply In_combine_seq in H. destruct H as [_ H].
  rewrite Nat.sub_0_r in H. exact H.
Qed.

Lemma Forall2_combine_seq_nth {A V} (P : nat -> A -> V -> Prop) (l : list A) :
  forall (s : nat) (x : list V) (i : nat) (d : A),
    Forall2 (fun it v => P (fst it) (snd it) v) (combine (seq s (length l)) l) x ->
    nth_error l i = Some d ->
    exists v, nth_error x i = Some v /\ P (s + i)%nat d v.
Proof.
  induction l as [| a l IH]; intros s x i d H Hn.
  - destruct i; discriminate.
  - simpl in H. inversion H as [| ? v ? x' Hv Hrest]; subst.
    destruct i as [| i]; simpl in Hn.
    + injection Hn as <-. exists v. split; [reflexivity |].
      rewrite Nat.add_0_r. exact Hv.
    + destruct (IH (S s) x' i d Hrest Hn) as [v' [Hv' Pv']].
      exists v'. split; [exact Hv' |].
      replace (s + S i)%nat with (S s + i)%nat by lia. exact Pv'.
Qed.

Lemma valid_input_nth (input_dims cont : list Z) (B : nat)
    (x : list torch_value) (i : nat) (d : Z) :
  valid_input input_dims cont B x ->
  nth_error input_dims i = Some d ->
  exists v, nth_error x i = Some v /\ valid_slot cont B i d v.
Proof.
  intros H Hn.
  apply (Forall2_combine_seq_nth (valid_slot cont B) input_dims 0 x i d H Hn).
Qed.

Lemma valid_input_length (input_dims cont : list Z) (B : nat)
    (x : list torch_value) :
  valid_input input_dims cont B x -> length x = length input_dims.
Proof.
  intros H. apply Forall2_length in H. rewrite <- H.
  unfold enumerate. rewrite length_combine, length_seq. lia.
Qed.

Lemma not_in_is_continuous (cont : list Z) (i : nat) :
  not_in i cont = negb (is_continuous cont i).
Proof. reflexivity. Qed.

Lemma is_continuous_In (cont : list Z) (i : nat) :
  is_continuous cont i = true <-> In (Z.of_nat i) cont.
Proof.
  unfold is_continuous. rewrite existsb_exists. split.
  - intros [z [Hz E]]. apply Z.eqb_eq in E. subst z. exact Hz.
  - intros H. exists (Z.of_nat i). split; [exact H | apply Z.eqb_refl].
Qed.

(* ------------------------------------------------------------------ *)
(** ** The number of categorical slots *)

Lemma filter_combine_seq_length {A} (f : nat -> bool) (l : list A) :
  forall s : nat,
    length (filter (fun it => f (fst it)) (combine (seq s (length l)) l))
    = length (filter f (seq s (length l))).
Proof.
  induction l as [| a l IH]; intros s; [reflexivity |].
  simpl. destruct (f s); simpl; rewrite IH; reflexivity.
Qed.

Lemma continuous_count (cont : list Z) (n : nat) :
  NoDup cont ->
  Forall (fun i => 0 <= i < Z.of_nat n)%Z cont ->
  length (filter (is_continuous cont) (seq 0 n)) = length cont.
Proof.
  intros Hnd Hr.
  set (L := filter (is_continuous cont) (seq 0 n)).
  assert (HL : NoDup (map Z.of_nat L)).
  { apply NoDup_map_NoDup_ForallPairs.
    - intros a b _ _. apply Nat2Z.inj.
    - apply NoDup_filter. apply seq_NoDup. }
  apply Nat.le_antisymm.
  - rewrite <- (length_map Z.of_nat L).
    apply NoDup_incl_length; [exact HL |].
    intros z Hz. apply in_map_iff in Hz. destruct Hz as [i [<- Hi]].
    apply filter_In in Hi. destruct Hi as [_ Hi].
    apply is_continuous_In. exact Hi.
  - rewrite <- (length_map Z.of_nat L).
    apply NoDup_incl_length; [exact Hnd |].
    intros z Hz. rewrite Forall_forall in Hr. pose proof (Hr z Hz) as Hz'.
    apply in_map_iff. exists (Z.to_nat z). split; [lia |].
    apply filter_In. split.
    + apply in_seq. lia.
    + apply is_continuous_In. rewrite Z2Nat.id by lia. exact Hz.
Qed.

(** Under a valid configuration the number of embedding layers is
    [_cat_feas_nums]. *)
Lemma categorical_count (input_dims cont : list Z) :
  NoDup cont ->
  Forall (fun i => 0 <= i < Z.of_nat (length input_dims))%Z cont ->
  Z.of_nat (length (filter (fun it => not_in (fst it) cont) (enumerate input_dims)))
  = (Z.of_nat (length input_dims) - Z.of_nat (length cont))%Z.
Proof.
  intros Hnd Hr. unfold enumerate.
  rewrite (filter_combine_seq_length (fun i => not_in i cont)).
  pose proof (filter_length (is_continuous cont) (seq 0 (length input_dims))) as E.
  rewrite length_seq, (continuous_count cont _ Hnd Hr) in E.
  replace (filter (fun i => not_in i cont) (seq 0 (length input_dims)))
    with (filter (fun x => negb (is_continuous cont x)) (seq 0 (length input_dims)))
    by reflexivity.
  lia.
Qed.

(* ------------------------------------------------------------------ *)
(** ** The blocks of [DeepFMBase.forward] on a valid input *)

Section ValidInput.

Variables (input_dims cont : list Z) (B : nat) (x : list torch_value).
Hypothesis Hx : valid_input input_dims cont B x.
Hypothesis Hdims : Forall (fun d => 0 < d)%Z input_dims.

(** Lines 105-108 and 127-130: every categorical slot holds [B] indices
    below its cardinality, so every lookup returns a (B, dim) tensor. *)
Lemma lookup_all_valid (dim : Z) :
  forall (items : list (nat * Z)) (layers : list (nat * Embedding)),
    Forall (fun it => In it (enumerate input_dims)
                      /\ not_in (fst it) cont = true) items ->
    Forall2 (layer_of dim) items layers ->
    exists res, lookup_all layers x = Ok res
                /\ Forall (fun t => shape t = [B; Z.to_nat dim]) res
                /\ length res = length layers.
Proof.
  intros items layers Hit H. revert Hit.
  induction H as [| [i d] [k e] items layers Hl _ IH]; intros Hit.
  - exists []. repeat split. constructor.
  - inversion Hit as [| ? ? [Hin Hnot] Hit']; subst.
    destruct (IH Hit') as [res [Hres [Hsh Hlen]]].
    destruct Hl as [Hk [Hnum [Hdim _]]]. cbn [fst snd] in *. subst k.
    apply In_enumerate in Hin.
    destruct (valid_input_nth _ _ _ _ _ _ Hx Hin) as [v [Hv Hslot]].
    unfold valid_slot in Hslot.
    rewrite not_in_is_continuous in Hnot.
    destruct (is_continuous cont i); [discriminate |].
    destruct Hslot as [t [-> [Ht Hrange]]].
    assert (Hd : (0 < d)%Z).
    { rewrite Forall_forall in Hdims. apply Hdims.
      eapply nth_error_In. exact Hin. }
    destruct (Embedding_forward_shape e t) as [r [Hr Sr]].
    { rewrite Hnum, Z2Nat.id by lia. exact Hrange. }
    exists (r :: res). unfold lookup_all in *. cbn [mapM fst snd].
    rewrite (getitem_nth_error _ _ _ Hv). cbn [bind Embedding_call].
    rewrite Hr. cbn [bind]. rewrite Hres. cbn [bind].
    split; [reflexivity |]. split.
    + constructor; [| exact Hsh]. rewrite Sr, Ht, Hdim. reflexivity.
    + simpl. rewrite Hlen. reflexivity.
Qed.

(** Lines 113-114 (with the sum of lines 80-82): the continuous slots are
    float tensors of shape (B, width), and the widths add up to
    [continuous_dim]. *)
Lemma dense_feas_valid :
  forall (idx : list Z) (acc c : Z),
    Forall (fun i => (0 <= i)%Z /\ In i cont) idx ->
    continuous_dim_of input_dims idx acc = Ok c ->
    (0 <= acc)%Z ->
    exists vs, mapM (getitem_int x) idx = Ok vs
               /\ Forall (fun v => exists t, v = FloatT t
                                             /\ shape t = [B; width t]) vs
               /\ Z.to_nat c
                  = (Z.to_nat acc
                     + fold_right Nat.add 0%nat (map (fun v => width (to_float v)) vs))%nat
               /\ length vs = length idx.
Proof.
  induction idx as [| i idx IH]; intros acc c Hidx Hc Hacc.
  - simpl in Hc. injection Hc as <-. exists []. simpl.
    repeat split; [constructor | lia].
  - inversion Hidx as [| ? ? [Hi Hin] Hidx']; subst.
    simpl in Hc.
    destruct (getitem_int input_dims i) as [d |] eqn:Ed; [| discriminate].
    simpl in Hc.
    unfold getitem_int in Ed.
    replace (0 <=? i)%Z with true in Ed by (symmetry; apply Z.leb_le; exact Hi).
    unfold getitem in Ed.
    destruct (nth_error input_dims (Z.to_nat i)) as [d' |] eqn:En; [| discriminate].
    injection Ed as ->.
    assert (Hd : (0 < d)%Z).
    { rewrite Forall_forall in Hdims. apply Hdims.
      eapply nth_error_In. exact En. }
    destruct (valid_input_nth _ _ _ _ _ _ Hx En) as [v [Hv Hslot]].
    unfold valid_slot in Hslot.
    assert (Hc' : is_continuous cont (Z.to_nat i) = true).
    { apply is_continuous_In. rewrite Z2Nat.id by exact Hi. exact Hin. }
    rewrite Hc' in Hslot. destruct Hslot as [t [-> Ht]].
    destruct (IH (acc + d)%Z c Hidx' Hc) as [vs [Hvs [Hsh [Hsum Hlen]]]]; [lia |].
    exists (FloatT t :: vs). cbn [mapM].
    unfold getitem_int at 1.
    replace (0 <=? i)%Z with true by (symmetry; apply Z.leb_le; exact Hi).
    rewrite (getitem_nth_error _ _ _ Hv). cbn [bind]. rewrite Hvs. cbn [bind].
    split; [reflexivity |]. split; [| split].
    + constructor; [| exact Hsh]. exists t. split; [reflexivity |].
      unfold width. rewrite Ht. reflexivity.
    + cbn [map fold_right to_float]. unfold width at 1. rewrite Ht. cbn [nth].
      rewrite Hsum. lia.
    + simpl. rewrite Hlen. reflexivity.
Qed.

End ValidInput.

Lemma second_order_stats_shape (B D : nat) (t0 : tensor) (rest : list tensor) :
  Forall (fun t => shape t = [B; D]) (t0 :: rest) ->
  exists s q di, second_order_stats (t0 :: rest) = Ok (s, q, di)
                 /\ shape di = [B; (S (length rest) * D)%nat].
Proof.
  intros H.
  destruct (torch_stack_shape B D t0 rest H) as [st [Hst Sst]].
  destruct (torch_sum_shape3 B (S (length rest)) D st Sst) as [s [Hs _]].
  destruct (torch_sum_shape3 B (S (length rest)) D (torch_pow st 2) Sst) as [q [Hq _]].
  destruct (torch_flatten1_shape B (S (length rest)) D st Sst) as [di [Hdi Sdi]].
  exists s, q, di. unfold second_order_stats. unfold tensor in *.
  rewrite Hst. cbn [bind]. rewrite Hs. cbn [bind].
  rewrite Hq. cbn [bind]. rewrite Hdi. cbn [bind].
  split; [reflexivity | exact Sdi].
Qed.

(** [torch.cat] of the continuous slots: a float tensor. *)
Lemma torch_cat_values_floats (B : nat) (vs : list torch_value) :
  vs <> [] ->
  Forall (fun v => exists t, v = FloatT t /\ shape t = [B; width t]) vs ->
  exists t, torch_cat_values vs 1 = Ok (FloatT t)
            /\ shape t
               = [B; fold_right Nat.add 0%nat (map (fun v => width (to_float v)) vs)].
Proof.
  intros Hne H. destruct vs as [| v vs]; [contradiction |].
  unfold torch_cat_values.
  inversion H as [| ? ? [t0 [-> Ht0]] Hrest]; subst.
  cbn [long_tensors map to_float].
  destruct (torch_cat_columns B t0 (map to_float vs)) as [t [Ht St]].
  - constructor; [exact Ht0 |]. apply Forall_map.
    eapply Forall_impl; [| exact Hrest].
    intros v [t [-> Hv]]. exact Hv.
  - exists t. unfold tensor in *. rewrite Ht. cbn [bind]. split; [reflexivity |].
    rewrite St. cbn [map fold_right]. rewrite map_map. reflexivity.
Qed.

(* ------------------------------------------------------------------ *)
(** ** [DeepFMBase.forward] on a valid input *)

Section ForwardSucceeds.

Variables (input_dims cont : list Z) (D : Z) (self : DeepFMBase).
Variables (B : nat) (x : list torch_value).
Hypothesis Hconfig : valid_config input_dims cont.
Hypothesis Hbuilt : built_for input_dims cont D self.
Hypothesis Hx : valid_input input_dims cont B x.

Lemma categorical_items_valid :
  Forall (fun it => In it (enumerate input_dims) /\ not_in (fst it) cont = true)
    (categorical_items input_dims cont).
Proof.
  apply Forall_forall. intros it Hit. apply filter_In in Hit. exact Hit.
Qed.

Lemma categorical_items_count :
  Z.of_nat (length (categorical_items input_dims cont))
  = (Z.of_nat (length input_dims) - Z.of_nat (length cont))%Z.
Proof.
  destruct Hconfig as [_ [_ [Hnd Hr]]].
  apply categorical_count; assumption.
Qed.

(** With categorical features there is at least one embedding layer. *)
Lemma categorical_items_nonempty :
  _has_cat_feas self = true -> (0 < length (categorical_items input_dims cont))%nat.
Proof.
  intros Hcat. destruct Hbuilt as [_ [_ [Hc _]]]. rewrite Hcat in Hc.
  symmetry in Hc. apply negb_true_iff in Hc. apply Nat.eqb_neq in Hc.
  pose proof categorical_items_count as E. lia.
Qed.

(** Lines 103-111. *)
Lemma fm_1st_sparse_valid :
  exists p, fm_1st_sparse self x = Ok p
            /\ (_has_cat_feas self = true -> exists t, p = Some t /\ shape t = [B; 1%nat])
            /\ (_has_cat_feas self = false -> p = None).
Proof.
  unfold fm_1st_sparse.
  destruct (_has_cat_feas self) eqn:Hcat.
  2: { exists None. split; [reflexivity |]. split; [discriminate | reflexivity]. }
  destruct Hbuilt as [_ [_ [_ [_ [Hsp _]]]]].
  destruct (Hsp Hcat) as [l1 [l2 [E1 [_ [F1 _]]]]].
  destruct Hconfig as [_ [Hdims _]].
  destruct (lookup_all_valid input_dims cont B x Hx Hdims 1 _ l1
              categorical_items_valid F1) as [res [Hres [Hsh Hlen]]].
  pose proof (categorical_items_nonempty Hcat) as Hpos.
  apply Forall2_length in F1.
  destruct res as [| r0 rest]; [simpl in Hlen; lia |].
  destruct (torch_cat_columns B r0 rest) as [c [Hc Sc]].
  { eapply Forall_impl; [| exact Hsh]. intros t Ht. cbv beta in Ht.
    unfold width. rewrite Ht. reflexivity. }
  destruct (torch_sum_shape2 B _ c true Sc) as [p [Hp Sp]].
  exists (Some p). rewrite E1. cbn [getattr bind].
  rewrite Hres. cbn [bind]. unfold tensor in *. rewrite Hc. cbn [bind].
  rewrite Hp. cbn [bind].
  split; [reflexivity |]. split; [| discriminate].
  intros _. exists p. split; [reflexivity | exact Sp].
Qed.

(** Lines 112-119. *)
Lemma fm_1st_dense_valid (fm_1st_part : option tensor) :
  (forall t, fm_1st_part = Some t -> shape t = [B; 1%nat]) ->
  exists dense_cat p,
    fm_1st_dense self x fm_1st_part = Ok (dense_cat, p)
    /\ (_has_cont_feas self = true ->
        exists c t, continuous_dim_of input_dims cont 0 = Ok c
                    /\ dense_cat = Some (FloatT t)
                    /\ shape t = [B; Z.to_nat c]).
Proof.
  intros Hp. unfold fm_1st_dense.
  destruct (_has_cont_feas self) eqn:Hcont.
  2: { exists None, fm_1st_part. split; [reflexivity | discriminate]. }
  destruct Hbuilt as [_ [Hidx [_ [Hc [_ [Hde _]]]]]].
  destruct (Hde Hcont) as [c [la [lb [Ec [Ea [Ha1 [Ha2 _]]]]]]].
  destruct Hconfig as [_ [Hdims [_ Hr]]].
  rewrite Hcont in Hc. symmetry in Hc. apply negb_true_iff in Hc.
  apply Nat.eqb_neq in Hc.
  destruct (dense_feas_valid input_dims cont B x Hx Hdims cont 0%Z c)
    as [vs [Hvs [Hsh [Hsum Hlen]]]]; [| exact Ec | lia |].
  { apply Forall_forall. intros i Hi. rewrite Forall_forall in Hr.
    split; [apply (Hr i Hi) | exact Hi]. }
  destruct (torch_cat_values_floats B vs) as [dc [Hdc Sdc]]; [| exact Hsh |].
  { intros ->. simpl in Hlen. lia. }
  change (Z.to_nat 0 + ?k)%nat with k in Hsum. rewrite <- Hsum in Sdc.
  destruct (Linear_forward_shape la B dc) as [r [Hr' Sr]];
    [rewrite Ha1; exact Sdc |].
  rewrite Ha2 in Sr.
  rewrite Hidx, Hvs. cbn [bind]. rewrite Hdc. cbn [bind].
  rewrite Ea. cbn [getattr bind Linear_call]. rewrite Hr'. cbn [bind].
  destruct fm_1st_part as [p |].
  - destruct (torch_add_shape [B; 1%nat] p r (Hp p eq_refl) Sr) as [q [Hq _]].
    rewrite Hq. cbn [bind]. eexists. eexists. split; [reflexivity |].
    intros _. exists c, dc. repeat split; assumption.
  - eexists. eexists. split; [reflexivity |].
    intros _. exists c, dc. repeat split; assumption.
Qed.

Lemma second_part_dim_categorical :
  _has_cat_feas self = true ->
  Z.to_nat (second_part_dim_of input_dims cont D)
  = (length (categorical_items input_dims cont) * Z.to_nat D)%nat.
Proof.
  intros Hcat. pose proof Hbuilt as [_ [_ [Hc [_ [Hsp _]]]]].
  destruct (Hsp Hcat) as [l1 [l2 [_ [_ [_ F2]]]]].
  pose proof (categorical_items_nonempty Hcat) as Hpos.
  assert (HD : (0 <= D)%Z).
  { clear - F2 Hpos.
    remember (categorical_items input_dims cont) as items eqn:Eit.
    destruct F2 as [| it kv items' l2' Hl _]; [simpl in Hpos; lia |].
    destruct Hl as [_ [_ [_ H0]]]. exact H0. }
  unfold second_part_dim_of. rewrite <- Hc, Hcat.
  rewrite <- categorical_items_count.
  rewrite Z2Nat.inj_mul by lia. rewrite Nat2Z.id. reflexivity.
Qed.

(** Lines 123-137. *)
Lemma fm_2nd_sparse_valid :
  exists s q di,
    fm_2nd_sparse self x = Ok (s, q, di)
    /\ (_has_cat_feas self = true ->
        exists t, di = Some t
                  /\ shape t = [B; Z.to_nat (second_part_dim_of input_dims cont D)])
    /\ (_has_cat_feas self = false -> di = None).
Proof.
  unfold fm_2nd_sparse.
  destruct (_has_cat_feas self) eqn:Hcat.
  2: { exists None, None, None. split; [reflexivity |].
       split; [discriminate | reflexivity]. }
  pose proof Hbuilt as [_ [_ [_ [_ [Hsp _]]]]].
  destruct (Hsp Hcat) as [l1 [l2 [_ [E2 [_ F2]]]]].
  destruct Hconfig as [_ [Hdims _]].
  destruct (lookup_all_valid input_dims cont B x Hx Hdims D _ l2
              categorical_items_valid F2) as [res [Hres [Hsh Hlen]]].
  pose proof (categorical_items_nonempty Hcat) as Hpos.
  pose proof (second_part_dim_categorical Hcat) as Hspd.
  apply Forall2_length in F2.
  destruct res as [| r0 rest]; [simpl in Hlen; lia |].
  destruct (second_order_stats_shape B (Z.to_nat D) r0 rest Hsh)
    as [s [q [di [Hst Sdi]]]].
  exists (Some s), (Some q), (Some di).
  rewrite E2. cbn [getattr bind]. rewrite Hres. cbn [bind].
  rewrite Hst. cbn [bind fst snd].
  split; [reflexivity |]. split; [| discriminate].
  intros _. exists di. split; [reflexivity |].
  rewrite Sdi, Hspd, F2, <- Hlen. reflexivity.
Qed.

(** Lines 138-143. *)
Lemma dnn_input_dense_valid (dense_cat : option torch_value)
    (dnn_input : option tensor) :
  (_has_cont_feas self = true ->
   exists c t, continuous_dim_of input_dims cont 0 = Ok c
               /\ dense_cat = Some (FloatT t)
               /\ shape t = [B; Z.to_nat c]) ->
  (forall t, dnn_input = Some t ->
             shape t = [B; Z.to_nat (second_part_dim_of input_dims cont D)]) ->
  (_has_cont_feas self = false -> exists t, dnn_input = Some t) ->
  exists t, dnn_input_dense self dense_cat dnn_input = Ok (Some t)
            /\ shape t = [B; Z.to_nat (second_part_dim_of input_dims cont D)].
Proof.
  intros Hdense Hshape Hsome. unfold dnn_input_dense.
  destruct (_has_cont_feas self) eqn:Hcont.
  2: { destruct (Hsome eq_refl) as [t ->]. exists t.
       split; [reflexivity | apply Hshape; reflexivity]. }
  destruct (Hdense eq_refl) as [c [dc [Ec [-> Sdc]]]].
  pose proof Hbuilt as [_ [_ [_ [_ [_ [Hde _]]]]]].
  destruct (Hde Hcont) as [c' [la [lb [Ec' [_ [_ [_ [El [Hb1 Hb2]]]]]]]]].
  rewrite Ec in Ec'. injection Ec' as <-.
  destruct (Sequential_forward_shape B [ModLinear lb; ModReLU]
              (Z.to_nat c) (out_features lb) dc) as [o [Ho So]].
  { cbn [dnn_chain]. rewrite Hb1, Nat.eqb_refl. reflexivity. }
  { exact Sdc. }
  rewrite Hb2 in So.
  rewrite El. cbn [getattr bind Sequential_call]. rewrite Ho. cbn [bind].
  destruct dnn_input as [i |].
  - destruct (torch_add_shape _ i o (Hshape i eq_refl) So) as [r [Hr Sr]].
    rewrite Hr. cbn [bind]. exists r. split; [reflexivity | exact Sr].
  - exists o. split; [reflexivity | exact So].
Qed.

(** On a valid input of a module built for a valid configuration,
    [forward] returns. *)
Lemma DeepFMBase_forward_valid :
  exists out, DeepFMBase_forward self (ArgList x) = Ok out.
Proof.
  unfold DeepFMBase_forward. cbn [arg_list].
  pose proof Hbuilt as [Hsize [_ [Hcat [Hcont [_ [_ [d' Hchain]]]]]]].
  rewrite Hsize, (valid_input_length _ _ _ _ Hx), Nat.eqb_refl.
  cbn [py_assert bind].
  destruct fm_1st_sparse_valid as [p1 [E1 [Hp1 Hp1n]]].
  rewrite E1. cbn [bind].
  destruct (fm_1st_dense_valid p1) as [dense_cat [p2 [E2 Hdense]]].
  { intros t ->. destruct (_has_cat_feas self) eqn:Ecat.
    - destruct (Hp1 eq_refl) as [t' [Et St]]. injection Et as ->. exact St.
    - discriminate (Hp1n eq_refl). }
  rewrite E2. cbn [bind fst snd].
  destruct fm_2nd_sparse_valid as [s [q [di [E3 [Hdi Hnone]]]]].
  rewrite E3. cbn [bind fst snd].
  destruct (dnn_input_dense_valid dense_cat di Hdense) as [t [E4 St]].
  { intros t ->. destruct (_has_cat_feas self) eqn:Ecat.
    - destruct (Hdi eq_refl) as [t' [Et St]]. injection Et as ->. exact St.
    - discriminate (Hnone eq_refl). }
  { intros Hc. destruct (_has_cat_feas self) eqn:Ecat.
    - destruct (Hdi eq_refl) as [t' [Et _]]. exists t'. exact Et.
    - exfalso. destruct Hconfig as [Hn _].
      rewrite Hc in Hcont. symmetry in Hcont. apply negb_false_iff in Hcont.
      symmetry in Hcat. apply negb_false_iff in Hcat.
      apply Nat.eqb_eq in Hcont, Hcat. lia. }
  rewrite E4. cbn [bind].
  destruct (Sequential_forward_shape B (_dnn_layer self) _ d' t Hchain St)
    as [o [Ho _]].
  unfold dnn_layer_call. rewrite Ho. cbn [bind].
  destruct (_has_cat_feas self); eexists; reflexivity.
Qed.

End ForwardSucceeds.

(* ------------------------------------------------------------------ *)
(** ** The sentinel *)

(** C10. The test [torch.equal(t, torch.tensor(0))] is false of every
    tensor of shape (batch, D), whatever its entries, and true only of the
    0-dimensional zero tensor.  Hence when the statistics of the first two
    parties are (batch, D)-shaped, the fusion module takes neither
    substitution branch: it stacks the statistics of all parties. *)
Theorem sentinel_test_no_false_positive
    (t : tensor) (B D : nat) (x : list tensor) (s0 q0 s1 q1 : tensor) :
  (shape t = [B; D] -> torch_equal t (torch_tensor 0) = false)
  /\ (torch_equal t (torch_tensor 0) = true -> t = torch_tensor_float32 0)
  /\ (nth_error x 2 = Some s0 -> nth_error x 3 = Some q0 ->
      nth_error x 6 = Some s1 -> nth_error x 7 = Some q1 ->
      shape s0 = [B; D] -> shape q0 = [B; D] ->
      shape s1 = [B; D] -> shape q1 = [B; D] ->
      fuse_sum_embs x = torch_stack (slice_from_step x 2 4) 1
      /\ fuse_square_and_sum_emb x
         = (st <- torch_stack (slice_from_step x 3 4) 1 ;; torch_sum st 1 false)).
Proof.
  split; [| split].
  - intros H. apply torch_equal_zero_ranked. rewrite H. discriminate.
  - apply torch_equal_zero_iff.
  - intros H2 H3 H6 H7 S0 Q0 S1 Q1. split.
    + apply (fuse_sum_embs_both_real x s0 s1 H2 H6).
      * rewrite S0. discriminate.
      * rewrite S1. discriminate.
    + apply (fuse_square_and_sum_emb_both_real x q0 q1 H3 H7).
      * rewrite Q0. discriminate.
      * rewrite Q1. discriminate.
Qed.

Lemma sentinel_test_no_false_positive_witness :
  torch_equal (Examples.T [1; 2]%nat [0; 0]%Z) (torch_tensor 0) = false
  /\ fuse_sum_embs Examples.two_real
     = torch_stack (slice_from_step Examples.two_real 2 4) 1.
Proof.
  destruct (sentinel_test_no_false_positive
              (Examples.T [1; 2]%nat [0; 0]%Z) 1 2 Examples.two_real
              (Examples.T [1; 2]%nat [1; 2]%Z) (Examples.T [1; 2]%nat [1; 4]%Z)
              (Examples.T [1; 2]%nat [3; 4]%Z) (Examples.T [1; 2]%nat [9; 16]%Z))
    as [H1 [_ H3]].
  split.
  - apply H1. reflexivity.
  - apply H3; reflexivity.
Defined.

(* ------------------------------------------------------------------ *)
(** ** The output tuple of DeepFMBase *)

Ltac step_bind H :=
  match type of H with
  | bind ?c _ = Ok _ =>
      let E := fresh "E" in
      destruct c eqn:E; simpl in H; [| discriminate H]
  end.

(** What [forward] returns has four elements, the last two being the
    sentinel when the party has no categorical features. *)
Lemma base_forward_returns (self : DeepFMBase) (x : forward_arg)
    (out : list (option tensor)) :
  DeepFMBase_forward self x = Ok out ->
  length out = 4%nat
  /\ (_has_cat_feas self = false ->
      nth_error out 2 = Some (Some (torch_tensor_float32 0))
      /\ nth_error out 3 = Some (Some (torch_tensor_float32 0))).
Proof.
  unfold DeepFMBase_forward. intros H.
  repeat step_bind H.
  destruct (_has_cat_feas self); injection H as <-.
  - split; [reflexivity | discriminate].
  - split; [reflexivity |]. intros _. split; reflexivity.
Qed.

(** C5. [output_num] is 4.  For every valid configuration (at least one
    slot, positive cardinalities and widths, the continuous indices
    distinct slot positions; so categorical-only, continuous-only or mixed)
    whose construction succeeded, and every input that fits it, [forward]
    returns, and returns a list of exactly four elements; when the party
    has no categorical features (every slot is continuous) the third and
    the fourth are the sentinel, a 0-dimensional tensor holding 0, not a
    vector of width D.  Whatever the module and the input, a list returned
    by [forward] has four elements. *)
Theorem base_output_tuple
    (rng : Type) (sample : rng -> nat -> list Qc * rng)
    (input_dims : dims_arg) (dnn_units_size : list Z)
    (continuous_feas_index : option (list Z)) (fm_embedding_dim : Z)
    (g g' : rng) (self : DeepFMBase) (B : nat) (x : list torch_value) :
  valid_config (dims_list input_dims) (index_list continuous_feas_index) ->
  DeepFMBase_init rng sample input_dims dnn_units_size continuous_feas_index
    fm_embedding_dim g = Ok (self, g') ->
  valid_input (dims_list input_dims) (index_list continuous_feas_index) B x ->
  DeepFMBase_output_num self = 4%Z
  /\ (exists out,
        DeepFMBase_forward self (ArgList x) = Ok out
        /\ length out = 4%nat
        /\ (length (index_list continuous_feas_index) = length (dims_list input_dims) ->
            nth_error out 2 = Some (Some (torch_tensor_float32 0))
            /\ nth_error out 3 = Some (Some (torch_tensor_float32 0))))
  /\ shape (torch_tensor_float32 0) = []
  /\ data (torch_tensor_float32 0) = [0]
  /\ (forall D : nat, torch_tensor_float32 0 <> mkArray [D] (repeat 0 D))
  /\ (forall (m : DeepFMBase) (a : forward_arg) (out : list (option tensor)),
        DeepFMBase_forward m a = Ok out -> length out = 4%nat).
Proof.
  intros Hconfig Hinit Hx.
  pose proof (DeepFMBase_init_built rng sample _ _ _ _ _ _ _ Hinit) as Hbuilt.
  split; [reflexivity |].
  split; [| split; [reflexivity | split; [reflexivity | split; [discriminate |]]]].
  - destruct (DeepFMBase_forward_valid _ _ _ _ _ _ Hconfig Hbuilt Hx) as [out Hout].
    exists out. split; [exact Hout |].
    destruct (base_forward_returns _ _ _ Hout) as [H4 Hs].
    split; [exact H4 |].
    intros Hall. apply Hs.
    destruct Hbuilt as [_ [_ [Hcat _]]].
    rewrite Hcat, Hall, Nat.eqb_refl. reflexivity.
  - intros m a out Hout. apply (base_forward_returns _ _ _ Hout).
Qed.

Lemma example_party_built {G : Type} (r : result (DeepFMBase * G)) (m : DeepFMBase) :
  (forall e, r <> Raise e) -> exists g', r = Ok (built r m, g').
Proof.
  intros H. destruct r as [[a g'] | e].
  - exists g'. reflexivity.
  - contradiction (H e). reflexivity.
Qed.

Ltac solve_config :=
  repeat constructor; simpl; first [lia | intuition discriminate].

(** The three kinds of party of the examples return their four elements. *)
Lemma base_output_tuple_witness :
  (exists out, DeepFMBase_forward Examples.cont_party Examples.cont_input = Ok out
               /\ length out = 4%nat
               /\ nth_error out 2 = Some (Some (torch_tensor_float32 0))
               /\ nth_error out 3 = Some (Some (torch_tensor_float32 0)))
  /\ (exists out, DeepFMBase_forward Examples.cat_party Examples.cat_input = Ok out
                  /\ length out = 4%nat)
  /\ (exists out, DeepFMBase_forward Examples.mixed_party Examples.mixed_input = Ok out
                  /\ length out = 4%nat).
Proof.
  split; [| split].
  - destruct (example_party_built
                (DeepFMBase_init nat Examples.counter_sample (DimsList [1; 1]%Z) [8%Z]
                   (Some [0; 1]%Z) 4 0%nat) Examples.no_module) as [g' Hinit];
      [intros e; vm_compute; discriminate |].
    assert (Hc : valid_config (dims_list (DimsList [1; 1]%Z))
                   (index_list (Some [0; 1]%Z))) by solve_config.
    destruct (base_output_tuple nat Examples.counter_sample
                (DimsList [1; 1]%Z) [8%Z] (Some [0; 1]%Z) 4 0%nat g'
                Examples.cont_party 2
                [FloatT (Examples.T [2; 1]%nat [1; 2]%Z);
                 FloatT (Examples.T [2; 1]%nat [3; 4]%Z)]
                Hc Hinit)
      as [_ [[out [Hout [H4 Hs]]] _]].
    + repeat constructor; eexists; split; reflexivity.
    + exists out. split; [exact Hout |]. split; [exact H4 |].
      apply Hs. reflexivity.
  - destruct (example_party_built
                (DeepFMBase_init nat Examples.counter_sample (DimsList [5; 5; 5]%Z)
                   [8%Z] None 4 0%nat) Examples.no_module) as [g' Hinit];
      [intros e; vm_compute; discriminate |].
    assert (Hc : valid_config (dims_list (DimsList [5; 5; 5]%Z)) (index_list None))
      by solve_config.
    destruct (base_output_tuple nat Examples.counter_sample
                (DimsList [5; 5; 5]%Z) [8%Z] None 4 0%nat g'
                Examples.cat_party 2
                [LongT (mkArray [2%nat] [0; 4]%Z); LongT (mkArray [2%nat] [1; 1]%Z);
                 LongT (mkArray [2%nat] [3; 2]%Z)]
                Hc Hinit)
      as [_ [[out [Hout [H4 _]]] _]].
    + repeat constructor; eexists; (split; [reflexivity |]);
        (split; [reflexivity |]); repeat constructor; lia.
    + exists out. split; [exact Hout | exact H4].
  - destruct (example_party_built
                (DeepFMBase_init nat Examples.counter_sample (DimsList [5; 1]%Z)
                   [8%Z] (Some [1]%Z) 4 0%nat) Examples.no_module) as [g' Hinit];
      [intros e; vm_compute; discriminate |].
    assert (Hc : valid_config (dims_list (DimsList [5; 1]%Z)) (index_list (Some [1]%Z)))
      by solve_config.
    destruct (base_output_tuple nat Examples.counter_sample
                (DimsList [5; 1]%Z) [8%Z] (Some [1]%Z) 4 0%nat g'
                Examples.mixed_party 2
                [LongT (mkArray [2%nat] [0; 4]%Z);
                 FloatT (Examples.T [2; 1]%nat [3; 4]%Z)]
                Hc Hinit)
      as [_ [[out [Hout [H4 _]]] _]].
    + constructor; [| constructor; [| constructor]].
      * eexists. split; [reflexivity |]. split; [reflexivity |].
        repeat constructor; lia.
      * eexists. split; reflexivity.
    + exists out. split; [exact Hout | exact H4].
Defined.

(* ------------------------------------------------------------------ *)
(** ** The fused output *)

(** C1, as the code has it.  For two or more parties that all sent real
    statistics, the pre-sigmoid output is the fusion network applied to the
    concatenated DNN branches, plus 0.5 times the sum over the embedding
    dimension of (S squared minus Q), plus the party-wise sum of the
    first-order terms counted [D] times: line 216 adds the (B, 1)-shaped
    first-order term to every one of the [D] columns before line 217 sums
    over them. *)
Theorem fuse_outputs_real_parties (self : DeepFMFuse) (B D : nat)
    (p0 p1 : party_tuple) (rest : list party_tuple) :
  Forall (real_party B D) (p0 :: p1 :: rest) ->
  DeepFMFuse_outputs self (flat (p0 :: p1 :: rest))
  = outputs_formula (Z2Qc (Z.of_nat D)) self B D (p0 :: p1 :: rest).
Proof.
  intros H. unfold DeepFMFuse_outputs, outputs_formula.
  rewrite slice_flat_0.
  destruct (torch_cat (map dnn_out (p0 :: p1 :: rest)) 1) as [dnn_outputs | e];
    [| reflexivity].
  cbn [bind].
  unfold fuse_fm_1st_part. rewrite slice_flat_1.
  pose proof (real_party_first_order B D _ H) as Hf.
  pose proof (real_party_sum_emb B D _ H) as Hs.
  pose proof (real_party_square_and_sum_emb B D _ H) as Hq.
  cbn [map] in Hf |- *.
  rewrite (sum_of_stack B 1 _ _ Hf). cbn [bind].
  pose proof (fuse_second_order_all_real B D p0 p1 rest H) as E.
  cbn [map] in E. rewrite E. cbn [bind].
  set (second := second_order_of _ _) in *.
  set (f := tensor_sum [B; 1%nat] _) in *.
  assert (Hsecond : matrix B D second).
  { apply matrix_scalar_mul. apply matrix_zip_with.
    - apply matrix_torch_pow. apply matrix_tensor_sum. exact Hs.
    - apply matrix_tensor_sum. exact Hq. }
  assert (Hfirst : matrix B 1 f) by (apply matrix_tensor_sum; exact Hf).
  pose proof (fm_2nd_part_formula B D second f Hsecond Hfirst) as E2.
  destruct (torch_add second f) as [sub | e]; [| discriminate E2].
  cbn [bind] in E2 |- *. rewrite E2. reflexivity.
Qed.

Lemma fuse_outputs_real_parties_witness :
  DeepFMFuse_outputs (Examples.fuse 2) Examples.two_real
  = outputs_formula (Z2Qc 2) (Examples.fuse 2) 1 2
      [Examples.party_a; Examples.party_b]
  /\ DeepFMFuse_outputs (Examples.fuse 2) Examples.two_real
     = Ok (Examples.T [1; 1]%nat [74]%Z).
Proof.
  split.
  - apply (fuse_outputs_real_parties (Examples.fuse 2) 1 2
             Examples.party_a Examples.party_b []).
    repeat constructor.
  - evaluate.
Defined.

(** C1 fails as stated: for the two parties of the examples (D = 2,
    first-order terms 10 and 20) the pre-sigmoid output is
    3 + 11 + 2 * 30 = 74, where adding the first-order sum once gives 44. *)
Lemma fuse_counts_first_order_per_dimension :
  DeepFMFuse_outputs (Examples.fuse 2) Examples.two_real
  = Ok (Examples.T [1; 1]%nat [74]%Z)
  /\ outputs_formula 1 (Examples.fuse 2) 1 2 [Examples.party_a; Examples.party_b]
     = Ok (Examples.T [1; 1]%nat [44]%Z)
  /\ DeepFMFuse_outputs (Examples.fuse 2) Examples.two_real
     <> outputs_formula 1 (Examples.fuse 2) 1 2 [Examples.party_a; Examples.party_b].
Proof.
  assert (E1 : DeepFMFuse_outputs (Examples.fuse 2) Examples.two_real
               = Ok (Examples.T [1; 1]%nat [74]%Z)) by evaluate.
  assert (E2 : outputs_formula 1 (Examples.fuse 2) 1 2
                 [Examples.party_a; Examples.party_b]
               = Ok (Examples.T [1; 1]%nat [44]%Z)) by evaluate.
  split; [exact E1 |]. split; [exact E2 |].
  rewrite E1, E2. intros H.
  apply (f_equal (fun r => yields r (Examples.T [1; 1]%nat [44]%Z))) in H.
  vm_compute in H. discriminate H.
Qed.

(** C3. Two parties, of which one has no categorical features and sends
    the sentinel that [DeepFMBase.forward] emits, the other sends real
    statistics [sA], [qA]: in either order the reconstructed second-order
    term is [0.5 * (sA^2 - qA)], which is the reconstruction formula
    applied to the party with categorical features alone. *)
Theorem two_party_sentinel_substitution
    (selfB : DeepFMBase) (xB : forward_arg) (dB fB sB qB : tensor)
    (dA fA sA qA : tensor) (B D : nat) :
  _has_cat_feas selfB = false ->
  DeepFMBase_forward selfB xB = Ok [Some dB; Some fB; Some sB; Some qB] ->
  matrix B D sA -> matrix B D qA ->
  fuse_second_order [dA; fA; sA; qA; dB; fB; sB; qB] = Ok (second_order_of sA qA)
  /\ fuse_second_order [dB; fB; sB; qB; dA; fA; sA; qA] = Ok (second_order_of sA qA)
  /\ second_order_of sA qA
     = second_order_of (tensor_sum [B; D] [sA]) (tensor_sum [B; D] [qA]).
Proof.
  intros Hcat Hfwd Hs Hq.
  destruct (base_forward_returns selfB xB _ Hfwd) as [_ Hsent].
  destruct (Hsent Hcat) as [H2 H3].
  cbn [nth_error] in H2, H3.
  injection H2 as ->. injection H3 as ->.
  split; [| split].
  - apply (fuse_second_order_second_absent B D); assumption.
  - apply (fuse_second_order_first_absent B D); assumption.
  - rewrite !(tensor_sum_single B D) by assumption. reflexivity.
Qed.

Lemma two_party_sentinel_substitution_witness :
  fuse_second_order (flat [Examples.cat_tuple; Examples.cont_tuple])
  = Ok (second_order_of (sum_emb Examples.cat_tuple)
          (square_and_sum_emb Examples.cat_tuple))
  /\ fuse_second_order (flat [Examples.cont_tuple; Examples.cat_tuple])
     = Ok (second_order_of (sum_emb Examples.cat_tuple)
             (square_and_sum_emb Examples.cat_tuple)).
Proof.
  destruct (two_party_sentinel_substitution
              Examples.cont_party Examples.cont_input
              (dnn_out Examples.cont_tuple) (first_order Examples.cont_tuple)
              (sum_emb Examples.cont_tuple) (square_and_sum_emb Examples.cont_tuple)
              (dnn_out Examples.cat_tuple) (first_order Examples.cat_tuple)
              (sum_emb Examples.cat_tuple) (square_and_sum_emb Examples.cat_tuple)
              2 4)
    as [H1 [H2 _]].
  - reflexivity.
  - vm_compute. reflexivity.
  - split; vm_compute; reflexivity.
  - split; vm_compute; reflexivity.
  - split; [exact H1 | exact H2].
Defined.

(** C4 on three parties, the code evaluated.  When the first party sent
    the sentinel, the second-order term is built from the second party's
    statistics alone and the third party's are dropped: the examples give
    [0, 0] where the statistics of the two parties with real vectors give
    [3, 8].  When the third party sent the sentinel, line 206 raises. *)
Theorem fuse_three_parties_with_sentinel :
  fuse_second_order Examples.three_first_absent
  = Ok (Examples.T [1; 2]%nat [0; 0]%Z)
  /\ second_order_of
       (tensor_sum [1; 2]%nat [sum_emb Examples.party_a; sum_emb Examples.party_b])
       (tensor_sum [1; 2]%nat [square_and_sum_emb Examples.party_a;
                               square_and_sum_emb Examples.party_b])
     = Examples.T [1; 2]%nat [3; 8]%Z
  /\ fuse_second_order Examples.three_last_absent = Raise RuntimeError.
Proof.
  split; [evaluate |]. split; [| reflexivity].
  apply tensor_eqb_eq. vm_compute. reflexivity.
Qed.

(* ------------------------------------------------------------------ *)
(** ** The factorization-machine identity *)

(** C2. For one party with any positive number of categorical slots and
    any (B, D)-shaped embeddings, lines 131-137 return [sum_emb] and
    [square_and_sum_emb], and 0.5 times ([sum_emb] squared minus
    [square_and_sum_emb]), summed over the embedding dimension, is for each
    example the sum of the interactions [<e_i, e_j>] over all pairs of
    distinct slots.  Arithmetic is exact. *)
Theorem fm_pairwise_identity (B D : nat) (e0 : tensor) (rest : list tensor) :
  Forall (matrix B D) (e0 :: rest) ->
  exists sum_emb square_and_sum_emb dnn_input,
    second_order_stats (e0 :: rest) = Ok (sum_emb, square_and_sum_emb, dnn_input)
    /\ (diff <- torch_sub (torch_pow sum_emb 2) square_and_sum_emb ;;
        torch_sum (scalar_mul half diff) 1 true)
       = Ok (pairwise_interactions B D (e0 :: rest)).
Proof.
  intros H.
  rewrite (second_order_stats_matrices B D e0 rest H).
  eexists. eexists. eexists. split; [reflexivity |].
  pose proof (matrix_map_torch_pow B D 2 _ H) as H2.
  set (es := e0 :: rest) in *.
  assert (Hs : matrix B D (tensor_sum [B; D] es))
    by (apply matrix_tensor_sum; exact H).
  assert (Hq : matrix B D (tensor_sum [B; D] (map (fun e => torch_pow e 2) es)))
    by (apply matrix_tensor_sum; exact H2).
  unfold torch_sub.
  rewrite (broadcast_op_matrices Qcminus B D)
    by (try apply matrix_torch_pow; assumption).
  cbn [bind].
  assert (Hm : matrix B D
                 (scalar_mul half
                    (zip_with Qcminus (torch_pow (tensor_sum [B; D] es) 2)
                       (tensor_sum [B; D] (map (fun e => torch_pow e 2) es))))).
  { apply matrix_scalar_mul. apply matrix_zip_with; [apply matrix_torch_pow |];
      assumption. }
  destruct Hm as [Sm Lm].
  rewrite (tensor_eta (scalar_mul half _)). rewrite Sm.
  rewrite torch_sum_matrix_keepdim by exact Lm.
  unfold pairwise_interactions, example_rows, rows.
  apply (f_equal (fun d => Ok (mkArray [B; 1%nat] d))).
  pose proof (row_totals_pairwise D B (map data es) (matrix_lengths B D es H)) as E.
  rewrite map_map in E.
  etransitivity; [| etransitivity; [exact E |]].
  - unfold scalar_mul, zip_with, torch_pow, tmap, tensor_sum, second_order_data.
    cbn [data shape numel fold_right]. rewrite Nat.mul_1_r.
    rewrite (map_map (fun e => mkArray (shape e) (map (fun v => v ^ 2) (data e))) data).
    reflexivity.
  - apply map_ext. intros b. rewrite map_map. reflexivity.
Qed.

Lemma fm_pairwise_identity_witness :
  exists sum_emb square_and_sum_emb dnn_input,
    second_order_stats
      [Examples.T [1; 2]%nat [1; 2]%Z; Examples.T [1; 2]%nat [3; 4]%Z;
       Examples.T [1; 2]%nat [5; 6]%Z]
    = Ok (sum_emb, square_and_sum_emb, dnn_input)
    /\ (diff <- torch_sub (torch_pow sum_emb 2) square_and_sum_emb ;;
        torch_sum (scalar_mul half diff) 1 true)
       = Ok (pairwise_interactions 1 2
               [Examples.T [1; 2]%nat [1; 2]%Z; Examples.T [1; 2]%nat [3; 4]%Z;
                Examples.T [1; 2]%nat [5; 6]%Z]).
Proof.
  apply (fm_pairwise_identity 1 2).
  repeat constructor.
Defined.

(* ------------------------------------------------------------------ *)
(** ** Further properties of DeepFMFuse *)

(** X1. De-interleaving by stride 4 undoes the flat concatenation of the
    party tuples: [x[k::4]] of lines 195-213 is the list of the [k]-th
    element of every party, in party order, and the flat list has four
    entries per party. *)
Theorem flat_deinterleave (ps : list party_tuple) :
  slice_from_step (flat ps) 0 4 = map dnn_out ps
  /\ slice_from_step (flat ps) 1 4 = map first_order ps
  /\ slice_from_step (flat ps) 2 4 = map sum_emb ps
  /\ slice_from_step (flat ps) 3 4 = map square_and_sum_emb ps
  /\ length (flat ps) = (4 * length ps)%nat.
Proof.
  repeat split.
  - apply slice_flat_0.
  - apply slice_flat_1.
  - apply slice_flat_2.
  - apply slice_flat_3.
  - unfold flat. induction ps as [| p ps IH]; [reflexivity |].
    cbn [flat_map app length]. rewrite IH. lia.
Qed.

Lemma torch_unsqueeze_scalar {A} (t : ndarray A) :
  shape t = [] -> torch_unsqueeze t 1 = Raise IndexError.
Proof. intros H. unfold torch_unsqueeze, dim. rewrite H. reflexivity. Qed.

Lemma fuse_sum_embs_two_absent (x : list tensor) (s1 : tensor) :
  nth_error x 2 = Some (torch_tensor_float32 0) ->
  nth_error x 6 = Some s1 -> shape s1 = [] ->
  fuse_sum_embs x = Raise IndexError.
Proof.
  intros H2 H6 Hs. unfold fuse_sum_embs.
  rewrite (getitem_nth_error _ _ _ H2). cbn [bind].
  rewrite torch_equal_sentinel.
  rewrite (getitem_nth_error _ _ _ H6). cbn [bind].
  apply torch_unsqueeze_scalar. exact Hs.
Qed.

Lemma DeepFMFuse_forward_sum_embs (self : DeepFMFuse) (x : list tensor) :
  raises (fuse_sum_embs x) -> raises (DeepFMFuse_forward self x).
Proof.
  intros H. unfold DeepFMFuse_forward. apply raises_bind.
  apply DeepFMFuse_outputs_raises. unfold fuse_second_order.
  apply raises_bind. exact H.
Qed.

(** X2. Two parties that both have no categorical features cannot be
    fused: both send the sentinel, line 200 takes the second party's
    0-dimensional sentinel as [sum_embs], and [torch.unsqueeze(_, dim=1)]
    of line 201 raises; no prediction is returned. *)
Theorem fuse_two_parties_without_categorical
    (a b : DeepFMBase) (xa xb : forward_arg) (fuse : DeepFMFuse)
    (d0 f0 s0 q0 d1 f1 s1 q1 : tensor) :
  _has_cat_feas a = false -> _has_cat_feas b = false ->
  DeepFMBase_forward a xa = Ok [Some d0; Some f0; Some s0; Some q0] ->
  DeepFMBase_forward b xb = Ok [Some d1; Some f1; Some s1; Some q1] ->
  fuse_sum_embs [d0; f0; s0; q0; d1; f1; s1; q1] = Raise IndexError
  /\ raises (DeepFMFuse_forward fuse [d0; f0; s0; q0; d1; f1; s1; q1]).
Proof.
  intros Ha Hb Fa Fb.
  destruct (base_forward_returns a xa _ Fa) as [_ Sa].
  destruct (base_forward_returns b xb _ Fb) as [_ Sb].
  destruct (Sa Ha) as [Ea _]. destruct (Sb Hb) as [Eb _].
  cbn [nth_error] in Ea, Eb. injection Ea as ->. injection Eb as ->.
  assert (E : fuse_sum_embs
                [d0; f0; torch_tensor_float32 0; q0;
                 d1; f1; torch_tensor_float32 0; q1] = Raise IndexError).
  { apply (fuse_sum_embs_two_absent _ (torch_tensor_float32 0)); reflexivity. }
  split; [exact E |].
  apply DeepFMFuse_forward_sum_embs. rewrite E. apply raises_Raise.
Qed.

Lemma fuse_two_parties_without_categorical_witness :
  raises (DeepFMFuse_forward (Examples.fuse 16)
            (flat [Examples.cont_tuple; Examples.cont_tuple])).
Proof.
  apply (fuse_two_parties_without_categorical
           Examples.cont_party Examples.cont_party
           Examples.cont_input Examples.cont_input (Examples.fuse 16)
           (dnn_out Examples.cont_tuple) (first_order Examples.cont_tuple)
           (sum_emb Examples.cont_tuple) (square_and_sum_emb Examples.cont_tuple)
           (dnn_out Examples.cont_tuple) (first_order Examples.cont_tuple)
           (sum_emb Examples.cont_tuple) (square_and_sum_emb Examples.cont_tuple)).
  - reflexivity.
  - reflexivity.
  - vm_compute. reflexivity.
  - vm_compute. reflexivity.
Defined.

(* ------------------------------------------------------------------ *)
(** ** The network of DeepFMFuse *)

Lemma dnn_chain_app (ms1 ms2 : Sequential) :
  forall d d1 : nat,
    dnn_chain d ms1 = Some d1 ->
    dnn_chain d (ms1 ++ ms2) = dnn_chain d1 ms2.
Proof.
  induction ms1 as [| m ms1 IH]; intros d d1 H; simpl in *.
  - injection H as <-. reflexivity.
  - destruct m as [l |].
    + destruct (d =? in_features l)%nat; [| discriminate]. apply IH. exact H.
    + apply IH. exact H.
Qed.

Lemma last_cons_default {A} (a : A) (l : list A) (d d' : A) :
  last (a :: l) d = last (a :: l) d'.
Proof.
  revert a. induction l as [| b l IH]; intros a; [reflexivity |].
  change (last (b :: l) d = last (b :: l) d'). apply IH.
Qed.

Section FuseConstruction.

Variable rng : Type.
Variable sample : rng -> nat -> list Qc * rng.
Variable nn_Sigmoid : Qc -> Qc.

(** Lines 187-190: the layers fit one another, from the width given to
    the last of [dnn_units_size]. *)
Lemma build_dnn_full_chain :
  forall (units_size : list Z) (d d' : Z) (g g' : rng) (layers : list Module),
    build_dnn rng sample d units_size g = Ok ((layers, d'), g') ->
    dnn_chain (Z.to_nat d) layers = Some (Z.to_nat d')
    /\ d' = last units_size d
    /\ length layers = (2 * length units_size)%nat.
Proof.
  induction units_size as [| units rest IH]; intros d d' g g' layers H.
  - simpl in H. unfold gret in H. injection H as <- <- _.
    repeat split.
  - simpl in H.
    apply gbind_Ok in H. destruct H as [l [g1 [Hl H]]].
    apply gbind_Ok in H. destruct H as [[ms dm] [g2 [Hr H]]].
    unfold gret in H. cbn [fst snd] in H. injection H as <- <- _.
    apply nn_Linear_Ok in Hl. destruct Hl as [_ [_ [Hin Hout]]].
    apply IH in Hr. destruct Hr as [Hc [Hd Hlen]].
    split; [| split].
    + cbn [dnn_chain]. rewrite Hin, Nat.eqb_refl, Hout. exact Hc.
    + rewrite Hd. destruct rest as [| z rest']; [reflexivity |].
      change (last (z :: rest') units = last (z :: rest') d).
      apply last_cons_default.
    + cbn [length]. rewrite Hlen. lia.
Qed.

(** Lines 185-191: what a successful construction leaves in [_dnn]. *)
Lemma DeepFMFuse_init_chain
    (input_dims dnn_units_size : list Z) (g g' : rng) (self : DeepFMFuse) :
  DeepFMFuse_init rng sample nn_Sigmoid input_dims dnn_units_size g = Ok (self, g') ->
  dnn_chain (Z.to_nat (fold_right Z.add 0%Z input_dims)) (_dnn self) = Some 1%nat
  /\ length (_dnn self) = (2 * length dnn_units_size + 1)%nat
  /\ fuse_dnn_units_size self = dnn_units_size
  /\ (0 <= fold_right Z.add 0%Z input_dims)%Z.
Proof.
  unfold DeepFMFuse_init. intros H.
  apply gbind_Ok in H. destruct H as [[layers d'] [g1 [Hb H]]].
  apply gbind_Ok in H. destruct H as [l [g2 [Hl H]]].
  unfold gret in H. cbn [fst snd] in *. injection H as <- _.
  cbn [_dnn fuse_dnn_units_size].
  pose proof (build_dnn_full_chain _ _ _ _ _ _ Hb) as [Hc [Hd Hlen]].
  apply nn_Linear_Ok in Hl. destruct Hl as [Hd0 [_ [Hin Hout]]].
  split; [| split; [| split]].
  - rewrite (dnn_chain_app _ _ _ _ Hc). cbn [dnn_chain].
    rewrite Hin, Nat.eqb_refl, Hout. reflexivity.
  - rewrite length_app, Hlen. simpl. lia.
  - reflexivity.
  - destruct dnn_units_size as [| u us].
    + simpl in Hb. unfold gret in Hb. injection Hb as _ <- _. exact Hd0.
    + simpl in Hb.
      apply gbind_Ok in Hb. destruct Hb as [l0 [g3 [Hl0 _]]].
      apply nn_Linear_Ok in Hl0. destruct Hl0 as [H0 _]. exact H0.
Qed.

(** X3. When the constructor of the fusion module succeeds, its network
    takes inputs as wide as the sum of [input_dims] and returns one value
    per example: the layers fit one another, there are two per entry of
    [dnn_units_size] plus the final [nn.Linear(_, 1)], and the recorded
    sizes are the ones given. *)
Theorem DeepFMFuse_init_network
    (input_dims dnn_units_size : list Z) (g g' : rng) (self : DeepFMFuse) :
  DeepFMFuse_init rng sample nn_Sigmoid input_dims dnn_units_size g = Ok (self, g') ->
  dnn_chain (Z.to_nat (fold_right Z.add 0%Z input_dims)) (_dnn self) = Some 1%nat
  /\ length (_dnn self) = (2 * length dnn_units_size + 1)%nat
  /\ fuse_dnn_units_size self = dnn_units_size
  /\ (0 <= fold_right Z.add 0%Z input_dims)%Z.
Proof. exact (DeepFMFuse_init_chain input_dims dnn_units_size g g' self). Qed.

End FuseConstruction.

Lemma DeepFMFuse_init_network_witness :
  exists self,
    DeepFMFuse_init nat Examples.counter_sample Examples.squash [8; 8]%Z [4%Z] 0%nat
    = Ok (self, 73%nat)
    /\ dnn_chain 16 (_dnn self) = Some 1%nat
    /\ length (_dnn self) = 3%nat.
Proof.
  destruct (DeepFMFuse_init nat Examples.counter_sample Examples.squash
              [8; 8]%Z [4%Z] 0%nat) as [[self g'] | e] eqn:E.
  - exists self.
    pose proof (DeepFMFuse_init_network nat Examples.counter_sample Examples.squash
                  [8; 8]%Z [4%Z] 0%nat g' self E) as [H1 [H2 _]].
    assert (Hg : g' = 73%nat).
    { apply (f_equal (fun r => match r with Ok (_, n) => n | Raise _ => 0%nat end)) in E.
      vm_compute in E. symmetry. exact E. }
    subst g'. split; [reflexivity |]. split; [exact H1 | exact H2].
  - vm_compute in E. discriminate E.
Defined.

(* ------------------------------------------------------------------ *)
(** ** Which inputs the fusion module gets through *)

Lemma broadcast_op_shape (f : Qc -> Qc -> Qc) (s : list nat) (a b : tensor) :
  shape a = s -> shape b = s ->
  exists r, broadcast_op f a b = Ok r /\ shape r = s.
Proof.
  intros Ha Hb. unfold broadcast_op.
  rewrite Ha, Hb, broadcast_shapes_same. simpl.
  eexists. split; reflexivity.
Qed.

Lemma broadcast_op_column_shape (f : Qc -> Qc -> Qc) (B D : nat) (a b : tensor) :
  shape a = [B; D] -> shape b = [B; 1%nat] ->
  exists r, broadcast_op f a b = Ok r /\ shape r = [B; D].
Proof.
  intros Ha Hb. unfold broadcast_op.
  rewrite Ha, Hb, broadcast_shapes_column. simpl.
  eexists. split; reflexivity.
Qed.

Lemma stack_sum_shape (B D : nat) (t0 : tensor) (rest : list tensor) :
  Forall (fun t => shape t = [B; D]) (t0 :: rest) ->
  exists st r, torch_stack (t0 :: rest) 1 = Ok st
               /\ torch_sum st 1 false = Ok r /\ shape r = [B; D].
Proof.
  intros H.
  destruct (torch_stack_shape B D t0 rest H) as [st [Hst Sst]].
  destruct (torch_sum_shape3 B _ D st Sst) as [r [Hr Sr]].
  exists st, r. repeat split; assumption.
Qed.

Lemma unsqueeze_sum_shape (B D : nat) (t : tensor) :
  shape t = [B; D] ->
  exists u r, torch_unsqueeze t 1 = Ok u
              /\ torch_sum u 1 false = Ok r /\ shape r = [B; D].
Proof.
  intros H.
  destruct (torch_sum_shape3 B 1 D (mkArray [B; 1%nat; D] (data t)) eq_refl)
    as [r [Hr Sr]].
  exists (mkArray [B; 1%nat; D] (data t)), r.
  split; [apply torch_unsqueeze_matrix; exact H |]. split; assumption.
Qed.

Lemma shape_not_scalar (B D : nat) (t : tensor) : shape t = [B; D] -> shape t <> [].
Proof. intros H. rewrite H. discriminate. Qed.

Section FusePatterns.

Variables (B D : nat).

Let shapes (s : nat * bool) (p : party_tuple) : Prop :=
  tuple_shapes B D (fst s) (snd s) p.

Lemma shapes_first_order (specs : list (nat * bool)) (ps : list party_tuple) :
  Forall2 shapes specs ps ->
  Forall (fun t => shape t = [B; 1%nat]) (map first_order ps).
Proof.
  induction 1 as [| s p specs ps [_ [H _]] _ IH]; constructor; assumption.
Qed.

Lemma shapes_dnn_out (specs : list (nat * bool)) (ps : list party_tuple) :
  Forall2 shapes specs ps ->
  Forall (fun t => shape t = [B; width t]) (map dnn_out ps)
  /\ fold_right Nat.add 0%nat (map width (map dnn_out ps))
     = fold_right Nat.add 0%nat (map fst specs).
Proof.
  induction 1 as [| s p specs ps [H _] _ [IH1 IH2]].
  - split; [constructor | reflexivity].
  - split.
    + constructor; [| exact IH1]. unfold width. rewrite H. reflexivity.
    + cbn [map fold_right]. rewrite IH2. unfold width. rewrite H. reflexivity.
Qed.

Lemma shapes_all_real (specs : list (nat * bool)) (ps : list party_tuple) :
  Forall2 shapes specs ps ->
  forallb (fun r => r) (map snd specs) = true ->
  Forall (fun t => shape t = [B; D]) (map sum_emb ps)
  /\ Forall (fun t => shape t = [B; D]) (map square_and_sum_emb ps).
Proof.
  induction 1 as [| [w r] p specs ps [_ [_ H]] _ IH]; intros Hr.
  - split; constructor.
  - cbn [map snd forallb] in Hr. apply andb_true_iff in Hr.
    destruct Hr as [-> Hr]. cbn [snd] in H. destruct H as [H1 H2].
    destruct (IH Hr) as [I1 I2]. split; constructor; assumption.
Qed.

(** Lines 199-216 on every accepted combination: a (B, D)-shaped
    second-order term. *)
Lemma fuse_second_order_accepted (specs : list (nat * bool)) (ps : list party_tuple) :
  Forall2 shapes specs ps ->
  accepted (map snd specs) = true ->
  exists second, fuse_second_order (flat ps) = Ok second /\ shape second = [B; D].
Proof.
  intros H Hacc.
  destruct H as [| [w0 r0] p0 specs ps H0 H]; [discriminate |].
  destruct H as [| [w1 r1] p1 specs ps H1 H]; [destruct r0; discriminate |].
  destruct H0 as [_ [_ H0]]. destruct H1 as [_ [_ H1]]. cbn [fst snd] in H0, H1.
  cbn [map snd accepted] in Hacc.
  unfold fuse_second_order, fuse_sum_embs, fuse_square_and_sum_emb.
  cbn [flat flat_map app getitem nth_error bind].
  destruct r0, r1; try discriminate.
  - (* both real: every party is *)
    destruct H0 as [S0 Q0]. destruct H1 as [S1 Q1].
    destruct (shapes_all_real specs ps H Hacc) as [Hs Hq].
    rewrite (torch_equal_zero_ranked _ (shape_not_scalar _ _ _ S0)),
            (torch_equal_zero_ranked _ (shape_not_scalar _ _ _ S1)),
            (torch_equal_zero_ranked _ (shape_not_scalar _ _ _ Q0)),
            (torch_equal_zero_ranked _ (shape_not_scalar _ _ _ Q1)).
    change (dnn_out p0 :: first_order p0 :: sum_emb p0 :: square_and_sum_emb p0
            :: dnn_out p1 :: first_order p1 :: sum_emb p1 :: square_and_sum_emb p1
            :: flat_map (fun p => [dnn_out p; first_order p; sum_emb p;
                                   square_and_sum_emb p]) ps)
      with (flat (p0 :: p1 :: ps)).
    rewrite slice_flat_2, slice_flat_3. cbn [map].
    destruct (stack_sum_shape B D (sum_emb p0) (sum_emb p1 :: map sum_emb ps))
      as [st [s [E1 [E2 Ss]]]]; [repeat constructor; assumption |].
    destruct (stack_sum_shape B D (square_and_sum_emb p0)
                (square_and_sum_emb p1 :: map square_and_sum_emb ps))
      as [st' [q [E3 [E4 Sq]]]]; [repeat constructor; assumption |].
    destruct (broadcast_op_shape Qcminus [B; D] (torch_pow s 2) q Ss Sq)
      as [diff [Ed Sd]].
    exists (scalar_mul half diff). unfold torch_sub.
    rewrite E1. cbn [bind]. rewrite E2. cbn [bind].
    rewrite E3. cbn [bind]. rewrite E4. cbn [bind]. rewrite Ed. cbn [bind].
    split; [reflexivity | exact Sd].
  - (* the second party sent the sentinel *)
    destruct H0 as [S0 Q0]. destruct H1 as [S1 Q1]. rewrite S1, Q1.
    rewrite (torch_equal_zero_ranked _ (shape_not_scalar _ _ _ S0)),
            (torch_equal_zero_ranked _ (shape_not_scalar _ _ _ Q0)),
            torch_equal_sentinel.
    destruct (unsqueeze_sum_shape B D (sum_emb p0) S0) as [u [s [E1 [E2 Ss]]]].
    destruct (broadcast_op_shape Qcminus [B; D] (torch_pow s 2)
                (square_and_sum_emb p0) Ss Q0) as [diff [Ed Sd]].
    exists (scalar_mul half diff). unfold torch_sub.
    rewrite E1. cbn [bind]. rewrite E2. cbn [bind]. rewrite Ed. cbn [bind].
    split; [reflexivity | exact Sd].
  - (* the first party sent the sentinel *)
    destruct H0 as [S0 Q0]. destruct H1 as [S1 Q1]. rewrite S0, Q0.
    rewrite torch_equal_sentinel.
    destruct (unsqueeze_sum_shape B D (sum_emb p1) S1) as [u [s [E1 [E2 Ss]]]].
    destruct (broadcast_op_shape Qcminus [B; D] (torch_pow s 2)
                (square_and_sum_emb p1) Ss Q1) as [diff [Ed Sd]].
    exists (scalar_mul half diff). unfold torch_sub.
    rewrite E1. cbn [bind]. rewrite E2. cbn [bind]. rewrite Ed. cbn [bind].
    split; [reflexivity | exact Sd].
Qed.

End FusePatterns.

Lemma forallb_shape_false (B D : nat) (specs : list (nat * bool))
    (ps : list party_tuple) :
  Forall2 (fun s p => tuple_shapes B D (fst s) (snd s) p) specs ps ->
  forallb (fun r => r) (map snd specs) = false ->
  forallb (fun t : tensor => shape_eqb (shape t) [B; D]) (map sum_emb ps) = false.
Proof.
  induction 1 as [| [w r] p specs ps [_ [_ H]] _ IH]; intros Hr; [discriminate |].
  cbn [map snd forallb fst] in *.
  destruct r; cbn [andb] in Hr.
  - rewrite (IH Hr). apply andb_false_r.
  - destruct H as [-> _]. reflexivity.
Qed.

Lemma fuse_sum_embs_later_absent (B D : nat) (specs : list (nat * bool))
    (p0 p1 : party_tuple) (ps : list party_tuple) :
  shape (sum_emb p0) = [B; D] -> shape (sum_emb p1) = [B; D] ->
  Forall2 (fun s p => tuple_shapes B D (fst s) (snd s) p) specs ps ->
  forallb (fun r => r) (map snd specs) = false ->
  fuse_sum_embs (flat (p0 :: p1 :: ps)) = Raise RuntimeError.
Proof.
  intros S0 S1 H Hr.
  rewrite (fuse_sum_embs_both_real _ (sum_emb p0) (sum_emb p1));
    [| reflexivity | reflexivity
     | apply (shape_not_scalar B D); exact S0
     | apply (shape_not_scalar B D); exact S1].
  rewrite slice_flat_2. cbn [map]. unfold torch_stack.
  cbn [forallb]. rewrite S0, S1, shape_eqb_refl. cbn [andb].
  pose proof (forallb_shape_false B D specs ps H Hr) as E.
  unfold tensor in *. rewrite E. reflexivity.
Qed.

(** Lines 194-220 on well-shaped party tuples. *)
Lemma fuse_forward_by_shapes
    (self : DeepFMFuse) (B D : nat) (specs : list (nat * bool))
    (ps : list party_tuple) :
  Forall2 (fun s p => tuple_shapes B D (fst s) (snd s) p) specs ps ->
  dnn_chain (fold_right Nat.add 0%nat (map fst specs)) (_dnn self) = Some 1%nat ->
  (accepted (map snd specs) = true ->
   exists t, DeepFMFuse_forward self (flat ps) = Ok t /\ shape t = [B; 1%nat])
  /\ (accepted (map snd specs) = false ->
      raises (DeepFMFuse_forward self (flat ps))).
Proof.
  intros H Hchain. split; intros Hacc.
  - destruct (fuse_second_order_accepted B D specs ps H Hacc) as [second [E2 S2]].
    pose proof (shapes_first_order B D specs ps H) as Hf.
    destruct (shapes_dnn_out B D specs ps H) as [Hd Hw].
    destruct ps as [| p0 ps].
    { inversion H; subst. discriminate Hacc. }
    cbn [map] in Hf, Hd.
    destruct (torch_cat_columns B _ _ Hd) as [c [Ec Sc]].
    destruct (stack_sum_shape B 1 _ _ Hf) as [st [f [E1 [E1' Sf]]]].
    destruct (broadcast_op_column_shape Qcplus B D second f S2 Sf) as [sub [Es Ss]].
    destruct (torch_sum_shape2 B D sub true Ss) as [fm [Em Sm]].
    change (fold_right Nat.add 0%nat (map width (dnn_out p0 :: map dnn_out ps)))
      with (fold_right Nat.add 0%nat (map width (map dnn_out (p0 :: ps)))) in Sc.
    rewrite Hw in Sc.
    destruct (Sequential_forward_shape B (_dnn self) _ 1 c Hchain Sc) as [d [Ed Sd]].
    destruct (torch_add_shape [B; 1%nat] fm d Sm Sd) as [o [Eo So]].
    exists (tmap (sigmoid self) o).
    unfold DeepFMFuse_forward, DeepFMFuse_outputs, fuse_fm_1st_part.
    rewrite slice_flat_0, slice_flat_1. cbn [map]. unfold tensor in *.
    rewrite Ec. cbn [bind]. rewrite E1. cbn [bind]. rewrite E1'. cbn [bind].
    rewrite E2. cbn [bind]. unfold torch_add in *. rewrite Es. cbn [bind].
    rewrite Em. cbn [bind]. rewrite Ed. cbn [bind]. rewrite Eo. cbn [bind].
    split; [reflexivity | exact So].
  - destruct H as [| [w0 r0] p0 specs ps H0 H].
    { apply DeepFMFuse_forward_short. simpl. lia. }
    destruct H as [| [w1 r1] p1 specs ps H1 H].
    { apply DeepFMFuse_forward_short. simpl. lia. }
    destruct H0 as [_ [_ H0]]. destruct H1 as [_ [_ H1]]. cbn [fst snd] in H0, H1.
    cbn [map snd accepted] in Hacc.
    apply DeepFMFuse_forward_sum_embs.
    destruct r0, r1; try discriminate.
    + destruct H0 as [S0 _]. destruct H1 as [S1 _].
      rewrite (fuse_sum_embs_later_absent B D specs p0 p1 ps S0 S1 H Hacc).
      apply raises_Raise.
    + destruct H0 as [S0 _]. destruct H1 as [S1 _].
      rewrite (fuse_sum_embs_two_absent _ (sum_emb p1)).
      * apply raises_Raise.
      * cbn. rewrite S0. reflexivity.
      * reflexivity.
      * rewrite S1. reflexivity.
Qed.

(** X4. Which combinations of parties the fusion module gets through.
    Let every party send a (B, w)-shaped DNN branch, a (B, 1)-shaped
    first-order term and either (B, D)-shaped statistics or the sentinel,
    and let the network take the summed widths to one value.  [forward]
    returns a (B, 1)-shaped prediction when all parties have real
    statistics, or when exactly one of the first two parties sent the
    sentinel (whatever the later parties sent); in every other case
    (fewer than two parties, the first two both without categorical
    features, or the first two real and a later one not) it raises. *)
Theorem fuse_forward_accepted_combinations
    (self : DeepFMFuse) (B D : nat) (specs : list (nat * bool))
    (ps : list party_tuple) :
  Forall2 (fun s p => tuple_shapes B D (fst s) (snd s) p) specs ps ->
  dnn_chain (fold_right Nat.add 0%nat (map fst specs)) (_dnn self) = Some 1%nat ->
  (accepted (map snd specs) = true ->
   exists t, DeepFMFuse_forward self (flat ps) = Ok t /\ shape t = [B; 1%nat])
  /\ (accepted (map snd specs) = false ->
      raises (DeepFMFuse_forward self (flat ps))).
Proof. exact (fuse_forward_by_shapes self B D specs ps). Qed.

Lemma fuse_forward_accepted_combinations_witness :
  (exists t, DeepFMFuse_forward (Examples.fuse 2)
               (flat [Examples.party_a; Examples.party_b]) = Ok t
             /\ shape t = [1; 1]%nat)
  /\ raises (DeepFMFuse_forward (Examples.fuse 3)
               (flat [Examples.party_a; Examples.party_b; Examples.party_c])).
Proof.
  split.
  - apply (fuse_forward_accepted_combinations (Examples.fuse 2) 1 2
             [(1%nat, true); (1%nat, true)] [Examples.party_a; Examples.party_b]).
    + repeat constructor.
    + reflexivity.
    + reflexivity.
  - apply (fuse_forward_accepted_combinations (Examples.fuse 3) 1 2
             [(1%nat, true); (1%nat, true); (1%nat, false)]
             [Examples.party_a; Examples.party_b; Examples.party_c]).
    + repeat constructor.
    + reflexivity.
    + reflexivity.
Defined.

(* ------------------------------------------------------------------ *)
(** ** The pre-sigmoid output from a second-order term *)

Lemma fuse_outputs_from_second (self : DeepFMFuse) (B D : nat)
    (p0 : party_tuple) (rest : list party_tuple) (second : tensor) :
  Forall (matrix B 1) (map first_order (p0 :: rest)) ->
  fuse_second_order (flat (p0 :: rest)) = Ok second ->
  matrix B D second ->
  DeepFMFuse_outputs self (flat (p0 :: rest))
  = outputs_from second (Z2Qc (Z.of_nat D)) self B D (p0 :: rest).
Proof.
  intros Hf E Hsecond. unfold DeepFMFuse_outputs, outputs_from.
  rewrite slice_flat_0.
  destruct (torch_cat (map dnn_out (p0 :: rest)) 1) as [dnn_outputs | e];
    [| reflexivity].
  cbn [bind].
  unfold fuse_fm_1st_part. rewrite slice_flat_1.
  cbn [map] in Hf |- *.
  rewrite (sum_of_stack B 1 _ _ Hf). cbn [bind].
  rewrite E. cbn [bind].
  set (f := tensor_sum [B; 1%nat] _) in *.
  assert (Hfirst : matrix B 1 f) by (apply matrix_tensor_sum; exact Hf).
  pose proof (fm_2nd_part_formula B D second f Hsecond Hfirst) as E2.
  destruct (torch_add second f) as [sub | e]; [| discriminate E2].
  cbn [bind] in E2 |- *. rewrite E2. reflexivity.
Qed.

Lemma matrix_second_order_of (B D : nat) (s q : tensor) :
  matrix B D s -> matrix B D q -> matrix B D (second_order_of s q).
Proof.
  intros Hs Hq. apply matrix_scalar_mul. apply matrix_zip_with.
  - apply matrix_torch_pow. exact Hs.
  - exact Hq.
Qed.

(** X5. Two parties of which one has no categorical features, in either
    order: the pre-sigmoid output is the fusion network on both DNN
    branches, plus the second-order term of the party with categorical
    features alone, summed over the embedding dimension, plus D times the
    sum of both first-order terms.  The party without categorical features
    still contributes its DNN branch and its first-order term. *)
Theorem fuse_outputs_one_party_absent (self : DeepFMFuse) (B D : nat)
    (pA pB : party_tuple) :
  real_party B D pA ->
  matrix B 1 (first_order pB) ->
  sum_emb pB = torch_tensor_float32 0 ->
  square_and_sum_emb pB = torch_tensor_float32 0 ->
  DeepFMFuse_outputs self (flat [pA; pB])
  = outputs_from (second_order_of (sum_emb pA) (square_and_sum_emb pA))
      (Z2Qc (Z.of_nat D)) self B D [pA; pB]
  /\ DeepFMFuse_outputs self (flat [pB; pA])
     = outputs_from (second_order_of (sum_emb pA) (square_and_sum_emb pA))
         (Z2Qc (Z.of_nat D)) self B D [pB; pA].
Proof.
  intros [HfA [HsA HqA]] HfB EsB EqB.
  pose proof (matrix_second_order_of B D _ _ HsA HqA) as Hsecond.
  split.
  - apply fuse_outputs_from_second;
      [constructor; [| constructor; [| constructor]]; assumption | | exact Hsecond].
    cbn [flat flat_map app]. rewrite EsB, EqB.
    apply (fuse_second_order_second_absent B D); assumption.
  - apply fuse_outputs_from_second;
      [constructor; [| constructor; [| constructor]]; assumption | | exact Hsecond].
    cbn [flat flat_map app]. rewrite EsB, EqB.
    apply (fuse_second_order_first_absent B D); assumption.
Qed.

Lemma fuse_outputs_one_party_absent_witness :
  DeepFMFuse_outputs (Examples.fuse 2) (flat [Examples.party_a; Examples.party_c])
  = outputs_from (second_order_of (sum_emb Examples.party_a)
                    (square_and_sum_emb Examples.party_a))
      (Z2Qc 2) (Examples.fuse 2) 1 2 [Examples.party_a; Examples.party_c]
  /\ DeepFMFuse_outputs (Examples.fuse 2) (flat [Examples.party_a; Examples.party_c])
     = Ok (Examples.T [1; 1]%nat [84]%Z).
Proof.
  split.
  - apply (fuse_outputs_one_party_absent (Examples.fuse 2) 1 2
             Examples.party_a Examples.party_c).
    + repeat split.
    + split; reflexivity.
    + reflexivity.
    + reflexivity.
  - evaluate.
Defined.

(* ------------------------------------------------------------------ *)
(** ** The order of the parties *)

Lemma vadd_swap (a b r : list Qc) : vadd a (vadd b r) = vadd b (vadd a r).
Proof.
  unfold vadd. revert b r.
  induction a as [| x a IH]; intros [| y b] [| z r]; simpl; try reflexivity.
  rewrite IH. f_equal. ring.
Qed.

Lemma vsum_Permutation (n : nat) (vs vs' : list (list Qc)) :
  Permutation vs vs' -> vsum n vs = vsum n vs'.
Proof.
  unfold vsum. induction 1 as [| v l l' _ IH | u v l | l l' l'' _ IH1 _ IH2]; simpl.
  - reflexivity.
  - rewrite IH. reflexivity.
  - apply vadd_swap.
  - rewrite IH1. exact IH2.
Qed.

Lemma tensor_sum_Permutation (s : list nat) (ts ts' : list tensor) :
  Permutation ts ts' -> tensor_sum s ts = tensor_sum s ts'.
Proof.
  intros H. unfold tensor_sum. f_equal.
  apply vsum_Permutation. apply Permutation_map. exact H.
Qed.

Lemma fuse_fm_1st_part_real (B D : nat) (p0 : party_tuple) (rest : list party_tuple) :
  Forall (real_party B D) (p0 :: rest) ->
  fuse_fm_1st_part (flat (p0 :: rest))
  = Ok (tensor_sum [B; 1%nat] (map first_order (p0 :: rest))).
Proof.
  intros H. unfold fuse_fm_1st_part. rewrite slice_flat_1.
  pose proof (real_party_first_order B D _ H) as Hf. cbn [map] in Hf |- *.
  apply (sum_of_stack B 1 _ _ Hf).
Qed.



(* ------------------------------------------------------------------ *)
(** ** Interactions across parties *)

Lemma vadd_assoc (a b c : list Qc) : vadd (vadd a b) c = vadd a (vadd b c).
Proof.
  unfold vadd. revert b c.
  induction a as [| x a IH]; intros [| y b] [| z c]; simpl; try reflexivity.
  rewrite IH. f_equal. ring.
Qed.

Lemma vadd_zero_l (v : list Qc) : vadd (repeat 0 (length v)) v = v.
Proof.
  unfold vadd. induction v as [| a v IH]; simpl; [reflexivity |].
  rewrite IH. f_equal. ring.
Qed.

Lemma vsum_app (n : nat) (ds es : list (list Qc)) :
  Forall (fun d => length d = n) es ->
  vsum n (ds ++ es) = vadd (vsum n ds) (vsum n es).
Proof.
  intros He. induction ds as [| d ds IH].
  - cbn [app]. change (vsum n []) with (repeat (Q2Qc 0) n).
    rewrite <- (vsum_length n es He) at 2. symmetry. apply vadd_zero_l.
  - change (vsum n ((d :: ds) ++ es)) with (vadd d (vsum n (ds ++ es))).
    change (vsum n (d :: ds)) with (vadd d (vsum n ds)).
    rewrite IH. symmetry. apply vadd_assoc.
Qed.

(** The sum of the per-party sums is the sum over all parties' vectors. *)
Lemma vsum_concat (n : nat) (dss : list (list (list Qc))) :
  Forall (Forall (fun d => length d = n)) dss ->
  vsum n (map (vsum n) dss) = vsum n (concat dss).
Proof.
  induction 1 as [| ds dss Hds Hdss IH]; [reflexivity |].
  cbn [map concat].
  change (vsum n (vsum n ds :: map (vsum n) dss))
    with (vadd (vsum n ds) (vsum n (map (vsum n) dss))).
  rewrite IH. symmetry. apply vsum_app.
  apply Forall_concat. exact Hdss.
Qed.

Lemma tensor_sum_concat (B D : nat) (ess : list (list tensor)) :
  Forall (Forall (matrix B D)) ess ->
  tensor_sum [B; D] (map (tensor_sum [B; D]) ess) = tensor_sum [B; D] (concat ess).
Proof.
  intros H. unfold tensor_sum. f_equal.
  rewrite map_map. cbn [data].
  rewrite <- (map_map (map data) (vsum (numel [B; D]))).
  rewrite vsum_concat.
  - rewrite <- concat_map. reflexivity.
  - apply Forall_map. eapply Forall_impl; [| exact H].
    intros es Hes. replace (numel [B; D]) with (B * D)%nat by (simpl; lia).
    apply matrix_lengths. exact Hes.
Qed.

(** The second-order term from the sums of a list of embeddings, summed
    over the embedding dimension: the pairwise interactions. *)
Lemma second_order_row_totals (B D : nat) (es : list tensor) :
  Forall (matrix B D) es ->
  torch_sum (second_order_of (tensor_sum [B; D] es)
               (tensor_sum [B; D] (map (fun e => torch_pow e 2) es))) 1 true
  = Ok (pairwise_interactions B D es).
Proof.
  intros H.
  pose proof (matrix_map_torch_pow B D 2 _ H) as H2.
  assert (Hm : matrix B D
                 (second_order_of (tensor_sum [B; D] es)
                    (tensor_sum [B; D] (map (fun e => torch_pow e 2) es))))
    by (apply matrix_second_order_of; apply matrix_tensor_sum; assumption).
  destruct Hm as [Sm Lm].
  rewrite (tensor_eta (second_order_of _ _)). rewrite Sm.
  rewrite torch_sum_matrix_keepdim by exact Lm.
  unfold pairwise_interactions, example_rows, rows.
  apply (f_equal (fun d => Ok (mkArray [B; 1%nat] d))).
  pose proof (row_totals_pairwise D B (map data es) (matrix_lengths B D es H)) as E.
  rewrite map_map in E.
  etransitivity; [| etransitivity; [exact E |]].
  - unfold second_order_of, scalar_mul, zip_with, torch_pow, tmap, tensor_sum,
      second_order_data.
    cbn [data shape numel fold_right]. rewrite Nat.mul_1_r.
    rewrite (map_map (fun e => mkArray (shape e) (map (fun v => v ^ 2) (data e))) data).
    reflexivity.
  - apply map_ext. intros b. rewrite map_map. reflexivity.
Qed.

Lemma fuse_second_order_real_stats (B D : nat) (p0 p1 : party_tuple)
    (rest : list party_tuple) :
  Forall (matrix B D) (map sum_emb (p0 :: p1 :: rest)) ->
  Forall (matrix B D) (map square_and_sum_emb (p0 :: p1 :: rest)) ->
  fuse_second_order (flat (p0 :: p1 :: rest))
  = Ok (second_order_of
          (tensor_sum [B; D] (map sum_emb (p0 :: p1 :: rest)))
          (tensor_sum [B; D] (map square_and_sum_emb (p0 :: p1 :: rest)))).
Proof.
  intros Hs Hq.
  unfold fuse_second_order.
  rewrite (fuse_sum_embs_both_real _ (sum_emb p0) (sum_emb p1));
    try reflexivity.
  2: { inversion Hs; subst. eapply matrix_nonscalar; eassumption. }
  2: { inversion Hs as [| ? ? _ Hs']; subst. inversion Hs'; subst.
       eapply matrix_nonscalar; eassumption. }
  rewrite (fuse_square_and_sum_emb_both_real _ (square_and_sum_emb p0)
             (square_and_sum_emb p1)); try reflexivity.
  2: { inversion Hq; subst. eapply matrix_nonscalar; eassumption. }
  2: { inversion Hq as [| ? ? _ Hq']; subst. inversion Hq'; subst.
       eapply matrix_nonscalar; eassumption. }
  rewrite slice_flat_2, slice_flat_3.
  cbn [map] in Hs, Hq |- *.
  destruct (sum_of_stack_steps B D _ _ Hs) as [st [E1 E2]].
  rewrite E1. cbn [bind]. rewrite E2. cbn [bind].
  rewrite (sum_of_stack B D _ _ Hq). cbn [bind].
  rewrite (broadcast_op_matrices Qcminus B D).
  - reflexivity.
  - apply matrix_torch_pow. apply matrix_tensor_sum. exact Hs.
  - apply matrix_tensor_sum. exact Hq.
Qed.

(** What lines 131-137 return for (B, D)-shaped embeddings. *)
Lemma second_order_stats_sums (B D : nat) (es : list tensor)
    (s q di : tensor) :
  Forall (matrix B D) es ->
  second_order_stats es = Ok (s, q, di) ->
  s = tensor_sum [B; D] es
  /\ q = tensor_sum [B; D] (map (fun e => torch_pow e 2) es).
Proof.
  intros H E. destruct es as [| e0 rest]; [discriminate E |].
  rewrite (second_order_stats_matrices B D e0 rest H) in E.
  injection E as <- <- _. split; reflexivity.
Qed.

(** X7. The decomposition across parties is exact.  Let two or more
    parties each compute [sum_emb] and [square_and_sum_emb] from their own
    (B, D)-shaped embeddings as lines 131-137 do.  The second-order term of
    the fusion module, summed over the embedding dimension, is for every
    example the sum of the interactions [<e_i, e_j>] over all pairs of
    distinct embeddings of all parties together, the pairs that span two
    parties included, although no party's embeddings reach the fusion
    module. *)
Theorem cross_party_interactions (B D : nat) (ess : list (list tensor))
    (ps : list party_tuple) :
  Forall2 (fun es p =>
             Forall (matrix B D) es
             /\ exists dnn_input,
                  second_order_stats es
                  = Ok (sum_emb p, square_and_sum_emb p, dnn_input)) ess ps ->
  (2 <= length ps)%nat ->
  exists second,
    fuse_second_order (flat ps) = Ok second
    /\ torch_sum second 1 true = Ok (pairwise_interactions B D (concat ess)).
Proof.
  intros H Hlen.
  assert (Hall : Forall (Forall (matrix B D)) ess).
  { clear Hlen. induction H as [| es p ess ps [He _] _ IH]; constructor; assumption. }
  assert (Es : map sum_emb ps = map (tensor_sum [B; D]) ess).
  { clear Hlen Hall. induction H as [| es p ess ps [He [di Hst]] _ IH]; [reflexivity |].
    cbn [map]. rewrite IH.
    destruct (second_order_stats_sums B D es _ _ _ He Hst) as [-> _]. reflexivity. }
  assert (Eq : map square_and_sum_emb ps
               = map (tensor_sum [B; D])
                   (map (map (fun e => torch_pow e 2)) ess)).
  { clear Hlen Hall Es. induction H as [| es p ess ps [He [di Hst]] _ IH]; [reflexivity |].
    cbn [map]. rewrite IH.
    destruct (second_order_stats_sums B D es _ _ _ He Hst) as [_ ->]. reflexivity. }
  assert (Hall2 : Forall (Forall (matrix B D))
                    (map (map (fun e => torch_pow e 2)) ess)).
  { apply Forall_map. eapply Forall_impl; [| exact Hall].
    intros es Hes. apply matrix_map_torch_pow. exact Hes. }
  destruct ps as [| p0 [| p1 rest]]; try (simpl in Hlen; lia).
  eexists. split.
  - apply (fuse_second_order_real_stats B D).
    + rewrite Es. apply Forall_map. eapply Forall_impl; [| exact Hall].
      intros es Hes. apply matrix_tensor_sum. exact Hes.
    + rewrite Eq. apply Forall_map. eapply Forall_impl; [| exact Hall2].
      intros es Hes. apply matrix_tensor_sum. exact Hes.
  - rewrite Es, Eq.
    rewrite (tensor_sum_concat B D ess Hall).
    rewrite (tensor_sum_concat B D _ Hall2).
    rewrite <- concat_map.
    apply second_order_row_totals.
    apply Forall_concat. exact Hall.
Qed.

Lemma cross_party_interactions_witness :
  exists second,
    fuse_second_order
      (flat [TwoParties.tuple_of TwoParties.embeddings_1;
             TwoParties.tuple_of TwoParties.embeddings_2]) = Ok second
    /\ torch_sum second 1 true
       = Ok (pairwise_interactions 1 2
               (concat [TwoParties.embeddings_1; TwoParties.embeddings_2])).
Proof.
  apply (cross_party_interactions 1 2
           [TwoParties.embeddings_1; TwoParties.embeddings_2]
           [TwoParties.tuple_of TwoParties.embeddings_1;
            TwoParties.tuple_of TwoParties.embeddings_2]).
  - constructor; [| constructor; [| constructor]].
    + split; [repeat constructor |].
      exists (snd (TwoParties.stats TwoParties.embeddings_1)).
      vm_compute. reflexivity.
    + split; [repeat constructor |].
      exists (snd (TwoParties.stats TwoParties.embeddings_2)).
      vm_compute. reflexivity.
  - simpl. lia.
Defined.

(* ------------------------------------------------------------------ *)
(** ** The first-order term of the categorical slots *)

Lemma unit_widths (B : nat) (ts : list tensor) :
  Forall (fun t => shape t = [B; 1%nat]) ts ->
  fold_right Nat.add 0%nat (map (fun t : tensor => nth 1 (shape t) 0%nat) ts)
  = length ts.
Proof.
  induction 1 as [| t ts Ht _ IH]; [reflexivity |].
  cbn [map fold_right length]. rewrite Ht, IH. reflexivity.
Qed.

(** [torch.cat] of (B, 1)-shaped tensors along dimension 1: one column
    for each of them. *)
Lemma torch_cat_unit_columns (B : nat) (t0 : tensor) (rest : list tensor) :
  Forall (fun t => shape t = [B; 1%nat]) (t0 :: rest) ->
  torch_cat (t0 :: rest) 1
  = Ok (mkArray [B; length (t0 :: rest)]
          (interleave B (map (fun d => (1%nat, d)) (map data (t0 :: rest))))).
Proof.
  intros H. unfold torch_cat.
  rewrite filter_all.
  2: { eapply Forall_impl; [| exact H]. intros t Ht. unfold cat_skipped.
       cbv beta in Ht. rewrite Ht. simpl. destruct (B =? 0)%nat; reflexivity. }
  assert (H0 : existsb (fun t : tensor => (dim t =? 0)%nat) (t0 :: rest) = false).
  { clear - H. induction H as [| t l Ht _ IH]; [reflexivity |].
    simpl. unfold dim at 1. rewrite Ht. simpl. exact IH. }
  unfold tensor in *. rewrite H0.
  inversion H as [| ? ? Ht0 Hrest]; subst.
  assert (H1 : forallb (fun t : ndarray Qc =>
                          (dim t =? length (shape t0))%nat
                          && shape_eqb (drop_dim 1 (shape t)) (drop_dim 1 (shape t0)))
                 rest = true).
  { rewrite Ht0. clear - Hrest. induction Hrest as [| t l Ht _ IH]; [reflexivity |].
    simpl. unfold dim at 1. rewrite Ht. simpl.
    rewrite Nat.eqb_refl. simpl. exact IH. }
  rewrite H1. rewrite Ht0. cbn [length Nat.ltb Nat.leb negb].
  cbn [firstn skipn app numel fold_right].
  pose proof (unit_widths B (t0 :: rest) H) as W. unfold tensor in W.
  cbn [length] in W. rewrite W. rewrite Nat.mul_1_r.
  f_equal. f_equal. rewrite map_map. f_equal.
  apply map_ext_in. intros t Ht.
  rewrite Forall_forall in H. rewrite (H t Ht). reflexivity.
Qed.

(** Lines 109-110: concatenating (B, 1)-shaped tensors along dimension 1
    and summing that dimension adds them up. *)
Lemma cat_sum_unit_columns (B : nat) (t0 : tensor) (rest : list tensor) :
  Forall (matrix B 1) (t0 :: rest) ->
  (c <- torch_cat (t0 :: rest) 1 ;; torch_sum c 1 true)
  = Ok (tensor_sum [B; 1%nat] (t0 :: rest)).
Proof.
  intros H.
  rewrite (torch_cat_unit_columns B t0 rest (matrix_shapes B 1 _ H)).
  cbn [bind]. unfold torch_sum.
  cbn [shape data length Nat.ltb Nat.leb firstn skipn nth numel fold_right app].
  unfold tensor_sum. cbn [numel fold_right].
  replace (S (length rest)) with (length (map data (t0 :: rest)))
    by (rewrite length_map; reflexivity).
  assert (Hl : Forall (fun d : list Qc => length d = (B * 1)%nat)
                 (map data (t0 :: rest))).
  { apply Forall_map. eapply Forall_impl; [| exact H].
    intros t [_ Hl]. exact Hl. }
  pose proof (sum_interleave 1 B (map data (t0 :: rest)) Hl) as E.
  rewrite !Nat.mul_1_r in E. rewrite !Nat.mul_1_r. rewrite E. reflexivity.
Qed.

(** X8. The first-order term [DeepFMBase.forward] computes for the
    categorical slots (lines 104-111) is the elementwise sum of the
    first-order embeddings looked up for the slots: when every lookup
    gives a (B, 1)-shaped tensor, concatenating them along dimension 1 and
    summing that dimension with [keepdim] adds them up, one scalar per
    example. *)
Theorem fm_1st_sparse_is_sum (self : DeepFMBase) (x : list torch_value)
    (layers : list (nat * Embedding)) (B : nat) (t0 : tensor) (rest : list tensor) :
  _has_cat_feas self = true ->
  _fm_1st_order_sparse_emb_layers self = Some layers ->
  lookup_all layers x = Ok (t0 :: rest) ->
  Forall (matrix B 1) (t0 :: rest) ->
  fm_1st_sparse self x = Ok (Some (tensor_sum [B; 1%nat] (t0 :: rest))).
Proof.
  intros Hcat Hl Hres Hm. unfold fm_1st_sparse.
  rewrite Hcat, Hl. cbn [getattr bind]. rewrite Hres. cbn [bind].
  pose proof (cat_sum_unit_columns B t0 rest Hm) as E.
  destruct (torch_cat (t0 :: rest) 1) as [c | e]; [| discriminate E].
  cbn [bind] in *. rewrite E. reflexivity.
Qed.

Lemma fm_1st_sparse_is_sum_witness :
  fm_1st_sparse Examples.cat_party (arg_list Examples.cat_input)
  = Ok (Some (tensor_sum [2; 1]%nat
                [Examples.T [2; 1]%nat [25; 29]%Z;
                 Examples.T [2; 1]%nat [76; 76]%Z;
                 Examples.T [2; 1]%nat [128; 127]%Z])).
Proof.
  apply (fm_1st_sparse_is_sum Examples.cat_party (arg_list Examples.cat_input)
           (match _fm_1st_order_sparse_emb_layers Examples.cat_party with
            | Some l => l
            | None => []
            end) 2).
  - vm_compute. reflexivity.
  - vm_compute. reflexivity.
  - vm_compute. reflexivity.
  - repeat constructor.
Defined.

(* ------------------------------------------------------------------ *)
(** ** get_config *)

Lemma dict_get_app {V} (a b : dict V) (k : String.string) :
  dict_get (a ++ b) k
  = match dict_get a k with
    | Some v => Some v
    | None => dict_get b k
    end.
Proof.
  induction a as [| [k' v] a IH]; [reflexivity |].
  simpl. destruct (String.eqb k k'); [reflexivity | exact IH].
Qed.

(** Merging in a dict that holds a single entry: a lookup of its key gives
    its value, a lookup of another key is not affected. *)
Lemma dict_get_merge_single {V} (a : dict V) (k0 : String.string) (v0 : V)
    (k : String.string) :
  dict_get (dict_merge a [(k0, v0)]) k
  = if String.eqb k k0 then Some v0 else dict_get a k.
Proof.
  unfold dict_merge. rewrite dict_get_app.
  assert (Hmap : dict_get
                   (map (fun kv => match dict_get [(k0, v0)] (fst kv) with
                                   | Some v => (fst kv, v)
                                   | None => kv
                                   end) a) k
                 = match dict_get a k with
                   | Some v => Some (if String.eqb k k0 then v0 else v)
                   | None => None
                   end).
  { induction a as [| [k' v] a IH]; [reflexivity |].
    cbn [map fst dict_get].
    destruct (String.eqb k' k0) eqn:E0; cbn [dict_get];
      destruct (String.eqb k k') eqn:E; try exact IH.
    - apply String.eqb_eq in E. subst k'. rewrite E0. reflexivity.
    - apply String.eqb_eq in E. subst k'. rewrite E0. reflexivity. }
  rewrite Hmap. clear Hmap.
  destruct (dict_get a k) as [v |] eqn:Ea.
  - destruct (String.eqb k k0); reflexivity.
  - cbn [filter fst]. unfold dict_has.
    destruct (String.eqb k k0) eqn:E.
    + apply String.eqb_eq in E. subst k0. rewrite Ea. cbn [negb dict_get].
      rewrite String.eqb_refl. reflexivity.
    + destruct (dict_get a k0); cbn [negb dict_get]; [reflexivity |].
      rewrite E. reflexivity.
Qed.

Lemma dict_keys_merge_single {V} (a : dict V) (k0 : String.string) (v0 : V) :
  dict_keys (dict_merge a [(k0, v0)])
  = dict_keys a ++ (if dict_has a k0 then [] else [k0]).
Proof.
  unfold dict_merge, dict_keys. rewrite map_app. f_equal.
  - rewrite map_map. apply map_ext. intros [k v]. cbn [fst dict_get].
    destruct (String.eqb k k0); reflexivity.
  - cbn [filter fst]. destruct (dict_has a k0); reflexivity.
Qed.

Section ConfigRoundTrip.

Variable rng : Type.
Variable sample : rng -> nat -> list Qc * rng.

(** Lines 46-56: the plain attributes the constructor sets. *)
Lemma DeepFMBase_init_attributes (input_dims : dims_arg) (dnn_units_size : list Z)
    (continuous_feas_index : option (list Z)) (D : Z)
    (g g' : rng) (self : DeepFMBase) :
  DeepFMBase_init rng sample input_dims dnn_units_size continuous_feas_index D g
  = Ok (self, g') ->
  _dnn_units_size self = dnn_units_size
  /\ _cat_feas_nums self
     = (Z.of_nat (length (dims_list input_dims))
        - Z.of_nat (length (index_list continuous_feas_index)))%Z
  /\ _cont_feas_nums self = length (index_list continuous_feas_index).
Proof.
  unfold DeepFMBase_init. intros H.
  apply gbind_Ok in H. destruct H as [sparse [g1 [_ H]]].
  apply gbind_Ok in H. destruct H as [dense [g2 [_ H]]].
  apply gbind_Ok in H. destruct H as [[layers d'] [g3 [_ H]]].
  unfold gret in H. injection H as <- _.
  repeat split.
Qed.


End ConfigRoundTrip.


(* ------------------------------------------------------------------ *)
(** ** Inputs a categorical slot refuses *)

Lemma mapM_raises {A B} (f : A -> result B) (l : list A) (a : A) :
  In a l -> raises (f a) -> raises (mapM f l).
Proof.
  induction l as [| b l IH]; intros Hin Hr; [contradiction |].
  cbn [mapM]. destruct Hin as [E | Hin].
  - subst b. apply raises_bind. exact Hr.
  - apply raises_bind_all. intros b'. apply raises_bind. apply IH; assumption.
Qed.

Lemma nth_error_combine_seq {A} (l : list A) :
  forall (s i : nat) (d : A),
    nth_error l i = Some d -> In ((s + i)%nat, d) (combine (seq s (length l)) l).
Proof.
  induction l as [| a l IH]; intros s i d H; [destruct i; discriminate |].
  destruct i as [| i]; simpl in H.
  - injection H as <-. rewrite Nat.add_0_r. left. reflexivity.
  - right. replace (s + S i)%nat with (S s + i)%nat by lia. apply IH. exact H.
Qed.

(** [nn.Embedding] refuses an index that is negative or not below the
    number of embeddings. *)
Lemma Embedding_forward_out_of_range (e : Embedding) (idx : long_tensor) (k : Z) :
  In k (data idx) ->
  (k < 0 \/ Z.of_nat (num_embeddings e) <= k)%Z ->
  Embedding_forward e idx = Raise IndexError.
Proof.
  intros Hin Hk. unfold Embedding_forward.
  assert (H : mapM (embedding_row e) (data idx) = Raise IndexError).
  { induction (data idx) as [| a l IH]; [contradiction |].
    cbn [mapM]. unfold embedding_row at 1.
    destruct ((0 <=? a) && (a <? Z.of_nat (num_embeddings e)))%Z eqn:E;
      [| reflexivity].
    cbn [bind]. destruct Hin as [-> | Hin].
    - apply andb_prop in E. destruct E as [E1 E2].
      apply Z.leb_le in E1. apply Z.ltb_lt in E2. lia.
    - rewrite (IH Hin). reflexivity. }
  rewrite H. reflexivity.
Qed.

Lemma lookup_all_refuses (dim : Z) (x : list torch_value) (i : nat) (d : Z)
    (v : torch_value) :
  nth_error x i = Some v ->
  match v with
  | LongT t => exists k, In k (data t) /\ (k < 0 \/ d <= k)%Z
  | FloatT _ => True
  end ->
  forall (items : list (nat * Z)) (layers : list (nat * Embedding)),
    Forall2 (layer_of dim) items layers ->
    In (i, d) items ->
    raises (lookup_all layers x).
Proof.
  intros Hv Hbad items layers F.
  induction F as [| it [j e] items layers Hl _ IH]; intros Hin; [contradiction |].
  unfold lookup_all. cbn [mapM fst snd].
  destruct Hin as [-> | Hin].
  - apply raises_bind.
    destruct Hl as [Hj [Hnum _]]. cbn [fst snd] in Hj, Hnum. subst j.
    rewrite (getitem_nth_error _ _ _ Hv). cbn [bind].
    destruct v as [t | t]; cbn [Embedding_call]; [| apply raises_Raise].
    destruct Hbad as [k [Hk Hr]].
    rewrite (Embedding_forward_out_of_range e t k Hk); [apply raises_Raise |].
    rewrite Hnum. lia.
  - apply raises_bind_all. intros r. apply raises_bind. apply IH. exact Hin.
Qed.

(** X10. A categorical slot accepts only an integer tensor whose indices
    are all in the range of the slot's cardinality: when [forward] is given,
    at a slot that is not listed as continuous, a float tensor or an
    integer tensor with an index that is negative or not below
    [input_dims[i]], it raises, whatever the other slots hold. *)
Theorem forward_refuses_bad_categorical
    (rng : Type) (sample : rng -> nat -> list Qc * rng)
    (input_dims : dims_arg) (dnn_units_size : list Z)
    (continuous_feas_index : option (list Z)) (fm_embedding_dim : Z)
    (g g' : rng) (self : DeepFMBase)
    (x : list torch_value) (i : nat) (d : Z) (v : torch_value) :
  DeepFMBase_init rng sample input_dims dnn_units_size continuous_feas_index
    fm_embedding_dim g = Ok (self, g') ->
  length (index_list continuous_feas_index) <> length (dims_list input_dims) ->
  nth_error (dims_list input_dims) i = Some d ->
  not_in i (index_list continuous_feas_index) = true ->
  nth_error x i = Some v ->
  match v with
  | LongT t => exists k, In k (data t) /\ (k < 0 \/ d <= k)%Z
  | FloatT _ => True
  end ->
  raises (DeepFMBase_forward self (ArgList x)).
Proof.
  intros Hinit Hlen Hd Hnot Hv Hbad.
  pose proof (DeepFMBase_init_built rng sample _ _ _ _ _ _ _ Hinit)
    as [_ [_ [Hcat [_ [Hsp _]]]]].
  assert (Hc : _has_cat_feas self = true).
  { rewrite Hcat. apply negb_true_iff. apply Nat.eqb_neq. exact Hlen. }
  destruct (Hsp Hc) as [l1 [l2 [E1 [_ [F1 _]]]]].
  unfold DeepFMBase_forward. cbn [arg_list].
  apply raises_bind_all. intros _. apply raises_bind.
  unfold fm_1st_sparse. rewrite Hc, E1. cbn [getattr bind].
  apply raises_bind.
  apply (lookup_all_refuses 1 x i d v Hv Hbad _ l1 F1).
  unfold categorical_items. apply filter_In. split.
  - apply (nth_error_combine_seq (dims_list input_dims) 0 i d Hd).
  - exact Hnot.
Qed.

Lemma forward_refuses_bad_categorical_witness :
  raises (DeepFMBase_forward Examples.cat_party
            (ArgList [LongT (mkArray [2%nat] [0; 4]%Z);
                      LongT (mkArray [2%nat] [1; 5]%Z);
                      LongT (mkArray [2%nat] [3; 2]%Z)])).
Proof.
  destruct (example_party_built
              (DeepFMBase_init nat Examples.counter_sample (DimsList [5; 5; 5]%Z)
                 [8%Z] None 4 0%nat) Examples.no_module) as [g' Hinit];
    [intros e; vm_compute; discriminate |].
  apply (forward_refuses_bad_categorical nat Examples.counter_sample
           (DimsList [5; 5; 5]%Z) [8%Z] None 4 0%nat g' Examples.cat_party
           _ 1 5%Z (LongT (mkArray [2%nat] [1; 5]%Z)) Hinit).
  - simpl. lia.
  - reflexivity.
  - reflexivity.
  - reflexivity.
  - exists 5%Z. split; [simpl; tauto | lia].
Defined.

(* ------------------------------------------------------------------ *)
(** ** The embedding tables the constructor creates *)

Lemma map_fst_combine_seq {A} (l : list A) :
  forall s : nat, map fst (combine (seq s (length l)) l) = seq s (length l).
Proof.
  induction l as [| a l IH]; intros s; [reflexivity |].
  simpl. rewrite IH. reflexivity.
Qed.

Lemma filter_map_fst {A} (f : nat -> bool) (items : list (nat * A)) :
  map fst (filter (fun it => f (fst it)) items) = filter f (map fst items).
Proof.
  induction items as [| [i d] items IH]; [reflexivity |].
  cbn [filter map fst]. destruct (f i); cbn [map fst]; rewrite IH; reflexivity.
Qed.

Section Tables.

Variable rng : Type.
Variable sample : rng -> nat -> list Qc * rng.

(** Lines 65-78: the keys of both dicts are the indices of the items not
    listed as continuous, in order; every table has the cardinality of its
    slot, and the weights copied into it have the table's shape. *)
Lemma build_sparse_layers_tables (cont : list Z) (D : Z) :
  forall (items : list (nat * Z)) (g g' : rng)
         (l1 l2 : list (nat * Embedding)),
    build_sparse_layers rng sample items cont D g = Ok ((l1, l2), g') ->
    map fst l1 = filter (fun i => not_in i cont) (map fst items)
    /\ map fst l2 = filter (fun i => not_in i cont) (map fst items)
    /\ Forall (table_of 1 items) l1
    /\ Forall (table_of D items) l2.
Proof.
  induction items as [| [index input_dim] items IH]; intros g g' l1 l2 H.
  - simpl in H. unfold gret in H. injection H as <- <- _.
    repeat split; constructor.
  - simpl in H. cbn [map filter fst].
    assert (Hweak : forall dim l, Forall (table_of dim items) l ->
                                  Forall (table_of dim ((index, input_dim) :: items)) l).
    { intros dim l Hl. eapply Forall_impl; [| exact Hl].
      intros kv [d [Hin Hrest]]. exists d. split; [right; exact Hin | exact Hrest]. }
    destruct (not_in index cont) eqn:E.
    + apply gbind_Ok in H. destruct H as [e1 [g1 [He1 H]]].
      apply gbind_Ok in H. destruct H as [e2 [g2 [He2 H]]].
      apply gbind_Ok in H. destruct H as [w1 [g3 [Hw1 H]]].
      apply gbind_Ok in H. destruct H as [w2 [g4 [Hw2 H]]].
      apply gbind_Ok in H. destruct H as [[r1 r2] [g5 [Hr H]]].
      unfold gret in H. cbn [fst snd] in H. injection H as <- <- _.
      apply IH in Hr. destruct Hr as [K1 [K2 [T1 T2]]].
      apply (nn_Embedding_Ok rng sample) in He1. destruct He1 as [Hd [_ [N1 D1]]].
      apply (nn_Embedding_Ok rng sample) in He2. destruct He2 as [_ [_ [N2 D2]]].
      apply (fresh_tensor_Ok rng sample) in Hw1. destruct Hw1 as [_ S1].
      apply (fresh_tensor_Ok rng sample) in Hw2. destruct Hw2 as [_ S2].
      cbn [map fst]. rewrite K1, K2.
      split; [reflexivity |]. split; [reflexivity |].
      split; constructor; try (apply Hweak; assumption);
        exists input_dim; cbn [fst snd copy_weight num_embeddings embedding_dim
                                 emb_weight];
        (split; [left; reflexivity |]); repeat split; assumption.
    + apply IH in H. destruct H as [K1 [K2 [T1 T2]]].
      repeat split; try assumption; apply Hweak; assumption.
Qed.

(** X11. The embedding tables of a constructed module.  With categorical
    features (the list of continuous indices is not as long as
    [input_dims]), both dicts have exactly the keys [i < len(input_dims)]
    that do not occur in [continuous_feas_index], in increasing order
    ([table_keys]); the
    table under key [i] has [input_dims[i]] rows and 1, respectively
    [fm_embedding_dim], columns, and so have the weights copied into it.
    A negative entry of [continuous_feas_index] excludes no slot.  When the
    continuous indices are distinct slot positions, the number of tables is
    [_cat_feas_nums].  Without categorical features no dict is created. *)
Theorem DeepFMBase_init_tables (input_dims : dims_arg) (dnn_units_size : list Z)
    (continuous_feas_index : option (list Z)) (D : Z)
    (g g' : rng) (self : DeepFMBase) :
  DeepFMBase_init rng sample input_dims dnn_units_size continuous_feas_index D g
  = Ok (self, g') ->
  (length (index_list continuous_feas_index) <> length (dims_list input_dims) ->
   exists l1 l2,
     _fm_1st_order_sparse_emb_layers self = Some l1
     /\ _fm_2nd_order_sparse_emb_layers self = Some l2
     /\ map fst l1 = table_keys (dims_list input_dims) (index_list continuous_feas_index)
     /\ map fst l2 = table_keys (dims_list input_dims) (index_list continuous_feas_index)
     /\ Forall (table_of 1 (enumerate (dims_list input_dims))) l1
     /\ Forall (table_of D (enumerate (dims_list input_dims))) l2
     /\ (Forall (fun i => i < 0)%Z (index_list continuous_feas_index) ->
         table_keys (dims_list input_dims) (index_list continuous_feas_index)
         = seq 0 (length (dims_list input_dims)))
     /\ (NoDup (index_list continuous_feas_index) ->
         Forall (fun i => 0 <= i < Z.of_nat (length (dims_list input_dims)))%Z
           (index_list continuous_feas_index) ->
         Z.of_nat (length l1) = _cat_feas_nums self
         /\ Z.of_nat (length l2) = _cat_feas_nums self))
  /\ (length (index_list continuous_feas_index) = length (dims_list input_dims) ->
      _fm_1st_order_sparse_emb_layers self = None
      /\ _fm_2nd_order_sparse_emb_layers self = None).
Proof.
  intros Hinit. unfold table_keys.
  set (dims := dims_list input_dims) in *.
  set (cont := index_list continuous_feas_index) in *.
  destruct (DeepFMBase_init_attributes rng sample _ _ _ _ _ _ _ Hinit)
    as [_ [Hnum _]].
  fold dims cont in Hnum.
  unfold DeepFMBase_init in Hinit. fold dims cont in Hinit.
  apply gbind_Ok in Hinit. destruct Hinit as [sparse [g1 [Hsp H]]].
  apply gbind_Ok in H. destruct H as [dense [g2 [_ H]]].
  apply gbind_Ok in H. destruct H as [[layers d'] [g3 [_ H]]].
  unfold gret in H. injection H as <- _.
  cbn [_fm_1st_order_sparse_emb_layers _fm_2nd_order_sparse_emb_layers
       _cat_feas_nums] in *.
  split.
  - intros Hlen. apply Nat.eqb_neq in Hlen. rewrite Hlen in Hsp. cbn [negb] in Hsp.
    apply gbind_Ok in Hsp. destruct Hsp as [[l1 l2] [g4 [Hb Hsp]]].
    unfold gret in Hsp. cbn [fst snd] in Hsp. injection Hsp as <- _.
    cbn [fst snd].
    apply build_sparse_layers_tables in Hb. destruct Hb as [K1 [K2 [T1 T2]]].
    unfold enumerate in K1, K2. rewrite map_fst_combine_seq in K1, K2.
    exists l1, l2. repeat split; try assumption; try reflexivity.
    + intros Hneg. apply filter_all.
      apply Forall_forall. intros i _. unfold not_in. apply negb_true_iff.
      destruct (existsb (Z.eqb (Z.of_nat i)) cont) eqn:E; [| reflexivity].
      apply existsb_exists in E. destruct E as [z [Hz E]].
      apply Z.eqb_eq in E. rewrite Forall_forall in Hneg.
      pose proof (Hneg z Hz). lia.
    + rename H into Hnd, H0 into Hr.
      rewrite <- (length_map fst l1), K1.
      rewrite <- (categorical_count dims cont Hnd Hr).
      unfold enumerate.
      rewrite (filter_combine_seq_length (fun i => not_in i cont)). reflexivity.
    + rename H into Hnd, H0 into Hr.
      rewrite <- (length_map fst l2), K2.
      rewrite <- (categorical_count dims cont Hnd Hr).
      unfold enumerate.
      rewrite (filter_combine_seq_length (fun i => not_in i cont)). reflexivity.
  - intros Hlen. apply Nat.eqb_eq in Hlen. rewrite Hlen in Hsp. cbn [negb] in Hsp.
    unfold gret in Hsp. injection Hsp as <- _. split; reflexivity.
Qed.

End Tables.

Lemma DeepFMBase_init_tables_witness :
  exists l1 l2,
    _fm_1st_order_sparse_emb_layers Examples.mixed_party = Some l1
    /\ _fm_2nd_order_sparse_emb_layers Examples.mixed_party = Some l2
    /\ map fst l1 = [0%nat] /\ map fst l2 = [0%nat]
    /\ Z.of_nat (length l1) = 1%Z.
Proof.
  destruct (example_party_built
              (DeepFMBase_init nat Examples.counter_sample (DimsList [5; 1]%Z)
                 [8%Z] (Some [1]%Z) 4 0%nat) Examples.no_module) as [g' Hinit];
    [intros e; vm_compute; discriminate |].
  destruct (DeepFMBase_init_tables nat Examples.counter_sample
              (DimsList [5; 1]%Z) [8%Z] (Some [1]%Z) 4 0%nat g'
              Examples.mixed_party Hinit) as [Hcat _].
  destruct Hcat as [l1 [l2 [E1 [E2 [K1 [K2 [_ [_ [_ Hn]]]]]]]]];
    [simpl; lia |].
  exists l1, l2. repeat split; try assumption.
  apply Hn.
  - repeat constructor. simpl. tauto.
  - repeat constructor; simpl; lia.
Defined.

(* ------------------------------------------------------------------ *)
(** ** Configurations the constructor accepts *)

Section InitSucceeds.

Variable rng : Type.
Variable sample : rng -> nat -> list Qc * rng.

Lemma gbind_step {A B} (c : Gen rng A) (k : A -> Gen rng B) (g g1 : rng) (a : A) :
  c g = Ok (a, g1) -> gbind rng c k g = k a g1.
Proof. intros H. unfold gbind. rewrite H. reflexivity. Qed.

Lemma fresh_tensor_succeeds (sizes : list Z) (g : rng) :
  Forall (fun n => 0 <= n)%Z sizes ->
  exists t g', fresh_tensor rng sample sizes g = Ok (t, g').
Proof.
  intros H. unfold fresh_tensor.
  assert (E : existsb (fun n => n <? 0)%Z sizes = false).
  { clear g. induction H as [| n sizes Hn _ IH]; [reflexivity |].
    simpl. rewrite IH. apply Z.ltb_ge in Hn. rewrite Hn. reflexivity. }
  rewrite E. destruct (sample g (numel (map Z.to_nat sizes))) as [d g1].
  eexists. eexists. reflexivity.
Qed.

Lemma nn_Linear_succeeds (i o : Z) (g : rng) :
  (0 <= i)%Z -> (0 <= o)%Z ->
  exists l g', nn_Linear rng sample i o g = Ok (l, g').
Proof.
  intros Hi Ho. unfold nn_Linear.
  destruct (fresh_tensor_succeeds [o; i] g) as [w [g1 Hw]];
    [constructor; [| constructor; [| constructor]]; assumption |].
  destruct (fresh_tensor_succeeds [o] g1) as [b [g2 Hb]];
    [constructor; [| constructor]; assumption |].
  rewrite (gbind_step _ _ _ _ _ Hw), (gbind_step _ _ _ _ _ Hb).
  eexists. eexists. reflexivity.
Qed.

Lemma nn_Embedding_succeeds (n d : Z) (g : rng) :
  (0 <= n)%Z -> (0 <= d)%Z ->
  exists e g', nn_Embedding rng sample n d g = Ok (e, g').
Proof.
  intros Hn Hd. unfold nn_Embedding.
  destruct (fresh_tensor_succeeds [n; d] g) as [w [g1 Hw]];
    [constructor; [| constructor; [| constructor]]; assumption |].
  rewrite (gbind_step _ _ _ _ _ Hw).
  eexists. eexists. reflexivity.
Qed.

Lemma build_sparse_layers_succeeds (cont : list Z) (D : Z) :
  (0 <= D)%Z ->
  forall (items : list (nat * Z)) (g : rng),
    Forall (fun it => 0 <= snd it)%Z items ->
    exists r g', build_sparse_layers rng sample items cont D g = Ok (r, g').
Proof.
  intros HD. induction items as [| [index input_dim] items IH]; intros g H.
  - eexists. eexists. reflexivity.
  - inversion H as [| ? ? Hd Hrest]; subst. cbn [snd] in Hd.
    cbn [build_sparse_layers].
    destruct (not_in index cont); [| apply IH; exact Hrest].
    destruct (nn_Embedding_succeeds input_dim 1 g Hd) as [e1 [g1 E1]]; [lia |].
    destruct (nn_Embedding_succeeds input_dim D g1 Hd HD) as [e2 [g2 E2]].
    destruct (fresh_tensor_succeeds [input_dim; 1%Z] g2) as [w1 [g3 W1]];
      [constructor; [| constructor; [| constructor]]; lia |].
    destruct (fresh_tensor_succeeds [input_dim; D] g3) as [w2 [g4 W2]];
      [constructor; [| constructor; [| constructor]]; assumption |].
    destruct (IH g4 Hrest) as [r [g5 R]].
    rewrite (gbind_step _ _ _ _ _ E1), (gbind_step _ _ _ _ _ E2).
    rewrite (gbind_step _ _ _ _ _ W1), (gbind_step _ _ _ _ _ W2).
    rewrite (gbind_step _ _ _ _ _ R).
    eexists. eexists. reflexivity.
Qed.

Lemma build_dnn_succeeds :
  forall (units_size : list Z) (d : Z) (g : rng),
    (0 <= d)%Z -> Forall (fun u => 0 <= u)%Z units_size ->
    exists r g', build_dnn rng sample d units_size g = Ok (r, g').
Proof.
  induction units_size as [| units rest IH]; intros d g Hd H.
  - eexists. eexists. reflexivity.
  - inversion H as [| ? ? Hu Hrest]; subst. cbn [build_dnn].
    destruct (nn_Linear_succeeds d units g Hd Hu) as [l [g1 L]].
    destruct (IH units g1 Hu Hrest) as [r [g2 R]].
    rewrite (gbind_step _ _ _ _ _ L), (gbind_step _ _ _ _ _ R).
    eexists. eexists. reflexivity.
Qed.

(** Lines 80-82 on indices that are slot positions. *)
Lemma continuous_dim_of_succeeds (input_dims : list Z) :
  Forall (fun d => 0 < d)%Z input_dims ->
  forall (idx : list Z) (acc : Z),
    Forall (fun i => 0 <= i < Z.of_nat (length input_dims))%Z idx ->
    (0 <= acc)%Z ->
    exists c, continuous_dim_of input_dims idx acc = Ok c /\ (acc <= c)%Z.
Proof.
  intros Hdims. induction idx as [| i idx IH]; intros acc H Hacc.
  - exists acc. split; [reflexivity | lia].
  - inversion H as [| ? ? Hi Hrest]; subst. cbn [continuous_dim_of].
    unfold getitem_int.
    replace (0 <=? i)%Z with true by (symmetry; apply Z.leb_le; lia).
    unfold getitem.
    destruct (nth_error input_dims (Z.to_nat i)) as [d |] eqn:E.
    + assert (Hd : (0 < d)%Z).
      { rewrite Forall_forall in Hdims. apply Hdims.
        eapply nth_error_In. exact E. }
      cbn [bind]. destruct (IH (acc + d)%Z Hrest) as [c [Hc Hle]]; [lia |].
      exists c. split; [exact Hc | lia].
    + apply nth_error_None in E. lia.
Qed.

(** X12. The constructor accepts every valid configuration: with at
    least one slot, positive cardinalities and widths, continuous indices
    that are distinct slot positions, a non-negative embedding dimension
    and non-negative layer sizes, [DeepFMBase.__init__] returns a module,
    whatever the state of the random source. *)
Theorem DeepFMBase_init_succeeds (input_dims : dims_arg) (dnn_units_size : list Z)
    (continuous_feas_index : option (list Z)) (D : Z) (g : rng) :
  valid_config (dims_list input_dims) (index_list continuous_feas_index) ->
  (0 <= D)%Z ->
  Forall (fun u => 0 <= u)%Z dnn_units_size ->
  exists self g',
    DeepFMBase_init rng sample input_dims dnn_units_size continuous_feas_index D g
    = Ok (self, g').
Proof.
  intros [Hn [Hdims [Hnd Hr]]] HD Hu. unfold DeepFMBase_init.
  set (dims := dims_list input_dims) in *.
  set (cont := index_list continuous_feas_index) in *.
  pose proof (categorical_count dims cont Hnd Hr) as Hcount.
  set (spd := if negb (length cont =? length dims)%nat
              then ((Z.of_nat (length dims) - Z.of_nat (length cont)) * D)%Z
              else D).
  assert (Hspd : (0 <= spd)%Z).
  { unfold spd. destruct (negb (length cont =? length dims)%nat); [| exact HD].
    apply Z.mul_nonneg_nonneg; [lia | exact HD]. }
  assert (Hsparse : exists sp g1,
             (if negb (length cont =? length dims)%nat
              then gbind rng (build_sparse_layers rng sample (enumerate dims) cont D)
                     (fun r => gret rng (Some (fst r), Some (snd r)))
              else gret rng (None, None)) g = Ok (sp, g1)).
  { destruct (negb (length cont =? length dims)%nat).
    - destruct (build_sparse_layers_succeeds cont D HD (enumerate dims) g)
        as [r [g1 R]].
      + apply Forall_forall. intros [i d] Hin. apply In_enumerate in Hin.
        apply nth_error_In in Hin. rewrite Forall_forall in Hdims.
        pose proof (Hdims d Hin). cbn [snd]. lia.
      + rewrite (gbind_step _ _ _ _ _ R). eexists. eexists. reflexivity.
    - eexists. eexists. reflexivity. }
  destruct Hsparse as [sp [g1 Hsp]].
  rewrite (gbind_step _ _ _ _ _ Hsp).
  assert (Hdense : exists de g2,
             (if negb (length cont =? 0)%nat
              then gbind rng (glift rng (continuous_dim_of dims cont 0%Z))
                     (fun continuous_dim =>
                        gbind rng (nn_Linear rng sample continuous_dim 1)
                          (fun l1 =>
                             gbind rng (nn_Linear rng sample continuous_dim spd)
                               (fun l2 => gret rng (Some l1, Some [ModLinear l2; ModReLU]))))
              else gret rng (None, None)) g1 = Ok (de, g2)).
  { destruct (negb (length cont =? 0)%nat).
    - destruct (continuous_dim_of_succeeds dims Hdims cont 0%Z Hr) as [c [Hc Hle]];
        [lia |].
      destruct (nn_Linear_succeeds c 1 g1 Hle) as [la [g2 La]]; [lia |].
      destruct (nn_Linear_succeeds c spd g2 Hle Hspd) as [lb [g3 Lb]].
      assert (Hl : glift rng (continuous_dim_of dims cont 0%Z) g1 = Ok (c, g1))
        by (unfold glift; rewrite Hc; reflexivity).
      rewrite (gbind_step _ _ _ _ _ Hl).
      rewrite (gbind_step _ _ _ _ _ La), (gbind_step _ _ _ _ _ Lb).
      eexists. eexists. reflexivity.
    - eexists. eexists. reflexivity. }
  destruct Hdense as [de [g2 Hde]].
  fold spd. rewrite (gbind_step _ _ _ _ _ Hde).
  destruct (build_dnn_succeeds dnn_units_size spd g2 Hspd Hu) as [r [g3 R]].
  rewrite (gbind_step _ _ _ _ _ R).
  eexists. eexists. reflexivity.
Qed.

End InitSucceeds.

Lemma DeepFMBase_init_succeeds_witness :
  exists self g',
    DeepFMBase_init nat Examples.counter_sample (DimsList [5; 1]%Z) [8%Z]
      (Some [1]%Z) 4 0%nat = Ok (self, g').
Proof.
  apply (DeepFMBase_init_succeeds nat Examples.counter_sample
           (DimsList [5; 1]%Z) [8%Z] (Some [1]%Z) 4 0%nat).
  - solve_config.
  - lia.
  - repeat constructor. lia.
Defined.

(* ------------------------------------------------------------------ *)
(** ** The shapes of what [forward] returns *)

Lemma second_order_stats_shapes (B D : nat) (t0 : tensor) (rest : list tensor) :
  Forall (fun t => shape t = [B; D]) (t0 :: rest) ->
  exists s q di, second_order_stats (t0 :: rest) = Ok (s, q, di)
                 /\ shape s = [B; D] /\ shape q = [B; D]
                 /\ shape di = [B; (S (length rest) * D)%nat].
Proof.
  intros H.
  destruct (torch_stack_shape B D t0 rest H) as [st [Hst Sst]].
  destruct (torch_sum_shape3 B (S (length rest)) D st Sst) as [s [Hs Ss]].
  destruct (torch_sum_shape3 B (S (length rest)) D (torch_pow st 2) Sst) as [q [Hq Sq]].
  destruct (torch_flatten1_shape B (S (length rest)) D st Sst) as [di [Hdi Sdi]].
  exists s, q, di. unfold second_order_stats. unfold tensor in *.
  rewrite Hst. cbn [bind]. rewrite Hs. cbn [bind].
  rewrite Hq. cbn [bind]. rewrite Hdi. cbn [bind].
  repeat split; assumption.
Qed.

Section ForwardShapes.

Variables (input_dims cont : list Z) (D : Z) (self : DeepFMBase).
Variables (B : nat) (x : list torch_value).
Hypothesis Hconfig : valid_config input_dims cont.
Hypothesis Hbuilt : built_for input_dims cont D self.
Hypothesis Hx : valid_input input_dims cont B x.

(** A valid configuration has a categorical or a continuous slot. *)
Lemma some_features :
  _has_cat_feas self = false -> _has_cont_feas self = true.
Proof.
  intros Hc. destruct Hbuilt as [_ [_ [Hcat [Hcont _]]]].
  destruct Hconfig as [Hn _].
  rewrite Hc in Hcat. symmetry in Hcat. apply negb_false_iff in Hcat.
  apply Nat.eqb_eq in Hcat.
  rewrite Hcont. apply negb_true_iff. apply Nat.eqb_neq. lia.
Qed.

(** Lines 112-119: the first-order term is (B, 1)-shaped. *)
Lemma fm_1st_dense_shape (fm_1st_part : option tensor) :
  (forall t, fm_1st_part = Some t -> shape t = [B; 1%nat]) ->
  (_has_cont_feas self = false -> exists t, fm_1st_part = Some t) ->
  exists dense_cat p,
    fm_1st_dense self x fm_1st_part = Ok (dense_cat, Some p)
    /\ shape p = [B; 1%nat]
    /\ (_has_cont_feas self = true ->
        exists c t, continuous_dim_of input_dims cont 0 = Ok c
                    /\ dense_cat = Some (FloatT t)
                    /\ shape t = [B; Z.to_nat c]).
Proof.
  intros Hp Hsome. unfold fm_1st_dense.
  destruct (_has_cont_feas self) eqn:Hcont.
  2: { destruct (Hsome eq_refl) as [t ->]. exists None, t.
       split; [reflexivity |]. split; [apply Hp; reflexivity | discriminate]. }
  destruct Hbuilt as [_ [Hidx [_ [Hc [_ [Hde _]]]]]].
  destruct (Hde Hcont) as [c [la [lb [Ec [Ea [Ha1 [Ha2 _]]]]]]].
  destruct Hconfig as [_ [Hdims [_ Hr]]].
  rewrite Hcont in Hc. symmetry in Hc. apply negb_true_iff in Hc.
  apply Nat.eqb_neq in Hc.
  destruct (dense_feas_valid input_dims cont B x Hx Hdims cont 0%Z c)
    as [vs [Hvs [Hsh [Hsum Hlen]]]]; [| exact Ec | lia |].
  { apply Forall_forall. intros i Hi. rewrite Forall_forall in Hr.
    split; [apply (Hr i Hi) | exact Hi]. }
  destruct (torch_cat_values_floats B vs) as [dc [Hdc Sdc]]; [| exact Hsh |].
  { intros ->. simpl in Hlen. lia. }
  change (Z.to_nat 0 + ?k)%nat with k in Hsum. rewrite <- Hsum in Sdc.
  destruct (Linear_forward_shape la B dc) as [r [Hr' Sr]];
    [rewrite Ha1; exact Sdc |].
  rewrite Ha2 in Sr.
  rewrite Hidx, Hvs. cbn [bind]. rewrite Hdc. cbn [bind].
  rewrite Ea. cbn [getattr bind Linear_call]. rewrite Hr'. cbn [bind].
  destruct fm_1st_part as [p |].
  - destruct (torch_add_shape [B; 1%nat] p r (Hp p eq_refl) Sr) as [q [Hq Sq]].
    rewrite Hq. cbn [bind]. exists (Some (FloatT dc)), q.
    split; [reflexivity |]. split; [exact Sq |].
    intros _. exists c, dc. repeat split; assumption.
  - exists (Some (FloatT dc)), r.
    split; [reflexivity |]. split; [exact Sr |].
    intros _. exists c, dc. repeat split; assumption.
Qed.

(** Lines 123-137: the statistics are (B, D)-shaped. *)
Lemma fm_2nd_sparse_shapes :
  _has_cat_feas self = true ->
  exists s q di,
    fm_2nd_sparse self x = Ok (Some s, Some q, Some di)
    /\ shape s = [B; Z.to_nat D] /\ shape q = [B; Z.to_nat D]
    /\ shape di = [B; Z.to_nat (second_part_dim_of input_dims cont D)].
Proof.
  intros Hcat. unfold fm_2nd_sparse. rewrite Hcat.
  pose proof Hbuilt as [_ [_ [_ [_ [Hsp _]]]]].
  destruct (Hsp Hcat) as [l1 [l2 [_ [E2 [_ F2]]]]].
  destruct Hconfig as [_ [Hdims _]].
  destruct (lookup_all_valid input_dims cont B x Hx Hdims D _ l2
              (categorical_items_valid input_dims cont) F2)
    as [res [Hres [Hsh Hlen]]].
  pose proof (categorical_items_nonempty input_dims cont D self Hconfig Hbuilt Hcat)
    as Hpos.
  pose proof (second_part_dim_categorical input_dims cont D self Hconfig Hbuilt Hcat)
    as Hspd.
  apply Forall2_length in F2.
  destruct res as [| r0 rest]; [simpl in Hlen; lia |].
  destruct (second_order_stats_shapes B (Z.to_nat D) r0 rest Hsh)
    as [s [q [di [Hst [Ss [Sq Sdi]]]]]].
  exists s, q, di.
  rewrite E2. cbn [getattr bind]. rewrite Hres. cbn [bind].
  rewrite Hst. cbn [bind fst snd].
  split; [reflexivity |]. split; [exact Ss |]. split; [exact Sq |].
  rewrite Sdi, Hspd, F2, <- Hlen. reflexivity.
Qed.

(** The four tensors [forward] returns on a valid input, [w] being the
    width the DNN produces. *)
Lemma DeepFMBase_forward_tuple (w : nat) :
  dnn_chain (Z.to_nat (second_part_dim_of input_dims cont D)) (_dnn_layer self)
  = Some w ->
  exists p,
    DeepFMBase_forward self (ArgList x)
    = Ok [Some (dnn_out p); Some (first_order p);
          Some (sum_emb p); Some (square_and_sum_emb p)]
    /\ tuple_shapes B (Z.to_nat D) w (_has_cat_feas self) p.
Proof.
  intros Hchain.
  unfold DeepFMBase_forward. cbn [arg_list].
  pose proof Hbuilt as [Hsize _].
  rewrite Hsize, (valid_input_length _ _ _ _ Hx), Nat.eqb_refl.
  cbn [py_assert bind].
  destruct (fm_1st_sparse_valid input_dims cont D self B x Hconfig Hbuilt Hx)
    as [p1 [E1 [Hp1 Hp1n]]].
  rewrite E1. cbn [bind].
  destruct (fm_1st_dense_shape p1) as [dense_cat [f [E2 [Sf Hdense]]]].
  { intros t ->. destruct (_has_cat_feas self) eqn:Ecat.
    - destruct (Hp1 eq_refl) as [t' [Et St]]. injection Et as ->. exact St.
    - discriminate (Hp1n eq_refl). }
  { intros Hc. destruct (_has_cat_feas self) eqn:Ecat.
    - destruct (Hp1 eq_refl) as [t' [Et _]]. exists t'. exact Et.
    - rewrite (some_features Ecat) in Hc. discriminate Hc. }
  rewrite E2. cbn [bind fst snd].
  destruct (_has_cat_feas self) eqn:Ecat.
  - destruct (fm_2nd_sparse_shapes Ecat) as [s [q [di [E3 [Ss [Sq Sdi]]]]]].
    rewrite E3. cbn [bind fst snd].
    destruct (dnn_input_dense_valid input_dims cont D self B Hbuilt
                dense_cat (Some di) Hdense) as [t [E4 St]].
    { intros t Ht. injection Ht as <-. exact Sdi. }
    { intros _. exists di. reflexivity. }
    rewrite E4. cbn [bind].
    destruct (Sequential_forward_shape B (_dnn_layer self) _ w t Hchain St)
      as [o [Ho So]].
    unfold dnn_layer_call. rewrite Ho. cbn [bind].
    exists (mkParty o f s q). split; [reflexivity |].
    repeat split; assumption.
  - assert (E3 : fm_2nd_sparse self x = Ok (None, None, None))
      by (unfold fm_2nd_sparse; rewrite Ecat; reflexivity).
    rewrite E3. cbn [bind fst snd].
    destruct (dnn_input_dense_valid input_dims cont D self B Hbuilt
                dense_cat None Hdense) as [t [E4 St]].
    { intros t Ht. discriminate Ht. }
    { intros Hc. rewrite (some_features Ecat) in Hc. discriminate Hc. }
    rewrite E4. cbn [bind].
    destruct (Sequential_forward_shape B (_dnn_layer self) _ w t Hchain St)
      as [o [Ho So]].
    unfold dnn_layer_call. rewrite Ho. cbn [bind].
    exists (mkParty o f (torch_tensor_float32 0) (torch_tensor_float32 0)).
    split; [reflexivity |]. repeat split; assumption.
Qed.

End ForwardShapes.

Lemma last_Forall {A} (P : A -> Prop) (l : list A) (d : A) :
  Forall P l -> P d -> P (last l d).
Proof.
  induction 1 as [| a l Ha Hl IH]; intros Hd; [exact Hd |].
  destruct l as [| b l]; [exact Ha |].
  change (P (last (b :: l) d)). apply IH. exact Hd.
Qed.

Section OutputWidth.

Variable rng : Type.
Variable sample : rng -> nat -> list Qc * rng.

Lemma build_dnn_units (units_size : list Z) :
  forall (d : Z) (g g' : rng) (r : list Module * Z),
    build_dnn rng sample d units_size g = Ok (r, g') ->
    Forall (fun u => 0 <= u)%Z units_size.
Proof.
  induction units_size as [| units rest IH]; intros d g g' r H; [constructor |].
  simpl in H.
  apply gbind_Ok in H. destruct H as [l [g1 [Hl H]]].
  apply gbind_Ok in H. destruct H as [r' [g2 [Hr _]]].
  apply (nn_Linear_Ok rng sample) in Hl. destruct Hl as [_ [Hu _]].
  constructor; [exact Hu | apply (IH _ _ _ _ Hr)].
Qed.

(** Lines 57-61 and 91-97: the DNN of a constructed module takes the
    width [second_part_dim] to the last of [dnn_units_size]
    ([second_part_dim] itself when the list is empty), and that width is
    not negative. *)
Lemma DeepFMBase_init_width (input_dims : dims_arg) (dnn_units_size : list Z)
    (continuous_feas_index : option (list Z)) (D : Z)
    (g g' : rng) (self : DeepFMBase) :
  valid_config (dims_list input_dims) (index_list continuous_feas_index) ->
  DeepFMBase_init rng sample input_dims dnn_units_size continuous_feas_index D g
  = Ok (self, g') ->
  dnn_chain
    (Z.to_nat (second_part_dim_of (dims_list input_dims)
                 (index_list continuous_feas_index) D))
    (_dnn_layer self)
  = Some (Z.to_nat
            (last dnn_units_size
               (second_part_dim_of (dims_list input_dims)
                  (index_list continuous_feas_index) D)))
  /\ (0 <= last dnn_units_size
             (second_part_dim_of (dims_list input_dims)
                (index_list continuous_feas_index) D))%Z.
Proof.
  intros [Hn [Hdims [Hnd Hr]]] H. unfold DeepFMBase_init in H.
  set (dims := dims_list input_dims) in *.
  set (cont := index_list continuous_feas_index) in *.
  fold (second_part_dim_of dims cont D) in H.
  set (spd := second_part_dim_of dims cont D) in *.
  apply gbind_Ok in H. destruct H as [sparse [g1 [Hsp H]]].
  apply gbind_Ok in H. destruct H as [dense [g2 [Hde H]]].
  apply gbind_Ok in H. destruct H as [[layers d'] [g3 [Hdnn H]]].
  unfold gret in H. injection H as <- _. cbn [_dnn_layer fst].
  pose proof (build_dnn_chain rng sample _ _ _ _ _ _ Hdnn) as Hc.
  pose proof (build_dnn_full_chain rng sample _ _ _ _ _ _ Hdnn) as [_ [Hd' _]].
  pose proof (build_dnn_units _ _ _ _ _ Hdnn) as Hu.
  rewrite Hd' in Hc. split; [exact Hc |].
  apply last_Forall; [exact Hu |].
  pose proof (categorical_count dims cont Hnd Hr) as Hcount.
  unfold spd, second_part_dim_of.
  destruct (length cont =? length dims)%nat eqn:E; cbn [negb] in *.
  - pose proof E as Eb. apply Nat.eqb_eq in E.
    assert (E0 : (length cont =? 0)%nat = false) by (apply Nat.eqb_neq; lia).
    rewrite E0 in Hde. cbn [negb] in Hde.
    apply gbind_Ok in Hde. destruct Hde as [c [g4 [_ Hde]]].
    apply gbind_Ok in Hde. destruct Hde as [la [g5 [_ Hde]]].
    apply gbind_Ok in Hde. destruct Hde as [lb [g6 [Hlb _]]].
    apply (nn_Linear_Ok rng sample) in Hlb. destruct Hlb as [_ [Hs _]].
    unfold spd, second_part_dim_of in Hs. rewrite Eb in Hs. exact Hs.
  - apply Nat.eqb_neq in E.
    apply gbind_Ok in Hsp. destruct Hsp as [[l1 l2] [g4 [Hb _]]].
    apply (build_sparse_layers_Ok rng sample) in Hb. destruct Hb as [_ F2].
    destruct F2 as [| it kv items l2' Hl _].
    + simpl in Hcount. lia.
    + destruct Hl as [_ [_ [_ H0]]]. apply Z.mul_nonneg_nonneg; [lia | exact H0].
Qed.

(** X13. The shapes of the tuple a party sends.  For a module
    constructed for a valid configuration and an input of [B] examples
    that fits it, [forward] returns four tensors: the DNN branch of shape
    (B, w), [w] being the last of [dnn_units_size] (or [second_part_dim]
    when that list is empty), the first-order term of shape (B, 1), and
    [sum_emb] and [square_and_sum_emb] of shape (B, fm_embedding_dim) when
    the party has categorical features, the 0-dimensional sentinel when it
    has none. *)
Theorem DeepFMBase_forward_shapes (input_dims : dims_arg) (dnn_units_size : list Z)
    (continuous_feas_index : option (list Z)) (D : Z)
    (g g' : rng) (self : DeepFMBase) (B : nat) (x : list torch_value) :
  valid_config (dims_list input_dims) (index_list continuous_feas_index) ->
  DeepFMBase_init rng sample input_dims dnn_units_size continuous_feas_index D g
  = Ok (self, g') ->
  valid_input (dims_list input_dims) (index_list continuous_feas_index) B x ->
  exists dnn_output fm_1st_part sum_emb square_and_sum_emb,
    DeepFMBase_forward self (ArgList x)
    = Ok [Some dnn_output; Some fm_1st_part; Some sum_emb; Some square_and_sum_emb]
    /\ shape dnn_output
       = [B; Z.to_nat
               (last dnn_units_size
                  (second_part_dim_of (dims_list input_dims)
                     (index_list continuous_feas_index) D))]
    /\ shape fm_1st_part = [B; 1%nat]
    /\ (length (index_list continuous_feas_index) <> length (dims_list input_dims) ->
        shape sum_emb = [B; Z.to_nat D]
        /\ shape square_and_sum_emb = [B; Z.to_nat D])
    /\ (length (index_list continuous_feas_index) = length (dims_list input_dims) ->
        sum_emb = torch_tensor_float32 0
        /\ square_and_sum_emb = torch_tensor_float32 0).
Proof.
  intros Hconfig Hinit Hx.
  pose proof (DeepFMBase_init_built rng sample _ _ _ _ _ _ _ Hinit) as Hbuilt.
  destruct (DeepFMBase_init_width _ _ _ _ _ _ _ Hconfig Hinit) as [Hchain _].
  destruct (DeepFMBase_forward_tuple _ _ _ _ _ _ Hconfig Hbuilt Hx _ Hchain)
    as [p [Hp [Sd [Sf Hstats]]]].
  exists (dnn_out p), (first_order p), (sum_emb p), (square_and_sum_emb p).
  split; [exact Hp |]. split; [exact Sd |]. split; [exact Sf |].
  destruct Hbuilt as [_ [_ [Hcat _]]]. rewrite Hcat in Hstats.
  split; intros Hlen.
  - apply Nat.eqb_neq in Hlen. rewrite Hlen in Hstats. exact Hstats.
  - apply Nat.eqb_eq in Hlen. rewrite Hlen in Hstats. exact Hstats.
Qed.

End OutputWidth.

Lemma DeepFMBase_forward_shapes_witness :
  exists dnn_output fm_1st_part sum_emb square_and_sum_emb,
    DeepFMBase_forward Examples.mixed_party Examples.mixed_input
    = Ok [Some dnn_output; Some fm_1st_part; Some sum_emb; Some square_and_sum_emb]
    /\ shape dnn_output = [2; 8]%nat
    /\ shape fm_1st_part = [2; 1]%nat
    /\ shape sum_emb = [2; 4]%nat
    /\ shape square_and_sum_emb = [2; 4]%nat.
Proof.
  destruct (example_party_built
              (DeepFMBase_init nat Examples.counter_sample (DimsList [5; 1]%Z)
                 [8%Z] (Some [1]%Z) 4 0%nat) Examples.no_module) as [g' Hinit];
    [intros e; vm_compute; discriminate |].
  assert (Hc : valid_config (dims_list (DimsList [5; 1]%Z)) (index_list (Some [1]%Z)))
    by solve_config.
  destruct (DeepFMBase_forward_shapes nat Examples.counter_sample
              (DimsList [5; 1]%Z) [8%Z] (Some [1]%Z) 4 0%nat g'
              Examples.mixed_party 2
              [LongT (mkArray [2%nat] [0; 4]%Z);
               FloatT (Examples.T [2; 1]%nat [3; 4]%Z)]
              Hc Hinit)
    as [d [f [s [q [Hout [Sd [Sf [Hs _]]]]]]]].
  - constructor; [| constructor; [| constructor]].
    + eexists. split; [reflexivity |]. split; [reflexivity |].
      repeat constructor; lia.
    + eexists. split; reflexivity.
  - exists d, f, s, q. split; [exact Hout |].
    split; [exact Sd |]. split; [exact Sf |].
    apply Hs. simpl. lia.
Defined.

(* ------------------------------------------------------------------ *)
(** ** Two parties and the fusion module *)

Section Pipeline.

Variable rng : Type.
Variable sample : rng -> nat -> list Qc * rng.
Variable nn_Sigmoid : Qc -> Qc.

(** X14. Two base modules and the fusion module fit together.  Let two
    parties construct their base model for valid configurations with the
    same embedding dimension, let the fusion module be constructed for the
    widths of their two DNN branches (the last of each [dnn_units_size]),
    and let both parties run [forward] on fitting inputs of the same
    batch of [B] examples.  Both calls return their four tensors; the
    fusion module, given the eight tensors in order, returns a (B, 1)-shaped
    prediction when at least one party has categorical features, and raises
    when neither has. *)
Theorem two_party_pipeline
    (dims_a dims_b : dims_arg) (units_a units_b fuse_units : list Z)
    (cont_a cont_b : option (list Z)) (D : Z)
    (ga ga' gb gb' gf gf' : rng) (a b : DeepFMBase) (fuse : DeepFMFuse)
    (B : nat) (xa xb : list torch_value) :
  valid_config (dims_list dims_a) (index_list cont_a) ->
  valid_config (dims_list dims_b) (index_list cont_b) ->
  DeepFMBase_init rng sample dims_a units_a cont_a D ga = Ok (a, ga') ->
  DeepFMBase_init rng sample dims_b units_b cont_b D gb = Ok (b, gb') ->
  DeepFMFuse_init rng sample nn_Sigmoid
    [last units_a (second_part_dim_of (dims_list dims_a) (index_list cont_a) D);
     last units_b (second_part_dim_of (dims_list dims_b) (index_list cont_b) D)]
    fuse_units gf = Ok (fuse, gf') ->
  valid_input (dims_list dims_a) (index_list cont_a) B xa ->
  valid_input (dims_list dims_b) (index_list cont_b) B xb ->
  exists pa pb,
    DeepFMBase_forward a (ArgList xa)
    = Ok [Some (dnn_out pa); Some (first_order pa);
          Some (sum_emb pa); Some (square_and_sum_emb pa)]
    /\ DeepFMBase_forward b (ArgList xb)
       = Ok [Some (dnn_out pb); Some (first_order pb);
             Some (sum_emb pb); Some (square_and_sum_emb pb)]
    /\ (_has_cat_feas a = true \/ _has_cat_feas b = true ->
        exists preds, DeepFMFuse_forward fuse (flat [pa; pb]) = Ok preds
                      /\ shape preds = [B; 1%nat])
    /\ (_has_cat_feas a = false -> _has_cat_feas b = false ->
        raises (DeepFMFuse_forward fuse (flat [pa; pb]))).
Proof.
  intros Hca Hcb Ha Hb Hf Hxa Hxb.
  pose proof (DeepFMBase_init_built rng sample _ _ _ _ _ _ _ Ha) as Hba.
  pose proof (DeepFMBase_init_built rng sample _ _ _ _ _ _ _ Hb) as Hbb.
  destruct (DeepFMBase_init_width rng sample _ _ _ _ _ _ _ Hca Ha) as [Cha Hwa].
  destruct (DeepFMBase_init_width rng sample _ _ _ _ _ _ _ Hcb Hb) as [Chb Hwb].
  destruct (DeepFMBase_forward_tuple _ _ _ _ _ _ Hca Hba Hxa _ Cha) as [pa [Hpa Spa]].
  destruct (DeepFMBase_forward_tuple _ _ _ _ _ _ Hcb Hbb Hxb _ Chb) as [pb [Hpb Spb]].
  destruct (DeepFMFuse_init_chain rng sample nn_Sigmoid _ _ _ _ _ Hf) as [Chf _].
  set (wa := last units_a (second_part_dim_of (dims_list dims_a) (index_list cont_a) D))
    in *.
  set (wb := last units_b (second_part_dim_of (dims_list dims_b) (index_list cont_b) D))
    in *.
  assert (Hchain : dnn_chain
                     (fold_right Nat.add 0%nat
                        (map fst [(Z.to_nat wa, _has_cat_feas a);
                                  (Z.to_nat wb, _has_cat_feas b)]))
                     (_dnn fuse) = Some 1%nat).
  { cbn [map fst fold_right] in *.
    replace (Z.to_nat wa + (Z.to_nat wb + 0))%nat with (Z.to_nat (wa + (wb + 0)))
      by lia.
    exact Chf. }
  assert (Hshapes : Forall2 (fun s p => tuple_shapes B (Z.to_nat D) (fst s) (snd s) p)
                      [(Z.to_nat wa, _has_cat_feas a); (Z.to_nat wb, _has_cat_feas b)]
                      [pa; pb]).
  { constructor; [exact Spa |]. constructor; [exact Spb | constructor]. }
  destruct (fuse_forward_by_shapes fuse B (Z.to_nat D) _ _ Hshapes Hchain)
    as [Hyes Hno].
  exists pa, pb. split; [exact Hpa |]. split; [exact Hpb |]. split.
  - intros Hcat. apply Hyes. cbn [map snd accepted].
    destruct (_has_cat_feas a), (_has_cat_feas b); try reflexivity.
    destruct Hcat; discriminate.
  - intros Ea Eb. apply Hno. cbn [map snd accepted]. rewrite Ea, Eb. reflexivity.
Qed.

End Pipeline.

Lemma built_Ok {A G : Type} (r : result (A * G)) (d : A) :
  (forall e, r <> Raise e) -> exists g', r = Ok (built r d, g').
Proof.
  intros H. destruct r as [[a g'] | e].
  - exists g'. reflexivity.
  - contradiction (H e). reflexivity.
Qed.

Lemma two_party_pipeline_witness :
  exists pa pb preds,
    DeepFMBase_forward Examples.cat_party Examples.cat_input
    = Ok [Some (dnn_out pa); Some (first_order pa);
          Some (sum_emb pa); Some (square_and_sum_emb pa)]
    /\ DeepFMBase_forward Examples.cont_party Examples.cont_input
       = Ok [Some (dnn_out pb); Some (first_order pb);
             Some (sum_emb pb); Some (square_and_sum_emb pb)]
    /\ DeepFMFuse_forward TwoParties.fusion (flat [pa; pb]) = Ok preds
    /\ shape preds = [2; 1]%nat.
Proof.
  destruct (example_party_built
              (DeepFMBase_init nat Examples.counter_sample (DimsList [5; 5; 5]%Z)
                 [8%Z] None 4 0%nat) Examples.no_module) as [ga' Ha];
    [intros e; vm_compute; discriminate |].
  destruct (example_party_built
              (DeepFMBase_init nat Examples.counter_sample (DimsList [1; 1]%Z) [8%Z]
                 (Some [0; 1]%Z) 4 0%nat) Examples.no_module) as [gb' Hb];
    [intros e; vm_compute; discriminate |].
  destruct (built_Ok
              (DeepFMFuse_init nat Examples.counter_sample Examples.squash
                 [8; 8]%Z [4%Z] 0%nat) (Examples.fuse 0)) as [gf' Hf];
    [intros e; vm_compute; discriminate |].
  assert (Hca : valid_config (dims_list (DimsList [5; 5; 5]%Z)) (index_list None))
    by solve_config.
  assert (Hcb : valid_config (dims_list (DimsList [1; 1]%Z))
                  (index_list (Some [0; 1]%Z))) by solve_config.
  destruct (two_party_pipeline nat Examples.counter_sample Examples.squash
              (DimsList [5; 5; 5]%Z) (DimsList [1; 1]%Z) [8%Z] [8%Z] [4%Z]
              None (Some [0; 1]%Z) 4 0%nat ga' 0%nat gb' 0%nat gf'
              Examples.cat_party Examples.cont_party TwoParties.fusion 2
              [LongT (mkArray [2%nat] [0; 4]%Z); LongT (mkArray [2%nat] [1; 1]%Z);
               LongT (mkArray [2%nat] [3; 2]%Z)]
              [FloatT (Examples.T [2; 1]%nat [1; 2]%Z);
               FloatT (Examples.T [2; 1]%nat [3; 4]%Z)]
              Hca Hcb Ha Hb Hf)
    as [pa [pb [Hpa [Hpb [Hyes _]]]]].
  - repeat constructor; eexists; (split; [reflexivity |]);
      (split; [reflexivity |]); repeat constructor; lia.
  - repeat constructor; eexists; split; reflexivity.
  - destruct Hyes as [preds [Hpreds Spreds]]; [left; reflexivity |].
    exists pa, pb, preds. repeat split; assumption.
Defined.
